(** * Whizy indexer: log decoder and per-contract synchronisation loop

    A shallow embedding of [indexer/parser.go] (the log decoder) and of the
    indexing loop ([indexContract], [processBlockRange], [storeEntities]),
    together with the properties the specification states about them.

    Conventions.
    - Go's fixed-width integers are [Z] with the wrap-around written out
      ([Uint64], [Int64]).
    - [[]byte], [common.Hash] and [common.Address] are [list byte].
    - Go's [(value, error)] results, and run-time panics, are the three
      constructors of [result].
    - The RPC node, the clock and the failures of the database are an
      explicit environment ([CycleEnv]), one per cycle of the loop. *)

From Stdlib Require Import ZArith List String Ascii Lia Bool DecimalString.
From Stdlib.Strings Require Import Byte.
From stdpp Require Import base gmap strings list sorting.
Import ListNotations.
Local Open Scope Z_scope.

(** ** Bytes and machine integers *)

Definition byte_to_Z (b : byte) : Z := Z.of_N (Byte.to_N b).

Definition byte_of_Z (z : Z) : byte :=
  match Byte.of_N (Z.to_N (z mod 256)) with Some b => b | None => x00 end.

(** [uint64(x)] and the low 64 bits returned by [Uint64] method of [big.Int]. *)
Definition Uint64 (z : Z) : Z := z mod 2 ^ 64.

(** [int64(x)] of a 64-bit pattern, and the [Int64] method of [big.Int]. *)
Definition Int64 (z : Z) : Z := (z + 2 ^ 63) mod 2 ^ 64 - 2 ^ 63.

(** [len(s)] as an integer. *)
Definition len {A} (s : list A) : Z := Z.of_nat (length s).

(** ** Results of fallible Go code *)

Inductive result (A : Type) : Type :=
| Ok (a : A)
| Err (msg : string)
| Panic (msg : string).
Arguments Ok {A} a.
Arguments Err {A} msg.
Arguments Panic {A} msg.

Definition bind {A B} (r : result A) (k : A -> result B) : result B :=
  match r with
  | Ok a => k a
  | Err m => Err m
  | Panic m => Panic m
  end.

Notation "x <-- r ;; k" := (bind r (fun x => k))
  (at level 100, r at next level, right associativity).

Definition rmap {A B} (f : A -> B) (r : result A) : result B :=
  x <-- r ;; Ok (f x).

(** The slice expression [s[lo:hi]]: indices out of range are a run-time
    panic.  Every slice the decoder takes has [hi <= len(s)] or [lo > hi],
    so the capacity of the underlying array never matters. *)
Definition slice (s : list byte) (lo hi : Z) : result (list byte) :=
  if (0 <=? lo) && (lo <=? hi) && (hi <=? len s)
  then Ok (firstn (Z.to_nat (hi - lo)) (skipn (Z.to_nat lo) s))
  else Panic "slice bounds out of range".

(** The index expression [s[i]]. *)
Definition index {A} (s : list A) (i : nat) : result A :=
  match nth_error s i with
  | Some a => Ok a
  | None => Panic "index out of range"
  end.

(** ** Keccak-256 ([crypto.Keccak256Hash]) *)

Module Keccak.

Definition rotl64 (x n : Z) : Z :=
  Z.lor (Z.shiftl x n mod 2 ^ 64) (Z.shiftr x (64 - n)).

Definition idx (x y : nat) : nat := (x mod 5 + 5 * (y mod 5))%nat.

Definition lane (st : list Z) (x y : nat) : Z := nth (idx x y) st 0.

Definition build (f : nat -> nat -> Z) : list Z :=
  map (fun i => f (i mod 5)%nat (i / 5)%nat) (seq 0 25).

Definition rotc : list Z :=
  [ 0; 1; 62; 28; 27;  36; 44; 6; 55; 20;  3; 10; 43; 25; 39;
    41; 45; 15; 21; 8;  18; 2; 61; 56; 14 ].

Definition rc : list Z :=
  [ 0x0000000000000001; 0x0000000000008082; 0x800000000000808A;
    0x8000000080008000; 0x000000000000808B; 0x0000000080000001;
    0x8000000080008081; 0x8000000000008009; 0x000000000000008A;
    0x0000000000000088; 0x0000000080008009; 0x000000008000000A;
    0x000000008000808B; 0x800000000000008B; 0x8000000000008089;
    0x8000000000008003; 0x8000000000008002; 0x8000000000000080;
    0x000000000000800A; 0x800000008000000A; 0x8000000080008081;
    0x8000000000008080; 0x0000000080000001; 0x8000000080008008 ].

Definition theta (st : list Z) : list Z :=
  let c := map (fun x => fold_right Z.lxor 0 (map (lane st x) (seq 0 5))) (seq 0 5) in
  let d x := Z.lxor (nth ((x + 4) mod 5) c 0) (rotl64 (nth ((x + 1) mod 5) c 0) 1) in
  build (fun x y => Z.lxor (lane st x y) (d x)).

Definition rhopi (st : list Z) : list Z :=
  build (fun x y => let x0 := ((x + 3 * y) mod 5)%nat in
                    rotl64 (lane st x0 x) (nth (idx x0 x) rotc 0)).

Definition chi (st : list Z) : list Z :=
  build (fun x y => Z.lxor (lane st x y)
                      (Z.ldiff (lane st (x + 2) y) (lane st (x + 1) y))).

Definition iota (k : Z) (st : list Z) : list Z :=
  match st with
  | [] => []
  | a :: r => Z.lxor a k :: r
  end.

Definition round (st : list Z) (k : Z) : list Z :=
  iota k (chi (rhopi (theta st))).

Definition permute (st : list Z) : list Z := fold_left round rc st.

Fixpoint le_word (bs : list byte) : Z :=
  match bs with
  | [] => 0
  | b :: r => byte_to_Z b + 256 * le_word r
  end.

Fixpoint lanes_of (n : nat) (bs : list byte) : list Z :=
  match n with
  | O => []
  | S n' => le_word (firstn 8 bs) :: lanes_of n' (skipn 8 bs)
  end.

Definition rate : nat := 136.

Definition pad (msg : list byte) : list byte :=
  let q := (rate - length msg mod rate)%nat in
  msg ++ (if Nat.eqb q 1 then [byte_of_Z 0x81]
          else byte_of_Z 0x01 :: repeat x00 (q - 2) ++ [byte_of_Z 0x80]).

Fixpoint xor_into (st blk : list Z) : list Z :=
  match st, blk with
  | a :: st', b :: blk' => Z.lxor a b :: xor_into st' blk'
  | _, _ => st
  end.

Fixpoint absorb (n : nat) (st : list Z) (bs : list byte) : list Z :=
  match n with
  | O => st
  | S n' =>
      absorb n' (permute (xor_into st (lanes_of 17 (firstn rate bs))))
             (skipn rate bs)
  end.

Fixpoint le_bytes (n : nat) (z : Z) : list byte :=
  match n with
  | O => []
  | S n' => byte_of_Z z :: le_bytes n' (z / 256)
  end.

Definition Keccak256 (msg : list byte) : list byte :=
  let p := pad msg in
  let st := absorb (length p / rate) (repeat 0 25) p in
  flat_map (le_bytes 8) (firstn 4 st).

End Keccak.

(** ** go-ethereum's [common] package and [math/big] *)

Definition Hash : Type := list byte.
Definition Address : Type := list byte.

Definition Keccak256Hash (data : string) : Hash :=
  Keccak.Keccak256 (list_byte_of_string data).

(** [new(big.Int).SetBytes(b)]: the bytes as a big-endian unsigned integer. *)
Definition SetBytes (b : list byte) : Z :=
  fold_left (fun acc x => acc * 256 + byte_to_Z x) b 0.

(** [config.BigInt] embeds a [*big.Int]; [None] is the nil pointer of a
    field that was never assigned. *)
Definition BigInt : Type := option Z.

(** [common.BytesToAddress]: the last 20 bytes, left-padded with zeros. *)
Definition BytesToAddress (b : list byte) : Address :=
  let b' := skipn (length b - 20) b in
  repeat x00 (20 - length b') ++ b'.

Definition hexdigit (n : Z) : ascii :=
  ascii_of_nat (Z.to_nat (if n <? 10 then 48 + n else 87 + n)).

Fixpoint hexenc (bs : list byte) : string :=
  match bs with
  | [] => EmptyString
  | b :: r =>
      String (hexdigit (byte_to_Z b / 16))
        (String (hexdigit (byte_to_Z b mod 16)) (hexenc r))
  end.

(** [common.Hash.Hex]: "0x" and the lower-case hexadecimal digits. *)
Definition Hash_Hex (h : Hash) : string := ("0x" ++ hexenc h)%string.

(** The checksum pass of [common.Address.Hex] (EIP-55): the letter at
    position [i] is raised to upper case when nibble [i] of the Keccak-256
    hash of the lower-case digits is above 7. *)
Fixpoint checksum (i : nat) (hash : list byte) (digits : string) : string :=
  match digits with
  | EmptyString => EmptyString
  | String c rest =>
      let hashByte := byte_to_Z (nth (i / 2) hash x00) in
      let nib := if Nat.even i then hashByte / 16 else hashByte mod 16 in
      let n := Z.of_nat (nat_of_ascii c) in
      let c' := if (57 <? n) && (7 <? nib)
                then ascii_of_nat (Z.to_nat (n - 32)) else c in
      String c' (checksum (S i) hash rest)
  end.

Definition Address_Hex (a : Address) : string :=
  let digits := hexenc a in
  ("0x" ++ checksum 0 (Keccak.Keccak256 (list_byte_of_string digits)) digits)%string.

(** [fmt.Sprintf("%d", n)]. *)
Definition decimal (n : Z) : string := NilZero.string_of_int (Z.to_int n).

(** Array equality [h == h'] on [common.Hash]. *)
#[global] Instance byte_eq_decision : EqDecision byte := Byte.byte_eq_dec.

Definition Hash_eqb (h h' : Hash) : bool := bool_decide (h = h').

(** ** [strings.EqualFold]

    The ASCII fast path of Go's standard library, byte by byte.  At the first
    position where either string has a byte of 0x80 or more, the library
    continues with its Unicode path on the two remaining suffixes; that path
    walks the Unicode case-folding tables and is the parameter [unicode]. *)

Section EqualFold.
Variable unicode : string -> string -> bool.

Fixpoint EqualFold (s t : string) : bool :=
  match s, t with
  | String sc s', String tc t' =>
      let sr := Z.of_nat (nat_of_ascii sc) in
      let tr := Z.of_nat (nat_of_ascii tc) in
      if 128 <=? Z.lor sr tr then unicode s t
      else if tr =? sr then EqualFold s' t'
      else
        let lo := if tr <? sr then tr else sr in
        let hi := if tr <? sr then sr else tr in
        if (65 <=? lo) && (lo <=? 90) && (hi =? lo + 97 - 65)
        then EqualFold s' t'
        else false
  | EmptyString, EmptyString => true
  | _, _ => false
  end.
End EqualFold.

(** Strings that differ only in the case of their ASCII letters. *)
Definition code (c : ascii) : Z := Z.of_nat (nat_of_ascii c).

Definition lowerASCII (n : Z) : Z :=
  if (65 <=? n) && (n <=? 90) then n + 32 else n.

Fixpoint isASCII (s : string) : bool :=
  match s with
  | EmptyString => true
  | String c r => (code c <? 128) && isASCII r
  end.

Fixpoint sameASCIIFold (s s' : string) : bool :=
  match s, s' with
  | EmptyString, EmptyString => true
  | String c r, String c' r' =>
      (lowerASCII (code c) =? lowerASCII (code c')) && sameASCIIFold r r'
  | _, _ => false
  end.

(** ** The data model ([config] package) *)

Module Contract.
Record t : Type := mk
  { Name : string;
    Address : string;
    StartBlock : Z }.
End Contract.

(** [types.Log], with the fields the indexer reads. *)
Module Log.
Record t : Type := mk
  { Topics : list Hash;
    Data : list byte;
    BlockNumber : Z;
    TxHash : Hash;
    Index : Z }.
End Log.

Module BetPlaced.
Record t : Type := mk
  { ID : string;
    MarketID : BigInt;
    User : string;
    Position : bool;
    Amount : BigInt;
    Shares : BigInt;
    BlockNumber : BigInt;
    BlockTimestamp : BigInt;
    TransactionHash : string }.
Definition set_Position (v : bool) (e : t) : t :=
  mk (ID e) (MarketID e) (User e) v (Amount e) (Shares e)
     (BlockNumber e) (BlockTimestamp e) (TransactionHash e).
Definition set_Amount (v : BigInt) (e : t) : t :=
  mk (ID e) (MarketID e) (User e) (Position e) v (Shares e)
     (BlockNumber e) (BlockTimestamp e) (TransactionHash e).
Definition set_Shares (v : BigInt) (e : t) : t :=
  mk (ID e) (MarketID e) (User e) (Position e) (Amount e) v
     (BlockNumber e) (BlockTimestamp e) (TransactionHash e).
End BetPlaced.

Module MarketCreated.
Record t : Type := mk
  { ID : string;
    MarketID : BigInt;
    Question : string;
    EndTime : BigInt;
    TokenAddress : string;
    VaultAddress : string;
    BlockNumber : BigInt;
    BlockTimestamp : BigInt;
    TransactionHash : string }.
Definition set_Question (v : string) (e : t) : t :=
  mk (ID e) (MarketID e) v (EndTime e) (TokenAddress e) (VaultAddress e)
     (BlockNumber e) (BlockTimestamp e) (TransactionHash e).
Definition set_EndTime (v : BigInt) (e : t) : t :=
  mk (ID e) (MarketID e) (Question e) v (TokenAddress e) (VaultAddress e)
     (BlockNumber e) (BlockTimestamp e) (TransactionHash e).
Definition set_TokenAddress (v : string) (e : t) : t :=
  mk (ID e) (MarketID e) (Question e) (EndTime e) v (VaultAddress e)
     (BlockNumber e) (BlockTimestamp e) (TransactionHash e).
Definition set_VaultAddress (v : string) (e : t) : t :=
  mk (ID e) (MarketID e) (Question e) (EndTime e) (TokenAddress e) v
     (BlockNumber e) (BlockTimestamp e) (TransactionHash e).
End MarketCreated.

Module MarketResolved.
Record t : Type := mk
  { ID : string;
    MarketID : BigInt;
    Outcome : bool;
    BlockNumber : BigInt;
    BlockTimestamp : BigInt;
    TransactionHash : string }.
Definition set_Outcome (v : bool) (e : t) : t :=
  mk (ID e) (MarketID e) v (BlockNumber e) (BlockTimestamp e)
     (TransactionHash e).
End MarketResolved.

Module WinningsClaimed.
Record t : Type := mk
  { ID : string;
    MarketID : BigInt;
    User : string;
    WinningAmount : BigInt;
    BlockNumber : BigInt;
    BlockTimestamp : BigInt;
    TransactionHash : string }.
Definition set_WinningAmount (v : BigInt) (e : t) : t :=
  mk (ID e) (MarketID e) (User e) v (BlockNumber e) (BlockTimestamp e)
     (TransactionHash e).
End WinningsClaimed.

Module AutoDepositExecuted.
Record t : Type := mk
  { ID : string;
    User : string;
    Protocol : string;
    Amount : BigInt;
    Success : bool;
    BlockNumber : BigInt;
    BlockTimestamp : BigInt;
    TransactionHash : string }.
Definition set_Amount (v : BigInt) (e : t) : t :=
  mk (ID e) (User e) (Protocol e) v (Success e) (BlockNumber e)
     (BlockTimestamp e) (TransactionHash e).
Definition set_Success (v : bool) (e : t) : t :=
  mk (ID e) (User e) (Protocol e) (Amount e) v (BlockNumber e)
     (BlockTimestamp e) (TransactionHash e).
End AutoDepositExecuted.

Module AutoWithdrawExecuted.
Record t : Type := mk
  { ID : string;
    User : string;
    Protocol : string;
    Amount : BigInt;
    Success : bool;
    BlockNumber : BigInt;
    BlockTimestamp : BigInt;
    TransactionHash : string }.
Definition set_Amount (v : BigInt) (e : t) : t :=
  mk (ID e) (User e) (Protocol e) v (Success e) (BlockNumber e)
     (BlockTimestamp e) (TransactionHash e).
Definition set_Success (v : bool) (e : t) : t :=
  mk (ID e) (User e) (Protocol e) (Amount e) v (BlockNumber e)
     (BlockTimestamp e) (TransactionHash e).
End AutoWithdrawExecuted.

Module OwnershipTransferred.
Record t : Type := mk
  { ID : string;
    PreviousOwner : string;
    NewOwner : string;
    BlockNumber : BigInt;
    BlockTimestamp : BigInt;
    TransactionHash : string }.
End OwnershipTransferred.

Module Paused.
Record t : Type := mk
  { ID : string;
    Account : string;
    BlockNumber : BigInt;
    BlockTimestamp : BigInt;
    TransactionHash : string }.
Definition set_Account (v : string) (e : t) : t :=
  mk (ID e) v (BlockNumber e) (BlockTimestamp e) (TransactionHash e).
End Paused.

Module ProtocolRegistered.
Record t : Type := mk
  { ID : string;
    ProtocolType : Z;
    ProtocolAddress : string;
    Name : string;
    RiskLevel : Z;
    BlockNumber : BigInt;
    BlockTimestamp : BigInt;
    TransactionHash : string }.
Definition set_Name (v : string) (e : t) : t :=
  mk (ID e) (ProtocolType e) (ProtocolAddress e) v (RiskLevel e)
     (BlockNumber e) (BlockTimestamp e) (TransactionHash e).
Definition set_RiskLevel (v : Z) (e : t) : t :=
  mk (ID e) (ProtocolType e) (ProtocolAddress e) (Name e) v
     (BlockNumber e) (BlockTimestamp e) (TransactionHash e).
End ProtocolRegistered.

Module ProtocolUpdated.
Record t : Type := mk
  { ID : string;
    ProtocolAddress : string;
    NewApy : BigInt;
    NewTvl : BigInt;
    BlockNumber : BigInt;
    BlockTimestamp : BigInt;
    TransactionHash : string }.
Definition set_NewApy (v : BigInt) (e : t) : t :=
  mk (ID e) (ProtocolAddress e) v (NewTvl e) (BlockNumber e)
     (BlockTimestamp e) (TransactionHash e).
Definition set_NewTvl (v : BigInt) (e : t) : t :=
  mk (ID e) (ProtocolAddress e) (NewApy e) v (BlockNumber e)
     (BlockTimestamp e) (TransactionHash e).
End ProtocolUpdated.

Module Unpaused.
Record t : Type := mk
  { ID : string;
    Account : string;
    BlockNumber : BigInt;
    BlockTimestamp : BigInt;
    TransactionHash : string }.
Definition set_Account (v : string) (e : t) : t :=
  mk (ID e) v (BlockNumber e) (BlockTimestamp e) (TransactionHash e).
End Unpaused.

Module SyncState.
Record t : Type := mk
  { ContractAddress : string;
    ContractName : string;
    LastBlock : Z;
    LastBlockHash : string }.
Definition set_LastBlock (v : Z) (s : t) : t :=
  mk (ContractAddress s) (ContractName s) v (LastBlockHash s).
End SyncState.

(** What [ParseLog] returns in its [interface{}]: a pointer to one of the
    eleven entity structs.  [storeEntities] switches on this tag. *)
Inductive Entity : Type :=
| EBetPlaced (e : BetPlaced.t)
| EMarketCreated (e : MarketCreated.t)
| EMarketResolved (e : MarketResolved.t)
| EWinningsClaimed (e : WinningsClaimed.t)
| EAutoDepositExecuted (e : AutoDepositExecuted.t)
| EAutoWithdrawExecuted (e : AutoWithdrawExecuted.t)
| EOwnershipTransferred (e : OwnershipTransferred.t)
| EPaused (e : Paused.t)
| EProtocolRegistered (e : ProtocolRegistered.t)
| EProtocolUpdated (e : ProtocolUpdated.t)
| EUnpaused (e : Unpaused.t).

(** The primary key column [id] of an entity. *)
Definition Entity_ID (x : Entity) : string :=
  match x with
  | EBetPlaced e => BetPlaced.ID e
  | EMarketCreated e => MarketCreated.ID e
  | EMarketResolved e => MarketResolved.ID e
  | EWinningsClaimed e => WinningsClaimed.ID e
  | EAutoDepositExecuted e => AutoDepositExecuted.ID e
  | EAutoWithdrawExecuted e => AutoWithdrawExecuted.ID e
  | EOwnershipTransferred e => OwnershipTransferred.ID e
  | EPaused e => Paused.ID e
  | EProtocolRegistered e => ProtocolRegistered.ID e
  | EProtocolUpdated e => ProtocolUpdated.ID e
  | EUnpaused e => Unpaused.ID e
  end.

(** ** The event catalog ([init] of parser.go) *)

Definition BetPlacedSignature : Hash :=
  Eval vm_compute in
    Keccak256Hash "BetPlaced(uint256,address,bool,uint256,uint256)".
Definition MarketCreatedSignature : Hash :=
  Eval vm_compute in
    Keccak256Hash "MarketCreated(uint256,string,uint256,address,address)".
Definition MarketResolvedSignature : Hash :=
  Eval vm_compute in Keccak256Hash "MarketResolved(uint256,bool)".
Definition WinningsClaimedSignature : Hash :=
  Eval vm_compute in Keccak256Hash "WinningsClaimed(uint256,address,uint256)".
Definition AutoDepositExecutedSignature : Hash :=
  Eval vm_compute in
    Keccak256Hash "AutoDepositExecuted(address,address,uint256,bool)".
Definition AutoWithdrawExecutedSignature : Hash :=
  Eval vm_compute in
    Keccak256Hash "AutoWithdrawExecuted(address,address,uint256,bool)".
Definition OwnershipTransferredSignature : Hash :=
  Eval vm_compute in Keccak256Hash "OwnershipTransferred(address,address)".
Definition PausedSignature : Hash :=
  Eval vm_compute in Keccak256Hash "Paused(address)".
Definition ProtocolRegisteredSignature : Hash :=
  Eval vm_compute in
    Keccak256Hash "ProtocolRegistered(uint8,address,string,uint8)".
Definition ProtocolUpdatedSignature : Hash :=
  Eval vm_compute in Keccak256Hash "ProtocolUpdated(address,uint256,uint256)".
Definition UnpausedSignature : Hash :=
  Eval vm_compute in Keccak256Hash "Unpaused(address)".

(** The signatures the first and the second [switch] of [ParseLog] know. *)
Definition marketSignatures : list Hash :=
  [ BetPlacedSignature; MarketCreatedSignature; MarketResolvedSignature;
    WinningsClaimedSignature ].

Definition selectorSignatures : list Hash :=
  [ AutoDepositExecutedSignature; AutoWithdrawExecutedSignature;
    OwnershipTransferredSignature; PausedSignature;
    ProtocolRegisteredSignature; ProtocolUpdatedSignature;
    UnpausedSignature ].

(** ** The decoders (parser.go) *)

Definition parseBetPlaced (log : Log.t) (id : string)
    (blockNumber blockTimestamp : BigInt) (txHash : string)
  : result BetPlaced.t :=
  if len (Log.Topics log) <? 3 then Err "insufficient topics for BetPlaced"
  else
    topic1 <-- index (Log.Topics log) 1 ;;
    topic2 <-- index (Log.Topics log) 2 ;;
    let entity :=
      {| BetPlaced.ID := id;
         BetPlaced.MarketID := Some (SetBytes topic1);
         BetPlaced.User := Address_Hex (BytesToAddress topic2);
         BetPlaced.Position := false;
         BetPlaced.Amount := None;
         BetPlaced.Shares := None;
         BetPlaced.BlockNumber := blockNumber;
         BetPlaced.BlockTimestamp := blockTimestamp;
         BetPlaced.TransactionHash := txHash |} in
    if 96 <=? len (Log.Data log) then
      w0 <-- slice (Log.Data log) 0 32 ;;
      let entity := BetPlaced.set_Position (negb (SetBytes w0 =? 0)) entity in
      w1 <-- slice (Log.Data log) 32 64 ;;
      let entity := BetPlaced.set_Amount (Some (SetBytes w1)) entity in
      w2 <-- slice (Log.Data log) 64 96 ;;
      let entity := BetPlaced.set_Shares (Some (SetBytes w2)) entity in
      Ok entity
    else Ok entity.

Definition parseMarketCreated (log : Log.t) (id : string)
    (blockNumber blockTimestamp : BigInt) (txHash : string)
  : result MarketCreated.t :=
  if len (Log.Topics log) <? 2 then Err "insufficient topics for MarketCreated"
  else
    topic1 <-- index (Log.Topics log) 1 ;;
    let entity :=
      {| MarketCreated.ID := id;
         MarketCreated.MarketID := Some (SetBytes topic1);
         MarketCreated.Question := "";
         MarketCreated.EndTime := None;
         MarketCreated.TokenAddress := "";
         MarketCreated.VaultAddress := "";
         MarketCreated.BlockNumber := blockNumber;
         MarketCreated.BlockTimestamp := blockTimestamp;
         MarketCreated.TransactionHash := txHash |} in
    let data := Log.Data log in
    if 128 <=? len data then
      w0 <-- slice data 0 32 ;;
      let offset := Uint64 (SetBytes w0) in
      w1 <-- slice data 32 64 ;;
      let entity := MarketCreated.set_EndTime (Some (SetBytes w1)) entity in
      w2 <-- slice data 64 96 ;;
      let entity :=
        MarketCreated.set_TokenAddress (Address_Hex (BytesToAddress w2)) entity in
      w3 <-- slice data 96 128 ;;
      let entity :=
        MarketCreated.set_VaultAddress (Address_Hex (BytesToAddress w3)) entity in
      if Uint64 (offset + 32) <? Uint64 (len data) then
        lw <-- slice data offset (Uint64 (offset + 32)) ;;
        let strLen := Uint64 (SetBytes lw) in
        if Uint64 (Uint64 (offset + 32) + strLen) <=? Uint64 (len data) then
          q <-- slice data (Uint64 (offset + 32))
                  (Uint64 (Uint64 (offset + 32) + strLen)) ;;
          Ok (MarketCreated.set_Question (string_of_list_byte q) entity)
        else Ok entity
      else Ok entity
    else Ok entity.

Definition parseMarketResolved (log : Log.t) (id : string)
    (blockNumber blockTimestamp : BigInt) (txHash : string)
  : result MarketResolved.t :=
  if len (Log.Topics log) <? 2 then Err "insufficient topics for MarketResolved"
  else
    topic1 <-- index (Log.Topics log) 1 ;;
    let entity :=
      {| MarketResolved.ID := id;
         MarketResolved.MarketID := Some (SetBytes topic1);
         MarketResolved.Outcome := false;
         MarketResolved.BlockNumber := blockNumber;
         MarketResolved.BlockTimestamp := blockTimestamp;
         MarketResolved.TransactionHash := txHash |} in
    if 32 <=? len (Log.Data log) then
      w0 <-- slice (Log.Data log) 0 32 ;;
      Ok (MarketResolved.set_Outcome (negb (SetBytes w0 =? 0)) entity)
    else Ok entity.

Definition parseWinningsClaimed (log : Log.t) (id : string)
    (blockNumber blockTimestamp : BigInt) (txHash : string)
  : result WinningsClaimed.t :=
  if len (Log.Topics log) <? 3 then Err "insufficient topics for WinningsClaimed"
  else
    topic1 <-- index (Log.Topics log) 1 ;;
    topic2 <-- index (Log.Topics log) 2 ;;
    let entity :=
      {| WinningsClaimed.ID := id;
         WinningsClaimed.MarketID := Some (SetBytes topic1);
         WinningsClaimed.User := Address_Hex (BytesToAddress topic2);
         WinningsClaimed.WinningAmount := None;
         WinningsClaimed.BlockNumber := blockNumber;
         WinningsClaimed.BlockTimestamp := blockTimestamp;
         WinningsClaimed.TransactionHash := txHash |} in
    if 32 <=? len (Log.Data log) then
      w0 <-- slice (Log.Data log) 0 32 ;;
      Ok (WinningsClaimed.set_WinningAmount (Some (SetBytes w0)) entity)
    else Ok entity.

Definition parseAutoDepositExecuted (log : Log.t) (id : string)
    (blockNumber blockTimestamp : BigInt) (txHash : string)
  : result AutoDepositExecuted.t :=
  if len (Log.Topics log) <? 3
  then Err "insufficient topics for AutoDepositExecuted"
  else
    topic1 <-- index (Log.Topics log) 1 ;;
    topic2 <-- index (Log.Topics log) 2 ;;
    let entity :=
      {| AutoDepositExecuted.ID := id;
         AutoDepositExecuted.User := Address_Hex (BytesToAddress topic1);
         AutoDepositExecuted.Protocol := Address_Hex (BytesToAddress topic2);
         AutoDepositExecuted.Amount := None;
         AutoDepositExecuted.Success := false;
         AutoDepositExecuted.BlockNumber := blockNumber;
         AutoDepositExecuted.BlockTimestamp := blockTimestamp;
         AutoDepositExecuted.TransactionHash := txHash |} in
    if 64 <=? len (Log.Data log) then
      w0 <-- slice (Log.Data log) 0 32 ;;
      let entity := AutoDepositExecuted.set_Amount (Some (SetBytes w0)) entity in
      w1 <-- slice (Log.Data log) 32 64 ;;
      Ok (AutoDepositExecuted.set_Success (negb (SetBytes w1 =? 0)) entity)
    else Ok entity.

Definition parseAutoWithdrawExecuted (log : Log.t) (id : string)
    (blockNumber blockTimestamp : BigInt) (txHash : string)
  : result AutoWithdrawExecuted.t :=
  if len (Log.Topics log) <? 3
  then Err "insufficient topics for AutoWithdrawExecuted"
  else
    topic1 <-- index (Log.Topics log) 1 ;;
    topic2 <-- index (Log.Topics log) 2 ;;
    let entity :=
      {| AutoWithdrawExecuted.ID := id;
         AutoWithdrawExecuted.User := Address_Hex (BytesToAddress topic1);
         AutoWithdrawExecuted.Protocol := Address_Hex (BytesToAddress topic2);
         AutoWithdrawExecuted.Amount := None;
         AutoWithdrawExecuted.Success := false;
         AutoWithdrawExecuted.BlockNumber := blockNumber;
         AutoWithdrawExecuted.BlockTimestamp := blockTimestamp;
         AutoWithdrawExecuted.TransactionHash := txHash |} in
    if 64 <=? len (Log.Data log) then
      w0 <-- slice (Log.Data log) 0 32 ;;
      let entity := AutoWithdrawExecuted.set_Amount (Some (SetBytes w0)) entity in
      w1 <-- slice (Log.Data log) 32 64 ;;
      Ok (AutoWithdrawExecuted.set_Success (negb (SetBytes w1 =? 0)) entity)
    else Ok entity.

Definition parseOwnershipTransferred (log : Log.t) (id : string)
    (blockNumber blockTimestamp : BigInt) (txHash : string)
  : result OwnershipTransferred.t :=
  if len (Log.Topics log) <? 3
  then Err "insufficient topics for OwnershipTransferred"
  else
    topic1 <-- index (Log.Topics log) 1 ;;
    topic2 <-- index (Log.Topics log) 2 ;;
    Ok {| OwnershipTransferred.ID := id;
          OwnershipTransferred.PreviousOwner :=
            Address_Hex (BytesToAddress topic1);
          OwnershipTransferred.NewOwner := Address_Hex (BytesToAddress topic2);
          OwnershipTransferred.BlockNumber := blockNumber;
          OwnershipTransferred.BlockTimestamp := blockTimestamp;
          OwnershipTransferred.TransactionHash := txHash |}.

Definition parsePaused (log : Log.t) (id : string)
    (blockNumber blockTimestamp : BigInt) (txHash : string)
  : result Paused.t :=
  let entity :=
    {| Paused.ID := id;
       Paused.Account := "";
       Paused.BlockNumber := blockNumber;
       Paused.BlockTimestamp := blockTimestamp;
       Paused.TransactionHash := txHash |} in
  if 32 <=? len (Log.Data log) then
    w0 <-- slice (Log.Data log) 0 32 ;;
    Ok (Paused.set_Account (Address_Hex (BytesToAddress w0)) entity)
  else Ok entity.

Definition parseProtocolRegistered (log : Log.t) (id : string)
    (blockNumber blockTimestamp : BigInt) (txHash : string)
  : result ProtocolRegistered.t :=
  if len (Log.Topics log) <? 3
  then Err "insufficient topics for ProtocolRegistered"
  else
    topic1 <-- index (Log.Topics log) 1 ;;
    topic2 <-- index (Log.Topics log) 2 ;;
    let entity :=
      {| ProtocolRegistered.ID := id;
         ProtocolRegistered.ProtocolType := Int64 (SetBytes topic1);
         ProtocolRegistered.ProtocolAddress :=
           Address_Hex (BytesToAddress topic2);
         ProtocolRegistered.Name := "";
         ProtocolRegistered.RiskLevel := 0;
         ProtocolRegistered.BlockNumber := blockNumber;
         ProtocolRegistered.BlockTimestamp := blockTimestamp;
         ProtocolRegistered.TransactionHash := txHash |} in
    let data := Log.Data log in
    if 64 <=? len data then
      w0 <-- slice data 0 32 ;;
      let offset := Uint64 (SetBytes w0) in
      w1 <-- slice data 32 64 ;;
      let entity :=
        ProtocolRegistered.set_RiskLevel (Int64 (SetBytes w1)) entity in
      if Uint64 (offset + 32) <? Uint64 (len data) then
        lw <-- slice data offset (Uint64 (offset + 32)) ;;
        let strLen := Uint64 (SetBytes lw) in
        if Uint64 (Uint64 (offset + 32) + strLen) <=? Uint64 (len data) then
          q <-- slice data (Uint64 (offset + 32))
                  (Uint64 (Uint64 (offset + 32) + strLen)) ;;
          Ok (ProtocolRegistered.set_Name (string_of_list_byte q) entity)
        else Ok entity
      else Ok entity
    else Ok entity.

Definition parseProtocolUpdated (log : Log.t) (id : string)
    (blockNumber blockTimestamp : BigInt) (txHash : string)
  : result ProtocolUpdated.t :=
  if len (Log.Topics log) <? 2
  then Err "insufficient topics for ProtocolUpdated"
  else
    topic1 <-- index (Log.Topics log) 1 ;;
    let entity :=
      {| ProtocolUpdated.ID := id;
         ProtocolUpdated.ProtocolAddress := Address_Hex (BytesToAddress topic1);
         ProtocolUpdated.NewApy := None;
         ProtocolUpdated.NewTvl := None;
         ProtocolUpdated.BlockNumber := blockNumber;
         ProtocolUpdated.BlockTimestamp := blockTimestamp;
         ProtocolUpdated.TransactionHash := txHash |} in
    if 64 <=? len (Log.Data log) then
      w0 <-- slice (Log.Data log) 0 32 ;;
      let entity := ProtocolUpdated.set_NewApy (Some (SetBytes w0)) entity in
      w1 <-- slice (Log.Data log) 32 64 ;;
      Ok (ProtocolUpdated.set_NewTvl (Some (SetBytes w1)) entity)
    else Ok entity.

Definition parseUnpaused (log : Log.t) (id : string)
    (blockNumber blockTimestamp : BigInt) (txHash : string)
  : result Unpaused.t :=
  let entity :=
    {| Unpaused.ID := id;
       Unpaused.Account := "";
       Unpaused.BlockNumber := blockNumber;
       Unpaused.BlockTimestamp := blockTimestamp;
       Unpaused.TransactionHash := txHash |} in
  if 32 <=? len (Log.Data log) then
    w0 <-- slice (Log.Data log) 0 32 ;;
    Ok (Unpaused.set_Account (Address_Hex (BytesToAddress w0)) entity)
  else Ok entity.

(** ** [ParseLog] and the indexing loop

    The two monitored contracts are the package variables
    [config.WhizyPredictionMarketContract] and
    [config.ProtocolSelectorContract], filled in by [LoadNetworks] at start-up:
    they are parameters here, like the Unicode path of [strings.EqualFold]. *)

Inductive Kind : Type :=
| KBetPlaced | KMarketCreated | KMarketResolved | KWinningsClaimed
| KAutoDepositExecuted | KAutoWithdrawExecuted | KOwnershipTransferred
| KPaused | KProtocolRegistered | KProtocolUpdated | KUnpaused.

#[global] Instance Kind_eq_decision : EqDecision Kind.
Proof. solve_decision. Defined.

(** The dynamic type the type switch of [storeEntities] inspects. *)
Definition kindOf (x : Entity) : Kind :=
  match x with
  | EBetPlaced _ => KBetPlaced
  | EMarketCreated _ => KMarketCreated
  | EMarketResolved _ => KMarketResolved
  | EWinningsClaimed _ => KWinningsClaimed
  | EAutoDepositExecuted _ => KAutoDepositExecuted
  | EAutoWithdrawExecuted _ => KAutoWithdrawExecuted
  | EOwnershipTransferred _ => KOwnershipTransferred
  | EPaused _ => KPaused
  | EProtocolRegistered _ => KProtocolRegistered
  | EProtocolUpdated _ => KProtocolUpdated
  | EUnpaused _ => KUnpaused
  end.

(** The name each [if len(...) > 0] block of [storeEntities] puts in its
    error message. *)
Definition kindName (k : Kind) : string :=
  match k with
  | KBetPlaced => "BetPlaced"
  | KMarketCreated => "MarketCreated"
  | KMarketResolved => "MarketResolved"
  | KWinningsClaimed => "WinningsClaimed"
  | KAutoDepositExecuted => "AutoDepositExecuted"
  | KAutoWithdrawExecuted => "AutoWithdrawExecuted"
  | KOwnershipTransferred => "OwnershipTransferred"
  | KPaused => "Paused"
  | KProtocolRegistered => "ProtocolRegistered"
  | KProtocolUpdated => "ProtocolUpdated"
  | KUnpaused => "Unpaused"
  end.

(** The order in which [storeEntities] writes its eleven slices. *)
Definition kinds : list Kind :=
  [ KBetPlaced; KMarketCreated; KMarketResolved; KWinningsClaimed;
    KAutoDepositExecuted; KAutoWithdrawExecuted; KOwnershipTransferred;
    KPaused; KProtocolRegistered; KProtocolUpdated; KUnpaused ].

(** [config.Config], with the one field the loop reads. *)
Module Config.
Record t : Type := mk { BlockBatchSize : Z }.
End Config.

(** The database: the [sync_states] table keyed by [contract_address], and
    one table per entity kind keyed by [id]. *)
Record DB : Type := mkDB
  { sync_states : gmap string SyncState.t;
    tables : Kind -> gmap string Entity }.

(** What the outside world answers during one cycle of the loop.  A [Some]
    or [inr] carries the text of the error the call returned. *)
Record CycleEnv : Type := mkEnv
  { (* [ctx.Done()] or [Shutdown] is ready at the top of the iteration *)
    env_stop : bool;
    (* a failure of [db.Where(...).First(&state)] other than a missing row *)
    env_first : option string;
    (* [rpcClient.GetLatestBlockNumber] *)
    env_latest : Z + string;
    (* [rpcClient.GetLogs] for a range *)
    env_logs : Z -> Z -> list Log.t + string;
    (* [rpcClient.GetBlockWithTimestamp] while the i-th log of the batch is
       handled: the [Time] of the header, or [None] when the call fails *)
    env_header : nat -> Z -> option Z;
    (* [uint64(time.Now().Unix())] at that moment *)
    env_now : nat -> Z;
    (* the error of [Create] for the slice of one kind *)
    env_insert : Kind -> option string;
    (* the error of [db.Save(&state)] *)
    env_save : option string }.

Inductive CycleOutcome : Type :=
| Stopped
| CursorReadFailed (msg : string)
| HeightFailed (msg : string)
| Idle
| RangeFailed (fromBlock toBlock : Z) (msg : string)
| SaveFailed (fromBlock toBlock : Z) (msg : string)
| Advanced (fromBlock toBlock : Z)
| Crashed (fromBlock toBlock : Z) (msg : string).

(** The range a cycle handed to [processBlockRange], if it got that far. *)
Definition outcomeRange (out : CycleOutcome) : option (Z * Z) :=
  match out with
  | RangeFailed f t _ | SaveFailed f t _ | Advanced f t | Crashed f t _ =>
      Some (f, t)
  | _ => None
  end.

Section Indexer.
Variable unicode : string -> string -> bool.
Variables WhizyPredictionMarketContract ProtocolSelectorContract : Contract.t.

Definition unknownEvent (eventSig : Hash) (contractAddress : string)
  : string :=
  ("unknown event signature: " ++ Hash_Hex eventSig ++ " for contract "
   ++ contractAddress)%string.

Definition ParseLog (log : Log.t) (contractAddress : string)
    (blockTimestamp : Z) : result Entity :=
  match Log.Topics log with
  | [] => Err "log has no topics"
  | eventSig :: _ =>
      let txHash := Hash_Hex (Log.TxHash log) in
      let blockNumber : BigInt := Some (Log.BlockNumber log) in
      let blockTS : BigInt := Some blockTimestamp in
      let id := (txHash ++ "-" ++ decimal (Log.Index log))%string in
      let unknown := Err (unknownEvent eventSig contractAddress) in
      let selector :=
        if EqualFold unicode contractAddress
             (Contract.Address ProtocolSelectorContract)
        then
          if Hash_eqb eventSig AutoDepositExecutedSignature then
            rmap EAutoDepositExecuted
              (parseAutoDepositExecuted log id blockNumber blockTS txHash)
          else if Hash_eqb eventSig AutoWithdrawExecutedSignature then
            rmap EAutoWithdrawExecuted
              (parseAutoWithdrawExecuted log id blockNumber blockTS txHash)
          else if Hash_eqb eventSig OwnershipTransferredSignature then
            rmap EOwnershipTransferred
              (parseOwnershipTransferred log id blockNumber blockTS txHash)
          else if Hash_eqb eventSig PausedSignature then
            rmap EPaused (parsePaused log id blockNumber blockTS txHash)
          else if Hash_eqb eventSig ProtocolRegisteredSignature then
            rmap EProtocolRegistered
              (parseProtocolRegistered log id blockNumber blockTS txHash)
          else if Hash_eqb eventSig ProtocolUpdatedSignature then
            rmap EProtocolUpdated
              (parseProtocolUpdated log id blockNumber blockTS txHash)
          else if Hash_eqb eventSig UnpausedSignature then
            rmap EUnpaused (parseUnpaused log id blockNumber blockTS txHash)
          else unknown
        else unknown in
      if EqualFold unicode contractAddress
           (Contract.Address WhizyPredictionMarketContract)
      then
        if Hash_eqb eventSig BetPlacedSignature then
          rmap EBetPlaced (parseBetPlaced log id blockNumber blockTS txHash)
        else if Hash_eqb eventSig MarketCreatedSignature then
          rmap EMarketCreated
            (parseMarketCreated log id blockNumber blockTS txHash)
        else if Hash_eqb eventSig MarketResolvedSignature then
          rmap EMarketResolved
            (parseMarketResolved log id blockNumber blockTS txHash)
        else if Hash_eqb eventSig WinningsClaimedSignature then
          rmap EWinningsClaimed
            (parseWinningsClaimed log id blockNumber blockTS txHash)
        else selector
      else selector
  end.

(** *** [storeEntities] *)

(** The slice the type switch collects for one kind. *)
Definition sliceOf (k : Kind) (entities : list Entity) : list Entity :=
  List.filter (fun e => bool_decide (kindOf e = k)) entities.

(** [Create] under [clause.OnConflict{DoNothing: true}]: a row whose [id] is
    already in the table is skipped. *)
Definition createDoNothing (tbl : gmap string Entity) (batch : list Entity)
  : gmap string Entity :=
  fold_left
    (fun m e =>
       match m !! Entity_ID e with
       | Some _ => m
       | None => <[Entity_ID e := e]> m
       end)
    batch tbl.

(** The closure [insertSlice]; it is only ever called with the address of a
    slice, so its [nil] test never fires. *)
Definition insertSlice (env : CycleEnv) (k : Kind) (batch : list Entity)
    (db : DB) : DB * option string :=
  match env_insert env k with
  | Some err => (db, Some err)
  | None =>
      (mkDB (sync_states db)
            (fun k' => if bool_decide (k' = k)
                       then createDoNothing (tables db k) batch
                       else tables db k'),
       None)
  end.

(** The eleven [if len(slice) > 0 { ... }] blocks, in order; the first failing
    insert returns. *)
Fixpoint storeKinds (env : CycleEnv) (ks : list Kind)
    (entities : list Entity) (db : DB) : DB * option string :=
  match ks with
  | [] => (db, None)
  | k :: ks' =>
      let batch := sliceOf k entities in
      if 0 <? len batch then
        match insertSlice env k batch db with
        | (db', Some err) =>
            (db', Some ("failed to insert " ++ kindName k ++ ": " ++ err)%string)
        | (db', None) => storeKinds env ks' entities db'
        end
      else storeKinds env ks' entities db
  end.

Definition storeEntities (env : CycleEnv) (entities : list Entity) (db : DB)
  : DB * option string :=
  storeKinds env kinds entities db.

(** *** [processBlockRange] *)

(** The timestamp of the block of the i-th log: from the cache of the batch,
    or from the node (the wall clock when the node fails), and cached. *)
Definition resolveTimestamp (env : CycleEnv) (i : nat)
    (blockTimestamps : gmap Z Z) (blockNum : Z) : Z * gmap Z Z :=
  match blockTimestamps !! blockNum with
  | Some timestamp => (timestamp, blockTimestamps)
  | None =>
      let timestamp := match env_header env i blockNum with
                       | Some t => t
                       | None => env_now env i
                       end in
      (timestamp, <[blockNum := timestamp]> blockTimestamps)
  end.

(** The [for _, log := range logs] loop: [i] counts the logs handled so far,
    [blockTimestamps] is the cache of the batch. *)
Fixpoint decodeLogs (env : CycleEnv) (contractAddress : string) (i : nat)
    (blockTimestamps : gmap Z Z) (logs : list Log.t)
    (entities : list Entity) : result (list Entity) :=
  match logs with
  | [] => Ok entities
  | log :: rest =>
      let '(timestamp, blockTimestamps) :=
        resolveTimestamp env i blockTimestamps (Log.BlockNumber log) in
      match ParseLog log contractAddress timestamp with
      | Ok entity =>
          decodeLogs env contractAddress (S i) blockTimestamps rest
            (entities ++ [entity])
      | Err _ =>
          decodeLogs env contractAddress (S i) blockTimestamps rest entities
      | Panic m => Panic m
      end
  end.

Definition processBlockRange (env : CycleEnv) (contract : Contract.t)
    (fromBlock toBlock : Z) (db : DB) : DB * result unit :=
  match env_logs env fromBlock toBlock with
  | inr err => (db, Err ("failed to fetch logs: " ++ err)%string)
  | inl logs =>
      if len logs =? 0 then (db, Ok tt)
      else
        match decodeLogs env (Contract.Address contract) 0 ∅ logs [] with
        | Panic m => (db, Panic m)
        | Err m => (db, Err m)
        | Ok entities =>
            if len entities =? 0 then (db, Ok tt)
            else
              match storeEntities env entities db with
              | (db', Some err) => (db', Err err)
              | (db', None) => (db', Ok tt)
              end
        end
  end.

(** *** [indexContract] *)

(** Lines 68-77: the range of one cycle, [None] when the loop idles. *)
Definition nextRange (lastBlock batchSize latestBlock : Z) : option (Z * Z) :=
  if latestBlock <=? Uint64 lastBlock then None
  else
    let fromBlock := Uint64 (Uint64 lastBlock + 1) in
    let toBlock := Uint64 (Uint64 (fromBlock + Uint64 batchSize) - 1) in
    let toBlock := if latestBlock <? toBlock then latestBlock else toBlock in
    Some (fromBlock, toBlock).

(** One iteration of the [for] loop, after the [select]. *)
Definition cycle (cfg : Config.t) (contract : Contract.t) (env : CycleEnv)
    (db : DB) : DB * CycleOutcome :=
  match env_first env with
  | Some err => (db, CursorReadFailed err)
  | None =>
  match sync_states db !! Contract.Address contract with
  | None => (db, CursorReadFailed "record not found")
  | Some state =>
  match env_latest env with
  | inr err => (db, HeightFailed err)
  | inl latestBlock =>
  match nextRange (SyncState.LastBlock state) (Config.BlockBatchSize cfg)
          latestBlock with
  | None => (db, Idle)
  | Some (fromBlock, toBlock) =>
  match processBlockRange env contract fromBlock toBlock db with
  | (db', Panic m) => (db', Crashed fromBlock toBlock m)
  | (db', Err err) => (db', RangeFailed fromBlock toBlock err)
  | (db', Ok _) =>
      let state := SyncState.set_LastBlock (Int64 toBlock) state in
      match env_save env with
      | Some err => (db', SaveFailed fromBlock toBlock err)
      | None =>
          (mkDB (<[SyncState.ContractAddress state := state]> (sync_states db'))
                (tables db'),
           Advanced fromBlock toBlock)
      end
  end end end end end.

(** The loop: one environment per iteration; each entry of the trace is the
    outcome of a cycle and the database after it.  A panic ends the process. *)
Fixpoint indexContract (cfg : Config.t) (contract : Contract.t)
    (envs : list CycleEnv) (db : DB) : list (CycleOutcome * DB) :=
  match envs with
  | [] => []
  | env :: rest =>
      if env_stop env then [(Stopped, db)]
      else
        let '(db', out) := cycle cfg contract env db in
        match out with
        | Crashed _ _ _ => [(out, db')]
        | _ => (out, db') :: indexContract cfg contract rest db'
        end
  end.

(** The timestamps the loop of [processBlockRange] hands to [ParseLog], one
    per log of the batch. *)
Fixpoint batchTimestamps (env : CycleEnv) (i : nat)
    (blockTimestamps : gmap Z Z) (logs : list Log.t) : list Z :=
  match logs with
  | [] => []
  | log :: rest =>
      let '(timestamp, blockTimestamps) :=
        resolveTimestamp env i blockTimestamps (Log.BlockNumber log) in
      timestamp :: batchTimestamps env (S i) blockTimestamps rest
  end.

(** The entity of a log that decodes, nothing for a log that does not. *)
Definition decoded (contractAddress : string) (lt : Log.t * Z)
  : option Entity :=
  match ParseLog lt.1 contractAddress lt.2 with
  | Ok entity => Some entity
  | _ => None
  end.

Definition panics {A} (r : result A) : bool :=
  match r with
  | Panic _ => true
  | _ => false
  end.

(** The cursor of a contract: the [last_block] of its row. *)
Definition cursor (contract : Contract.t) (db : DB) : option Z :=
  SyncState.LastBlock <$> sync_states db !! Contract.Address contract.

End Indexer.

(** ** Fixtures *)

(** A 32-byte big-endian word. *)
Definition word (n : Z) : list byte := rev (Keccak.le_bytes 32 n).

(** An address-typed topic: twelve zero bytes and the address bytes. *)
Definition topicAA : Hash := repeat x00 12 ++ repeat xaa 20.

Definition txHash1 : Hash := word 0x1234.

Definition noUnicode (s t : string) : bool := false.

Definition whizy : Contract.t :=
  Contract.mk "WhizyPredictionMarket"
    "0x5FbDB2315678afecb367f032d93F642f64180aa3" 100.

Definition selector : Contract.t :=
  Contract.mk "ProtocolSelector"
    "0xe7f1725E7734CE288F8367e1Bb143E90bb3F0512" 100.

(** The BetPlaced log of the decode-correctness example, with [w0] as the
    first data word. *)
Definition betPlacedLog (w0 : list byte) : Log.t :=
  {| Log.Topics := [BetPlacedSignature; word 7; topicAA];
     Log.Data := w0 ++ word 100 ++ word 50;
     Log.BlockNumber := 120;
     Log.TxHash := txHash1;
     Log.Index := 3 |}.

(** A log with nothing but its signature topic. *)
Definition bareLog (sig : Hash) : Log.t :=
  {| Log.Topics := [sig];
     Log.Data := [];
     Log.BlockNumber := 120;
     Log.TxHash := txHash1;
     Log.Index := 0 |}.

(** The lower-case rendering of the address of [topicAA]. *)
Definition lowercaseAA : string :=
  "0xaaaaaaaaaaaaaaaaaaaaaaaaaaaaaaaaaaaaaaaa".

(** Its EIP-55 rendering, which [common.Address.Hex] returns. *)
Definition checksumAA : string :=
  "0xaAaAaAaaAaAaAaaAaAAAAAAAAaaaAaAaAaaAaaAa".

(** A MarketCreated log whose offset word is 2^64 - 32: adding 32 wraps
    around to 0 in [uint64]. *)
Definition wrappingOffsetLog : Log.t :=
  {| Log.Topics := [MarketCreatedSignature; word 1];
     Log.Data := word (2 ^ 64 - 32) ++ word 1700000000 ++ word 0 ++ word 0;
     Log.BlockNumber := 120;
     Log.TxHash := txHash1;
     Log.Index := 1 |}.

(** A MarketCreated log whose offset word is 2^64 + 128, far past the end of
    its 161 bytes of data; the low 64 bits of the word are 128, where a
    length word 1 and the byte "A" sit. *)
Definition truncatedOffsetLog : Log.t :=
  {| Log.Topics := [MarketCreatedSignature; word 1];
     Log.Data := word (2 ^ 64 + 128) ++ word 1700000000 ++ word 0 ++ word 0
                 ++ word 1 ++ [x41];
     Log.BlockNumber := 120;
     Log.TxHash := txHash1;
     Log.Index := 2 |}.

(** The address of [whizy] in lower case. *)
Definition whizyLower : string :=
  "0x5fbdb2315678afecb367f032d93f642f64180aa3".

(** A run of the loop for [whizy]: batch size 1000, cursor at block 100. *)
Definition cfg1 : Config.t := Config.mk 1000.

Definition state0 : SyncState.t :=
  SyncState.mk (Contract.Address whizy) "WhizyPredictionMarket" 100 "".

Definition db0 : DB :=
  mkDB {[ Contract.Address whizy := state0 ]} (fun _ => ∅).

(** A batch of three logs: one whose topic0 is unknown, the BetPlaced
    example, and one with no topics at all. *)
Definition batch1 : list Log.t :=
  [ bareLog (word 0);
    betPlacedLog (word 1);
    {| Log.Topics := []; Log.Data := []; Log.BlockNumber := 121;
       Log.TxHash := txHash1; Log.Index := 4 |} ].

(** The chain is at height 150, every call succeeds. *)
Definition envOk : CycleEnv :=
  {| env_stop := false;
     env_first := None;
     env_latest := inl 150;
     env_logs := fun _ _ => inl batch1;
     env_header := fun _ _ => Some 1700000000;
     env_now := fun _ => 1700000099;
     env_insert := fun _ => None;
     env_save := None |}.

(** The same, but the insert of the BetPlaced slice fails. *)
Definition envInsertFails : CycleEnv :=
  {| env_stop := false;
     env_first := None;
     env_latest := inl 150;
     env_logs := fun _ _ => inl batch1;
     env_header := fun _ _ => Some 1700000000;
     env_now := fun _ => 1700000099;
     env_insert := fun k => match k with
                            | KBetPlaced => Some "connection reset"
                            | _ => None
                            end;
     env_save := None |}.

(** The chain has grown to height 2000. *)
Definition envLater : CycleEnv :=
  {| env_stop := false;
     env_first := None;
     env_latest := inl 2000;
     env_logs := fun _ _ => inl [];
     env_header := fun _ _ => None;
     env_now := fun _ => 1700000199;
     env_insert := fun _ => None;
     env_save := None |}.

(** The entity of the BetPlaced example as [ParseLog] returns it. *)
Definition betPlacedEntity : BetPlaced.t :=
  {| BetPlaced.ID :=
       "0x0000000000000000000000000000000000000000000000000000000000001234-3";
     BetPlaced.MarketID := Some 7;
     BetPlaced.User := checksumAA;
     BetPlaced.Position := true;
     BetPlaced.Amount := Some 100;
     BetPlaced.Shares := Some 50;
     BetPlaced.BlockNumber := Some 120;
     BetPlaced.BlockTimestamp := Some 1700000000;
     BetPlaced.TransactionHash :=
       "0x0000000000000000000000000000000000000000000000000000000000001234" |}.

From Stdlib Require DecimalPos.

(** ** The catalog as a table *)

(** The signature each [case] of [ParseLog] compares topic0 with. *)
Definition signatureOf (k : Kind) : Hash :=
  match k with
  | KBetPlaced => BetPlacedSignature
  | KMarketCreated => MarketCreatedSignature
  | KMarketResolved => MarketResolvedSignature
  | KWinningsClaimed => WinningsClaimedSignature
  | KAutoDepositExecuted => AutoDepositExecutedSignature
  | KAutoWithdrawExecuted => AutoWithdrawExecutedSignature
  | KOwnershipTransferred => OwnershipTransferredSignature
  | KPaused => PausedSignature
  | KProtocolRegistered => ProtocolRegisteredSignature
  | KProtocolUpdated => ProtocolUpdatedSignature
  | KUnpaused => UnpausedSignature
  end.

(** The kinds of the first [switch] (the prediction-market contract). *)
Definition isMarketKind (k : Kind) : bool :=
  match k with
  | KBetPlaced | KMarketCreated | KMarketResolved | KWinningsClaimed => true
  | _ => false
  end.

(** The decoder [ParseLog] calls for a kind, with its result boxed. *)
Definition decodeAs (k : Kind) (log : Log.t) (id : string)
    (blockNumber blockTimestamp : BigInt) (txHash : string) : result Entity :=
  match k with
  | KBetPlaced =>
      rmap EBetPlaced (parseBetPlaced log id blockNumber blockTimestamp txHash)
  | KMarketCreated =>
      rmap EMarketCreated
        (parseMarketCreated log id blockNumber blockTimestamp txHash)
  | KMarketResolved =>
      rmap EMarketResolved
        (parseMarketResolved log id blockNumber blockTimestamp txHash)
  | KWinningsClaimed =>
      rmap EWinningsClaimed
        (parseWinningsClaimed log id blockNumber blockTimestamp txHash)
  | KAutoDepositExecuted =>
      rmap EAutoDepositExecuted
        (parseAutoDepositExecuted log id blockNumber blockTimestamp txHash)
  | KAutoWithdrawExecuted =>
      rmap EAutoWithdrawExecuted
        (parseAutoWithdrawExecuted log id blockNumber blockTimestamp txHash)
  | KOwnershipTransferred =>
      rmap EOwnershipTransferred
        (parseOwnershipTransferred log id blockNumber blockTimestamp txHash)
  | KPaused =>
      rmap EPaused (parsePaused log id blockNumber blockTimestamp txHash)
  | KProtocolRegistered =>
      rmap EProtocolRegistered
        (parseProtocolRegistered log id blockNumber blockTimestamp txHash)
  | KProtocolUpdated =>
      rmap EProtocolUpdated
        (parseProtocolUpdated log id blockNumber blockTimestamp txHash)
  | KUnpaused =>
      rmap EUnpaused (parseUnpaused log id blockNumber blockTimestamp txHash)
  end.

(** The topics a decoder insists on, topic0 included. *)
Definition minTopics (k : Kind) : Z :=
  match k with
  | KPaused | KUnpaused => 0
  | KMarketCreated | KMarketResolved | KProtocolUpdated => 2
  | _ => 3
  end.

(** The two decoders that read a dynamic string. *)
Definition isDynamicKind (k : Kind) : bool :=
  match k with
  | KMarketCreated | KProtocolRegistered => true
  | _ => false
  end.

(** The columns every entity table shares. *)
Definition Entity_BlockNumber (x : Entity) : BigInt :=
  match x with
  | EBetPlaced e => BetPlaced.BlockNumber e
  | EMarketCreated e => MarketCreated.BlockNumber e
  | EMarketResolved e => MarketResolved.BlockNumber e
  | EWinningsClaimed e => WinningsClaimed.BlockNumber e
  | EAutoDepositExecuted e => AutoDepositExecuted.BlockNumber e
  | EAutoWithdrawExecuted e => AutoWithdrawExecuted.BlockNumber e
  | EOwnershipTransferred e => OwnershipTransferred.BlockNumber e
  | EPaused e => Paused.BlockNumber e
  | EProtocolRegistered e => ProtocolRegistered.BlockNumber e
  | EProtocolUpdated e => ProtocolUpdated.BlockNumber e
  | EUnpaused e => Unpaused.BlockNumber e
  end.

Definition Entity_BlockTimestamp (x : Entity) : BigInt :=
  match x with
  | EBetPlaced e => BetPlaced.BlockTimestamp e
  | EMarketCreated e => MarketCreated.BlockTimestamp e
  | EMarketResolved e => MarketResolved.BlockTimestamp e
  | EWinningsClaimed e => WinningsClaimed.BlockTimestamp e
  | EAutoDepositExecuted e => AutoDepositExecuted.BlockTimestamp e
  | EAutoWithdrawExecuted e => AutoWithdrawExecuted.BlockTimestamp e
  | EOwnershipTransferred e => OwnershipTransferred.BlockTimestamp e
  | EPaused e => Paused.BlockTimestamp e
  | EProtocolRegistered e => ProtocolRegistered.BlockTimestamp e
  | EProtocolUpdated e => ProtocolUpdated.BlockTimestamp e
  | EUnpaused e => Unpaused.BlockTimestamp e
  end.

Definition Entity_TransactionHash (x : Entity) : string :=
  match x with
  | EBetPlaced e => BetPlaced.TransactionHash e
  | EMarketCreated e => MarketCreated.TransactionHash e
  | EMarketResolved e => MarketResolved.TransactionHash e
  | EWinningsClaimed e => WinningsClaimed.TransactionHash e
  | EAutoDepositExecuted e => AutoDepositExecuted.TransactionHash e
  | EAutoWithdrawExecuted e => AutoWithdrawExecuted.TransactionHash e
  | EOwnershipTransferred e => OwnershipTransferred.TransactionHash e
  | EPaused e => Paused.TransactionHash e
  | EProtocolRegistered e => ProtocolRegistered.TransactionHash e
  | EProtocolUpdated e => ProtocolUpdated.TransactionHash e
  | EUnpaused e => Unpaused.TransactionHash e
  end.

(** The quantities an entity takes from the data of its log. *)
Definition Entity_quantities (x : Entity) : list BigInt :=
  match x with
  | EBetPlaced e => [BetPlaced.Amount e; BetPlaced.Shares e]
  | EMarketCreated e => [MarketCreated.EndTime e]
  | EWinningsClaimed e => [WinningsClaimed.WinningAmount e]
  | EAutoDepositExecuted e => [AutoDepositExecuted.Amount e]
  | EAutoWithdrawExecuted e => [AutoWithdrawExecuted.Amount e]
  | EProtocolUpdated e => [ProtocolUpdated.NewApy e; ProtocolUpdated.NewTvl e]
  | _ => []
  end.

(** The address columns of an entity. *)
Definition Entity_addresses (x : Entity) : list string :=
  match x with
  | EBetPlaced e => [BetPlaced.User e]
  | EMarketCreated e =>
      [MarketCreated.TokenAddress e; MarketCreated.VaultAddress e]
  | EMarketResolved _ => []
  | EWinningsClaimed e => [WinningsClaimed.User e]
  | EAutoDepositExecuted e =>
      [AutoDepositExecuted.User e; AutoDepositExecuted.Protocol e]
  | EAutoWithdrawExecuted e =>
      [AutoWithdrawExecuted.User e; AutoWithdrawExecuted.Protocol e]
  | EOwnershipTransferred e =>
      [OwnershipTransferred.PreviousOwner e; OwnershipTransferred.NewOwner e]
  | EPaused e => [Paused.Account e]
  | EProtocolRegistered e => [ProtocolRegistered.ProtocolAddress e]
  | EProtocolUpdated e => [ProtocolUpdated.ProtocolAddress e]
  | EUnpaused e => [Unpaused.Account e]
  end.

(** ** The ABI encoding the contracts emit

    What the Solidity encoder produces for the non-indexed arguments of an
    event: a 32-byte word per static argument (an address in its low 20
    bytes), and for a string an offset word in its static position, then at
    that offset a length word and the bytes, padded with zeros to a multiple
    of 32. *)

Definition addressWord (a : Address) : list byte := repeat x00 12 ++ a.

Definition padding (n : nat) : list byte :=
  repeat x00 ((32 - n mod 32) mod 32).

Definition abiString (s : list byte) : list byte :=
  word (len s) ++ s ++ padding (length s).

(** The data of [MarketCreated(uint256 indexed, string, uint256, address,
    address)]. *)
Definition marketCreatedData (question : list byte) (endTime : Z)
    (token vault : Address) : list byte :=
  word 128 ++ word endTime ++ addressWord token ++ addressWord vault
  ++ abiString question.

(** The data of [ProtocolRegistered(uint8 indexed, address indexed, string,
    uint8)]. *)
Definition protocolRegisteredData (name : list byte) (riskLevel : Z)
  : list byte :=
  word 64 ++ word riskLevel ++ abiString name.

(** Strings of the digits 0-9 and a-f. *)
Definition isLowerHexDigit (c : ascii) : bool :=
  ((48 <=? code c) && (code c <=? 57)) || ((97 <=? code c) && (code c <=? 102)).

Fixpoint isLowerHex (s : string) : bool :=
  match s with
  | EmptyString => true
  | String c r => isLowerHexDigit c && isLowerHex r
  end.

(** A rendered address: 42 characters that are, up to the case of the
    letters, "0x" and the 40 hexadecimal digits of 20 bytes. *)
Definition isAddressString (s : string) : Prop :=
  String.length s = 42%nat
  /\ exists a : Address,
       len a = 20 /\ sameASCIIFold s ("0x" ++ hexenc a) = true.

(** ** [config/db.go]: seeding the cursors, and [BigInt] as a column *)

(** What the database answers while [EnsureInitialSyncStateData] handles the
    i-th contract: the error of [First] when it is not "record not found",
    and the error of [Create]. *)
Record SeedEnv : Type := mkSeedEnv
  { seed_first : nat -> option string;
    seed_create : nat -> option string }.

(** The body of the [for _, contract := range Contracts] loop. *)
Definition seedContract (env : SeedEnv) (i : nat) (contract : Contract.t)
    (db : DB) : DB :=
  match seed_first env i with
  | Some _ => db
  | None =>
      match sync_states db !! Contract.Address contract with
      | Some _ => db
      | None =>
          let data :=
            {| SyncState.ContractAddress := Contract.Address contract;
               SyncState.ContractName := Contract.Name contract;
               SyncState.LastBlock := Contract.StartBlock contract;
               SyncState.LastBlockHash := "" |} in
          match seed_create env i with
          | Some _ => db
          | None =>
              mkDB (<[SyncState.ContractAddress data := data]> (sync_states db))
                   (tables db)
          end
      end
  end.

Fixpoint seedContracts (env : SeedEnv) (i : nat) (contracts : list Contract.t)
    (db : DB) : DB :=
  match contracts with
  | [] => db
  | contract :: rest =>
      seedContracts env (S i) rest (seedContract env i contract db)
  end.

(** [Contracts] is the package variable [config.Contracts]. *)
Definition EnsureInitialSyncStateData (env : SeedEnv)
    (Contracts : list Contract.t) (db : DB) : DB :=
  if len Contracts =? 0 then db else seedContracts env 0 Contracts db.

(** Every row of [sync_states] is stored under its own address. *)
Definition keyedByAddress (db : DB) : Prop :=
  forall addr state,
    sync_states db !! addr = Some state ->
    SyncState.ContractAddress state = addr.

(** [driver.Value]: what the database driver hands to [Scan] and accepts
    from [Value]. *)
Inductive DriverValue : Type :=
| VNil
| VInt64 (n : Z)
| VFloat64
| VBool (b : bool)
| VBytes (b : list byte)
| VString (s : string)
| VTime.

(** The [%T] of a driver value. *)
Definition driverTypeName (v : DriverValue) : string :=
  match v with
  | VNil => "<nil>"
  | VInt64 _ => "int64"
  | VFloat64 => "float64"
  | VBool _ => "bool"
  | VBytes _ => "[]uint8"
  | VString _ => "string"
  | VTime => "time.Time"
  end.

(** The mantissa of [SetString(s, 10)]: decimal digits to the end of the
    string. *)
Fixpoint scanDigits (s : string) (acc : Z) : option Z :=
  match s with
  | EmptyString => Some acc
  | String c r =>
      let d := code c - 48 in
      if (0 <=? d) && (d <? 10) then scanDigits r (acc * 10 + d) else None
  end.

(** [new(big.Int).SetString(s, 10)]: an optional sign, at least one digit,
    and nothing else. *)
Definition SetString10 (s : string) : option Z :=
  let '(neg, rest) :=
    match s with
    | String c r =>
        if Ascii.eqb c "-" then (true, r)
        else if Ascii.eqb c "+" then (false, r)
        else (false, s)
    | EmptyString => (false, s)
    end in
  match rest with
  | EmptyString => None
  | _ =>
      match scanDigits rest 0 with
      | Some n => Some (if neg then - n else n)
      | None => None
      end
  end.

(** [BigInt.Value]; [b.String()] is the decimal rendering. *)
Definition BigInt_Value (b : BigInt) : DriverValue :=
  match b with
  | None => VString "0"
  | Some n => VString (decimal n)
  end.

(** [BigInt.Scan]: the new value of the receiver and the error. *)
Definition BigInt_Scan (value : DriverValue) (b : BigInt)
  : BigInt * option string :=
  match value with
  | VNil => (Some 0, None)
  | VBytes v =>
      let s := string_of_list_byte v in
      match SetString10 s with
      | Some i => (Some i, None)
      | None => (b, Some ("cannot convert " ++ s ++ " to big.Int")%string)
      end
  | VString v =>
      match SetString10 v with
      | Some i => (Some i, None)
      | None => (b, Some ("cannot convert " ++ v ++ " to big.Int")%string)
      end
  | _ => (b, Some ("unsupported type: " ++ driverTypeName value)%string)
  end.

(** ** [LoadNetworks] (the configuration file of the contracts) *)

(** One entry of the networks file: [{"address": ..., "startBlock": ...}]. *)
Module NetworkEntry.
Record t : Type := mk
  { Address : string;
    StartBlock : Z }.
End NetworkEntry.

(** The package variables [LoadNetworks] assigns. *)
Module Globals.
Record t : Type := mk
  { WhizyPredictionMarketContract : Contract.t;
    ProtocolSelectorContract : Contract.t;
    RebalancerDelegationContract : Contract.t;
    Contracts : list Contract.t }.

(** The package variable the [switch name] assigns for a name. *)
Definition named (name : string) (g : t) : option Contract.t :=
  if String.eqb name "WhizyPredictionMarket"
  then Some (WhizyPredictionMarketContract g)
  else if String.eqb name "ProtocolSelector"
  then Some (ProtocolSelectorContract g)
  else if String.eqb name "RebalancerDelegation"
  then Some (RebalancerDelegationContract g)
  else None.
End Globals.

(** What [os.ReadFile] and [json.Unmarshal] make of the networks file.  A
    parsed file maps a network name to its contracts; the contracts of one
    network are listed in the order in which the [range] over that (Go) map
    visits them, each name once. *)
Inductive NetworksFile : Type :=
| Unreadable (err : string)
| Unparsable (err : string)
| Parsed (networks : gmap string (list (string * NetworkEntry.t))).

Definition contractOfEntry (item : string * NetworkEntry.t) : Contract.t :=
  {| Contract.Name := item.1;
     Contract.Address := NetworkEntry.Address item.2;
     Contract.StartBlock := NetworkEntry.StartBlock item.2 |}.

(** The body of [for name, config := range networkContracts]. *)
Definition loadContract (g : Globals.t) (item : string * NetworkEntry.t)
  : Globals.t :=
  let name := item.1 in
  let contract := contractOfEntry item in
  let g :=
    if String.eqb name "WhizyPredictionMarket" then
      Globals.mk contract (Globals.ProtocolSelectorContract g)
        (Globals.RebalancerDelegationContract g) (Globals.Contracts g)
    else if String.eqb name "ProtocolSelector" then
      Globals.mk (Globals.WhizyPredictionMarketContract g) contract
        (Globals.RebalancerDelegationContract g) (Globals.Contracts g)
    else if String.eqb name "RebalancerDelegation" then
      Globals.mk (Globals.WhizyPredictionMarketContract g)
        (Globals.ProtocolSelectorContract g) contract (Globals.Contracts g)
    else g in
  Globals.mk (Globals.WhizyPredictionMarketContract g)
    (Globals.ProtocolSelectorContract g)
    (Globals.RebalancerDelegationContract g)
    (Globals.Contracts g ++ [contract]).

Definition LoadNetworks (file : NetworksFile) (network : string)
    (g : Globals.t) : Globals.t * option string :=
  match file with
  | Unreadable err =>
      (g, Some ("failed to read networks file: " ++ err)%string)
  | Unparsable err =>
      (g, Some ("failed to parse networks file: " ++ err)%string)
  | Parsed networks =>
      match networks !! network with
      | None =>
          (g, Some ("network " ++ network ++ " not found in networks file")%string)
      | Some networkContracts =>
          let g :=
            Globals.mk (Globals.WhizyPredictionMarketContract g)
              (Globals.ProtocolSelectorContract g)
              (Globals.RebalancerDelegationContract g) [] in
          let g := fold_left loadContract networkContracts g in
          if len (Globals.Contracts g) =? 0
          then (g, Some ("no contracts found for network " ++ network)%string)
          else (g, None)
      end
  end.

(** ** Further fixtures *)

(** A MarketCreated log as the contract emits it. *)
Definition marketCreatedLog : Log.t :=
  {| Log.Topics := [MarketCreatedSignature; word 9];
     Log.Data :=
       marketCreatedData (list_byte_of_string "Will it rain?") 1700000000
         (repeat xaa 20) (repeat xbb 20);
     Log.BlockNumber := 120;
     Log.TxHash := txHash1;
     Log.Index := 5 |}.

(** A ProtocolRegistered log as the contract emits it. *)
Definition protocolRegisteredLog : Log.t :=
  {| Log.Topics := [ProtocolRegisteredSignature; word 1; topicAA];
     Log.Data := protocolRegisteredData (list_byte_of_string "Aave") 3;
     Log.BlockNumber := 120;
     Log.TxHash := txHash1;
     Log.Index := 6 |}.

(** The database after one cycle from [db0] with the chain at 2000. *)
Definition dbAfterLater : DB :=
  (cycle noUnicode whizy selector cfg1 whizy envLater db0).1.

(** A database that answers every query of the seeding without error. *)
Definition seedOk : SeedEnv :=
  {| seed_first := fun _ => None; seed_create := fun _ => None |}.

(** A networks file with one network, listing the two contracts. *)
Definition items1 : list (string * NetworkEntry.t) :=
  [ ("WhizyPredictionMarket",
     NetworkEntry.mk (Contract.Address whizy) (Contract.StartBlock whizy));
    ("ProtocolSelector",
     NetworkEntry.mk (Contract.Address selector)
       (Contract.StartBlock selector)) ].

Definition networks1 : gmap string (list (string * NetworkEntry.t)) :=
  {[ "testnet" := items1 ]}.

(** The package variables before [LoadNetworks] has run. *)
Definition globals0 : Globals.t :=
  Globals.mk (Contract.mk "" "" 0) (Contract.mk "" "" 0)
    (Contract.mk "" "" 0) [].

(** * Properties *)

(** ** Known answers for the hash and the address rendering *)

Example Keccak256_empty :
  hexenc (Keccak.Keccak256 [])
  = "c5d2460186f7233c927e7db2dcc703c0e500b653ca82273b7bfad8045d85a470".
Proof. vm_compute. reflexivity. Qed.

Example Keccak256_Transfer :
  Hash_Hex (Keccak256Hash "Transfer(address,address,uint256)")
  = "0xddf252ad1be2c89b69c2b068fc378daa952ba7f163c4a11628f55a4df523b3ef".
Proof. vm_compute. reflexivity. Qed.

Example Address_Hex_EIP55 :
  Address_Hex
    (BytesToAddress
       (map byte_of_Z
          [0x5a; 0xae; 0xb6; 0x05; 0x3f; 0x3e; 0x94; 0xc9; 0xb9; 0xa0;
           0x9f; 0x33; 0x66; 0x94; 0x35; 0xe7; 0xef; 0x1b; 0xea; 0xed]))
  = "0x5aAeb6053F3E94C9b9A09f33669435E7Ef1BeAed".
Proof. vm_compute. reflexivity. Qed.

Example BytesToAddress_topic :
  BytesToAddress topicAA = repeat xaa 20.
Proof. vm_compute. reflexivity. Qed.

(** ** Slices and indices that cannot panic *)

Lemma slice_in_range (s : list byte) (lo hi : Z) :
  0 <= lo -> lo <= hi -> hi <= len s ->
  slice s lo hi = Ok (firstn (Z.to_nat (hi - lo)) (skipn (Z.to_nat lo) s)).
Proof.
  intros H0 H1 H2. unfold slice.
  destruct (0 <=? lo) eqn:E0; [|lia].
  destruct (lo <=? hi) eqn:E1; [|lia].
  destruct (hi <=? len s) eqn:E2; [|lia].
  reflexivity.
Qed.

Lemma slice_reversed (s : list byte) (lo hi : Z) :
  hi < lo -> slice s lo hi = Panic "slice bounds out of range".
Proof.
  intros H. unfold slice.
  destruct (lo <=? hi) eqn:E1; [lia|].
  rewrite andb_false_r. reflexivity.
Qed.

Lemma index_in_range {A} (s : list A) (i : nat) :
  Z.of_nat i < len s -> exists a, index s i = Ok a /\ nth_error s i = Some a.
Proof.
  intros H. unfold index, len in *.
  destruct (nth_error s i) as [a|] eqn:E.
  - exists a. split; reflexivity.
  - apply nth_error_None in E. lia.
Qed.

(** Case analysis on the guards and the binds of a decoder. *)
Ltac decoder_cases H :=
  repeat first
    [ discriminate H
    | match type of H with
      | context [if ?b then _ else _] => destruct b eqn:?
      | context [bind ?r _] => destruct r eqn:?; cbn [bind] in H
      end ].

Ltac decoder_id :=
  let H := fresh "H" in
  intros H;
  match type of H with
  | ?f _ _ _ _ _ = _ => unfold f in H
  end;
  decoder_cases H; inversion H; subst; reflexivity.

Section DecoderIdentifiers.
Variables (log : Log.t) (id : string) (bn ts : BigInt) (tx : string).

Lemma parseBetPlaced_ID e :
  parseBetPlaced log id bn ts tx = Ok e -> BetPlaced.ID e = id.
Proof. decoder_id. Qed.

Lemma parseMarketCreated_ID e :
  parseMarketCreated log id bn ts tx = Ok e -> MarketCreated.ID e = id.
Proof. decoder_id. Qed.

Lemma parseMarketResolved_ID e :
  parseMarketResolved log id bn ts tx = Ok e -> MarketResolved.ID e = id.
Proof. decoder_id. Qed.

Lemma parseWinningsClaimed_ID e :
  parseWinningsClaimed log id bn ts tx = Ok e -> WinningsClaimed.ID e = id.
Proof. decoder_id. Qed.

Lemma parseAutoDepositExecuted_ID e :
  parseAutoDepositExecuted log id bn ts tx = Ok e ->
  AutoDepositExecuted.ID e = id.
Proof. decoder_id. Qed.

Lemma parseAutoWithdrawExecuted_ID e :
  parseAutoWithdrawExecuted log id bn ts tx = Ok e ->
  AutoWithdrawExecuted.ID e = id.
Proof. decoder_id. Qed.

Lemma parseOwnershipTransferred_ID e :
  parseOwnershipTransferred log id bn ts tx = Ok e ->
  OwnershipTransferred.ID e = id.
Proof. decoder_id. Qed.

Lemma parsePaused_ID e :
  parsePaused log id bn ts tx = Ok e -> Paused.ID e = id.
Proof. decoder_id. Qed.

Lemma parseProtocolRegistered_ID e :
  parseProtocolRegistered log id bn ts tx = Ok e ->
  ProtocolRegistered.ID e = id.
Proof. decoder_id. Qed.

Lemma parseProtocolUpdated_ID e :
  parseProtocolUpdated log id bn ts tx = Ok e -> ProtocolUpdated.ID e = id.
Proof. decoder_id. Qed.

Lemma parseUnpaused_ID e :
  parseUnpaused log id bn ts tx = Ok e -> Unpaused.ID e = id.
Proof. decoder_id. Qed.

End DecoderIdentifiers.

(** ** The identifier of a decoded entity *)

Section ParseLogProperties.
Variable unicode : string -> string -> bool.
Variables WhizyPredictionMarketContract ProtocolSelectorContract : Contract.t.

Local Abbreviation parseLog :=
  (ParseLog unicode WhizyPredictionMarketContract ProtocolSelectorContract).

Lemma rmap_Ok {A B} (f : A -> B) (r : result A) (b : B) :
  rmap f r = Ok b -> exists a, r = Ok a /\ b = f a.
Proof.
  unfold rmap. destruct r as [a|m|m]; cbn [bind]; intros H;
    [inversion H; eauto | discriminate | discriminate].
Qed.

(** C8. Whatever the event kind, the entity a successful [ParseLog] returns
    has the identifier [{transactionHash}-{logIndex}]: the hexadecimal
    transaction hash, a hyphen, and the log index in decimal. *)
Theorem ParseLog_identifier (log : Log.t) (addr : string) (ts : Z)
    (e : Entity) :
  parseLog log addr ts = Ok e ->
  Entity_ID e
  = (Hash_Hex (Log.TxHash log) ++ "-" ++ decimal (Log.Index log))%string.
Proof.
  unfold ParseLog. intros H.
  destruct (Log.Topics log) as [|eventSig topics]; [discriminate|].
  cbv zeta in H.
  repeat match type of H with
         | context [if ?b then _ else _] => destruct b
         end;
    try discriminate H;
    apply rmap_Ok in H; destruct H as (x & Hx & ->); cbn [Entity_ID];
    eauto using parseBetPlaced_ID, parseMarketCreated_ID,
      parseMarketResolved_ID, parseWinningsClaimed_ID,
      parseAutoDepositExecuted_ID, parseAutoWithdrawExecuted_ID,
      parseOwnershipTransferred_ID, parsePaused_ID,
      parseProtocolRegistered_ID, parseProtocolUpdated_ID, parseUnpaused_ID.
Qed.

(** ** Insufficient topics *)

Lemma Hash_eqb_refl (h : Hash) : Hash_eqb h h = true.
Proof. unfold Hash_eqb. apply bool_decide_eq_true. reflexivity. Qed.

Lemma Hash_eqb_neq (h h' : Hash) : h <> h' -> Hash_eqb h h' = false.
Proof. unfold Hash_eqb. apply bool_decide_eq_false. Qed.

(** C5. A log handed to the BetPlaced decoder with fewer than three topics
    is rejected with the error "insufficient topics for BetPlaced": the
    result is an error, so no entity (whole or partial) is returned and
    nothing panics.  The same holds through [ParseLog] for a log of the
    prediction-market contract whose topic0 is the BetPlaced signature. *)
Theorem BetPlaced_insufficient_topics (log : Log.t) (addr : string) (ts : Z)
    (id : string) (bn bts : BigInt) (tx : string) :
  len (Log.Topics log) < 3 ->
  parseBetPlaced log id bn bts tx = Err "insufficient topics for BetPlaced"
  /\ (EqualFold unicode addr (Contract.Address WhizyPredictionMarketContract)
      = true ->
      nth_error (Log.Topics log) 0 = Some BetPlacedSignature ->
      parseLog log addr ts = Err "insufficient topics for BetPlaced").
Proof.
  intros Hlen.
  assert (Hdec : forall id bn bts tx,
             parseBetPlaced log id bn bts tx
             = Err "insufficient topics for BetPlaced").
  { intros. unfold parseBetPlaced.
    destruct (len (Log.Topics log) <? 3) eqn:E; [reflexivity|lia]. }
  split; [apply Hdec|].
  intros Hfold Hsig. unfold ParseLog.
  destruct (Log.Topics log) as [|eventSig topics] eqn:Et; [discriminate|].
  cbn in Hsig. inversion Hsig; subst eventSig.
  cbv zeta. rewrite Hfold, Hash_eqb_refl, Hdec. reflexivity.
Qed.

(** ** The Paused and Unpaused decoders *)

(** C10. [parsePaused] and [parseUnpaused] return an entity and no error
    for every log, whatever its topics and data: the Account is empty when
    the data is shorter than 32 bytes and the address of the first word
    otherwise.  Each of the other nine decoders rejects a log that has no
    topic beyond topic0 with its "insufficient topics" error. *)
Theorem Paused_Unpaused_total (log : Log.t) (id : string) (bn ts : BigInt)
    (tx : string) :
  (exists e, parsePaused log id bn ts tx = Ok e
     /\ e = Paused.mk id
              (if len (Log.Data log) <? 32 then ""
               else Address_Hex (BytesToAddress (firstn 32 (Log.Data log))))
              bn ts tx)
  /\ (exists e, parseUnpaused log id bn ts tx = Ok e
     /\ e = Unpaused.mk id
              (if len (Log.Data log) <? 32 then ""
               else Address_Hex (BytesToAddress (firstn 32 (Log.Data log))))
              bn ts tx)
  /\ (len (Log.Topics log) < 2 ->
      parseBetPlaced log id bn ts tx = Err "insufficient topics for BetPlaced"
      /\ parseMarketCreated log id bn ts tx
         = Err "insufficient topics for MarketCreated"
      /\ parseMarketResolved log id bn ts tx
         = Err "insufficient topics for MarketResolved"
      /\ parseWinningsClaimed log id bn ts tx
         = Err "insufficient topics for WinningsClaimed"
      /\ parseAutoDepositExecuted log id bn ts tx
         = Err "insufficient topics for AutoDepositExecuted"
      /\ parseAutoWithdrawExecuted log id bn ts tx
         = Err "insufficient topics for AutoWithdrawExecuted"
      /\ parseOwnershipTransferred log id bn ts tx
         = Err "insufficient topics for OwnershipTransferred"
      /\ parseProtocolRegistered log id bn ts tx
         = Err "insufficient topics for ProtocolRegistered"
      /\ parseProtocolUpdated log id bn ts tx
         = Err "insufficient topics for ProtocolUpdated").
Proof.
  split; [|split].
  - unfold parsePaused.
    destruct (32 <=? len (Log.Data log)) eqn:E.
    + rewrite slice_in_range by lia. cbn [bind].
      destruct (len (Log.Data log) <? 32) eqn:E'; [lia|].
      eexists; split; reflexivity.
    + destruct (len (Log.Data log) <? 32) eqn:E'; [|lia].
      eexists; split; reflexivity.
  - unfold parseUnpaused.
    destruct (32 <=? len (Log.Data log)) eqn:E.
    + rewrite slice_in_range by lia. cbn [bind].
      destruct (len (Log.Data log) <? 32) eqn:E'; [lia|].
      eexists; split; reflexivity.
    + destruct (len (Log.Data log) <? 32) eqn:E'; [|lia].
      eexists; split; reflexivity.
  - intros Hlen.
    unfold parseBetPlaced, parseMarketCreated, parseMarketResolved,
      parseWinningsClaimed, parseAutoDepositExecuted,
      parseAutoWithdrawExecuted, parseOwnershipTransferred,
      parseProtocolRegistered, parseProtocolUpdated.
    destruct (len (Log.Topics log) <? 3) eqn:E3; [|lia].
    destruct (len (Log.Topics log) <? 2) eqn:E2; [|lia].
    repeat split.
Qed.

(** ** Unknown events *)

Lemma Hash_eqb_not_in (h : Hash) (hs : list Hash) (h' : Hash) :
  ~ In h hs -> In h' hs -> Hash_eqb h h' = false.
Proof. intros Hn Hi. apply Hash_eqb_neq. intros ->. contradiction. Qed.

Lemma ParseLog_unknown (log : Log.t) (eventSig : Hash) (topics : list Hash)
    (addr : string) (ts : Z) :
  Log.Topics log = eventSig :: topics ->
  (EqualFold unicode addr (Contract.Address WhizyPredictionMarketContract)
   = true -> ~ In eventSig marketSignatures) ->
  (EqualFold unicode addr (Contract.Address ProtocolSelectorContract)
   = true -> ~ In eventSig selectorSignatures) ->
  parseLog log addr ts = Err (unknownEvent eventSig addr).
Proof.
  intros Ht Hm Hs. unfold ParseLog. rewrite Ht. cbv zeta.
  destruct (EqualFold unicode addr
              (Contract.Address WhizyPredictionMarketContract)) eqn:EW;
    destruct (EqualFold unicode addr
                (Contract.Address ProtocolSelectorContract)) eqn:ES;
    try specialize (Hm eq_refl); try specialize (Hs eq_refl);
    rewrite ?(Hash_eqb_not_in eventSig marketSignatures) by
      (try assumption; unfold marketSignatures; cbn [In]; tauto);
    rewrite ?(Hash_eqb_not_in eventSig selectorSignatures) by
      (try assumption; unfold selectorSignatures; cbn [In]; tauto);
    reflexivity.
Qed.

(** ** A batch with logs that do not decode *)

Local Abbreviation decodeBatch :=
  (decodeLogs unicode WhizyPredictionMarketContract ProtocolSelectorContract).
Local Abbreviation decodedLog :=
  (decoded unicode WhizyPredictionMarketContract ProtocolSelectorContract).
Local Abbreviation processRange :=
  (processBlockRange unicode WhizyPredictionMarketContract
     ProtocolSelectorContract).

Lemma decodeLogs_skip (env : CycleEnv) (addr : string) (i : nat)
    (cache : gmap Z Z) (bad : Log.t) (rest : list Log.t)
    (ents : list Entity) (m : string) :
  parseLog bad addr (resolveTimestamp env i cache (Log.BlockNumber bad)).1
  = Err m ->
  decodeBatch env addr i cache (bad :: rest) ents
  = decodeBatch env addr (S i)
      (resolveTimestamp env i cache (Log.BlockNumber bad)).2 rest ents.
Proof.
  intros H. cbn [decodeLogs].
  destruct (resolveTimestamp env i cache (Log.BlockNumber bad)) as [t c'].
  cbn [fst snd] in *. rewrite H. reflexivity.
Qed.

Lemma omap_cons_match {A B} (f : A -> option B) (x : A) (l : list A) :
  omap f (x :: l)
  = match f x with
    | Some y => y :: omap f l
    | None => omap f l
    end.
Proof. reflexivity. Qed.

Lemma decodeLogs_entities (env : CycleEnv) (addr : string)
    (logs : list Log.t) :
  forall (i : nat) (cache : gmap Z Z) (ents : list Entity),
    forallb (fun lt : Log.t * Z => negb (panics (parseLog lt.1 addr lt.2)))
      (zip logs (batchTimestamps env i cache logs)) = true ->
    decodeBatch env addr i cache logs ents
    = Ok (ents ++ omap (decodedLog addr)
                    (zip logs (batchTimestamps env i cache logs))).
Proof.
  induction logs as [|log rest IH]; intros i cache ents Hnp.
  - cbn. rewrite app_nil_r. reflexivity.
  - cbn [decodeLogs batchTimestamps] in *.
    destruct (resolveTimestamp env i cache (Log.BlockNumber log)) as [t c'].
    cbn [zip zip_with forallb fst snd] in *.
    apply andb_true_iff in Hnp as [Hp Hrest].
    rewrite omap_cons_match. unfold decoded at 1. cbn [fst snd].
    destruct (parseLog log addr t) as [e|m|m] eqn:E.
    + rewrite IH by exact Hrest. rewrite <- app_assoc. reflexivity.
    + rewrite IH by exact Hrest. reflexivity.
    + discriminate Hp.
Qed.

(** C7. A log whose topic0 is none of the signatures known for the
    contract its address matches (in particular a log of an address matching
    neither monitored contract) makes [ParseLog] return the "unknown event
    signature" error and no entity.  In the loop of [processBlockRange] a log
    that fails to decode adds nothing and the loop goes on with the next log;
    the entities of the batch are exactly those of its logs that decode, in
    order, and they are what [storeEntities] receives. *)
Theorem unknown_event_tolerated (env : CycleEnv) (addr : string) :
  (forall log eventSig topics ts,
      Log.Topics log = eventSig :: topics ->
      (EqualFold unicode addr (Contract.Address WhizyPredictionMarketContract)
       = true -> ~ In eventSig marketSignatures) ->
      (EqualFold unicode addr (Contract.Address ProtocolSelectorContract)
       = true -> ~ In eventSig selectorSignatures) ->
      parseLog log addr ts = Err (unknownEvent eventSig addr))
  /\ (forall i cache bad rest ents m,
      parseLog bad addr (resolveTimestamp env i cache (Log.BlockNumber bad)).1
      = Err m ->
      decodeBatch env addr i cache (bad :: rest) ents
      = decodeBatch env addr (S i)
          (resolveTimestamp env i cache (Log.BlockNumber bad)).2 rest ents)
  /\ (forall logs,
      forallb (fun lt : Log.t * Z => negb (panics (parseLog lt.1 addr lt.2)))
        (zip logs (batchTimestamps env 0 ∅ logs)) = true ->
      decodeBatch env addr 0 ∅ logs []
      = Ok (omap (decodedLog addr) (zip logs (batchTimestamps env 0 ∅ logs))))
  /\ (forall contract fromBlock toBlock db logs ents,
      Contract.Address contract = addr ->
      env_logs env fromBlock toBlock = inl logs ->
      decodeBatch env addr 0 ∅ logs [] = Ok ents ->
      ents <> [] ->
      processRange env contract fromBlock toBlock db
      = match storeEntities env ents db with
        | (db', Some err) => (db', Err err)
        | (db', None) => (db', Ok tt)
        end).
Proof.
  split; [|split; [|split]].
  - intros log eventSig topics ts. apply ParseLog_unknown.
  - intros. eapply decodeLogs_skip; eassumption.
  - intros logs Hnp. rewrite decodeLogs_entities by exact Hnp. reflexivity.
  - intros contract fromBlock toBlock db logs ents <- Hlogs Hdec Hne.
    unfold processBlockRange. rewrite Hlogs.
    destruct logs as [|l logs'].
    + cbn in Hdec. inversion Hdec. congruence.
    + replace (len (l :: logs') =? 0) with false
        by (symmetry; apply Z.eqb_neq; unfold len; cbn [length]; lia).
      rewrite Hdec.
      destruct ents as [|e ents']; [congruence|].
      replace (len (e :: ents') =? 0) with false
        by (symmetry; apply Z.eqb_neq; unfold len; cbn [length]; lia).
      reflexivity.
Qed.

End ParseLogProperties.

(** ** Decoding the BetPlaced example *)

Lemma slice_app_prefix (a b : list byte) (n : Z) :
  len a = n -> slice (a ++ b) 0 n = Ok a.
Proof.
  intros H. unfold len in H. rewrite slice_in_range; try lia.
  - f_equal. change (Z.to_nat 0) with 0%nat.
    change (skipn 0 (a ++ b)) with (a ++ b).
    rewrite Z.sub_0_r. replace (Z.to_nat n) with (length a) by lia.
    rewrite firstn_app, Nat.sub_diag, firstn_all.
    change (firstn 0 b) with (@nil byte).
    apply app_nil_r.
  - unfold len. rewrite length_app. lia.
Qed.

Lemma slice_app_suffix (a b : list byte) (k lo hi : Z) :
  len a = k -> k <= lo ->
  slice (a ++ b) lo hi = slice b (lo - k) (hi - k).
Proof.
  intros Hk Hlo. unfold slice, len in *. rewrite length_app.
  destruct (Z.leb_spec 0 lo), (Z.leb_spec 0 (lo - k)), (Z.leb_spec lo hi),
    (Z.leb_spec (lo - k) (hi - k)),
    (Z.leb_spec hi (Z.of_nat (length a + length b))),
    (Z.leb_spec (hi - k) (Z.of_nat (length b)));
    cbn [andb]; try lia; try reflexivity.
  f_equal. replace (hi - k - (lo - k)) with (hi - lo) by lia.
  f_equal. rewrite skipn_app.
  rewrite (skipn_all2 a) by lia. cbn [app].
  f_equal. lia.
Qed.

(** C3 (as amended). The BetPlaced log with topic1 = 7, topic2 = the address
    0xAA..AA and data = [non-zero word, 100, 50] decodes to MarketID 7,
    Position true, Amount 100 and Shares 50; its User is the EIP-55
    checksummed rendering of the address, "0xaAaAaAaaAaAaAaaAaAAAAAAAAaaaAaAaAaaAaaAa"
    (the same hexadecimal digits as "0xaa..aa", in mixed case). *)
Theorem BetPlaced_example_decodes (log : Log.t) (topic0 : Hash)
    (w0 : list byte) (id : string) (bn ts : BigInt) (tx : string) :
  Log.Topics log = [topic0; word 7; topicAA] ->
  Log.Data log = w0 ++ word 100 ++ word 50 ->
  len w0 = 32 ->
  SetBytes w0 <> 0 ->
  parseBetPlaced log id bn ts tx
  = Ok {| BetPlaced.ID := id;
          BetPlaced.MarketID := Some 7;
          BetPlaced.User := checksumAA;
          BetPlaced.Position := true;
          BetPlaced.Amount := Some 100;
          BetPlaced.Shares := Some 50;
          BetPlaced.BlockNumber := bn;
          BetPlaced.BlockTimestamp := ts;
          BetPlaced.TransactionHash := tx |}.
Proof.
  intros Ht Hd Hw Hnz. unfold parseBetPlaced. rewrite Ht, Hd.
  change (len [topic0; word 7; topicAA] <? 3) with false.
  change (index [topic0; word 7; topicAA] 1) with (Ok (A := Hash) (word 7)).
  change (index [topic0; word 7; topicAA] 2) with (Ok (A := Hash) topicAA).
  cbn [bind].
  assert (Hlen : len (w0 ++ word 100 ++ word 50) = 96).
  { unfold len in *. rewrite !length_app.
    change (length (word 100)) with 32%nat.
    change (length (word 50)) with 32%nat. lia. }
  rewrite Hlen. change (96 <=? 96) with true.
  rewrite (slice_app_prefix w0 _ 32 Hw). cbn [bind].
  rewrite (slice_app_suffix w0 _ 32 32 64 Hw) by lia.
  rewrite (slice_app_suffix w0 _ 32 64 96 Hw) by lia.
  change (32 - 32) with 0. change (64 - 32) with 32. change (96 - 32) with 64.
  assert (H1 : slice (word 100 ++ word 50) 0 32 = Ok (word 100))
    by (vm_compute; reflexivity).
  assert (H2 : slice (word 100 ++ word 50) 32 64 = Ok (word 50))
    by (vm_compute; reflexivity).
  rewrite H1, H2. cbn [bind].
  assert (Hu : Address_Hex (BytesToAddress topicAA) = checksumAA)
    by (vm_compute; reflexivity).
  assert (H7 : SetBytes (word 7) = 7) by (vm_compute; reflexivity).
  assert (H100 : SetBytes (word 100) = 100) by (vm_compute; reflexivity).
  assert (H50 : SetBytes (word 50) = 50) by (vm_compute; reflexivity).
  rewrite Hu, H7, H100, H50.
  destruct (SetBytes w0 =? 0) eqn:E; [apply Z.eqb_eq in E; contradiction|].
  reflexivity.
Qed.

(** ** The bounds of the dynamic string of MarketCreated *)

Lemma SetBytes_nonneg (b : list byte) : 0 <= SetBytes b.
Proof.
  unfold SetBytes.
  assert (H : forall acc, 0 <= acc ->
            0 <= fold_left (fun a x => a * 256 + byte_to_Z x) b acc).
  { induction b as [|x b IH]; intros acc Hacc; cbn [fold_left]; [exact Hacc|].
    apply IH. unfold byte_to_Z. lia. }
  apply H. lia.
Qed.

(** Where neither the offset word nor the sums the guards compute leave the
    range of [uint64], the two guards do bound the reads: a string that
    would end past the data leaves [Question] empty. *)
Lemma parseMarketCreated_bounds_checked (log : Log.t) (id : string)
    (bn ts : BigInt) (tx : string) :
  let data := Log.Data log in
  let offset := SetBytes (firstn 32 data) in
  let strLen := SetBytes (firstn 32 (skipn (Z.to_nat offset) data)) in
  2 <= len (Log.Topics log) ->
  128 <= len data < 2 ^ 64 ->
  offset + 32 < 2 ^ 64 ->
  (len data < offset + 32
   \/ (offset + 32 + strLen < 2 ^ 64 /\ len data < offset + 32 + strLen)) ->
  exists e, parseMarketCreated log id bn ts tx = Ok e
            /\ MarketCreated.Question e = "".
Proof.
  intros data offset strLen Ht Hd Hoff Hviol.
  unfold parseMarketCreated.
  destruct (len (Log.Topics log) <? 2) eqn:E2; [lia|].
  destruct (index_in_range (Log.Topics log) 1) as (t1 & -> & _); [lia|].
  cbn [bind]. fold data.
  destruct (128 <=? len data) eqn:E128; [|lia].
  rewrite !slice_in_range by lia. cbn [bind].
  change (Z.to_nat 0) with 0%nat.
  change (skipn 0 data) with data.
  change (Z.to_nat (32 - 0)) with 32%nat. fold offset.
  pose proof (SetBytes_nonneg (firstn 32 data)) as Hoff0. fold offset in Hoff0.
  pose proof (SetBytes_nonneg (firstn 32 (skipn (Z.to_nat offset) data)))
    as Hlen0. fold strLen in Hlen0.
  unfold Uint64.
  rewrite (Z.mod_small offset) by lia.
  rewrite (Z.mod_small (offset + 32)) by lia.
  rewrite (Z.mod_small (len data)) by lia.
  destruct (offset + 32 <? len data) eqn:Eg.
  - rewrite slice_in_range by lia. cbn [bind].
    replace (Z.to_nat (offset + 32 - offset)) with 32%nat by lia.
    fold strLen.
    destruct Hviol as [Hv|[Hs Hv]]; [lia|].
    rewrite (Z.mod_small strLen) by lia.
    rewrite (Z.mod_small (offset + 32 + strLen)) by lia.
    destruct (offset + 32 + strLen <=? len data) eqn:Eg2; [lia|].
    eexists; split; reflexivity.
  - eexists; split; reflexivity.
Qed.

(** C4 (the code at its failing inputs). A MarketCreated log with two topics
    and 128 bytes of data whose offset word is 2^64 - 32 makes the decoder,
    and [ParseLog], panic on a slice whose bounds are out of range: the sum
    [offset+32] wraps around to 0 and passes the guard.  A log whose offset
    word is 2^64 + 128 decodes with Question "A": only the low 64 bits of the
    word are compared with the length of the data. *)
Theorem MarketCreated_offset_escapes_bounds :
  (forall id bn ts tx,
      parseMarketCreated wrappingOffsetLog id bn ts tx
      = Panic "slice bounds out of range")
  /\ (forall ts,
      ParseLog noUnicode whizy selector wrappingOffsetLog
        (Contract.Address whizy) ts
      = Panic "slice bounds out of range")
  /\ (forall id bn ts tx,
      exists e, parseMarketCreated truncatedOffsetLog id bn ts tx = Ok e
                /\ MarketCreated.Question e = "A").
Proof.
  split; [|split].
  - intros. vm_compute. reflexivity.
  - intros. vm_compute. reflexivity.
  - intros. eexists. split; [vm_compute; reflexivity|reflexivity].
Qed.

(** ** Case-insensitive routing *)

Lemma lor_below_128 (a b : Z) :
  0 <= a < 128 -> 0 <= b < 128 -> Z.lor a b < 128.
Proof.
  intros Ha Hb.
  assert (H0 : 0 <= Z.lor a b) by (apply Z.lor_nonneg; lia).
  destruct (Z.eq_dec (Z.lor a b) 0) as [E|E]; [lia|].
  apply (Z.log2_lt_pow2 _ 7); [lia|].
  rewrite Z.log2_lor by lia.
  apply Z.max_lub_lt.
  - destruct (Z.eq_dec a 0) as [->|]; [cbn; lia|].
    apply Z.log2_lt_pow2; lia.
  - destruct (Z.eq_dec b 0) as [->|]; [cbn; lia|].
    apply Z.log2_lt_pow2; lia.
Qed.

Lemma code_nonneg (c : ascii) : 0 <= code c.
Proof. unfold code. lia. Qed.

Lemma fold_step (sr tr : Z) :
  ((tr =? sr)
   || (65 <=? (if tr <? sr then tr else sr))
      && ((if tr <? sr then tr else sr) <=? 90)
      && ((if tr <? sr then sr else tr)
          =? (if tr <? sr then tr else sr) + 97 - 65))
  = (lowerASCII sr =? lowerASCII tr).
Proof.
  unfold lowerASCII.
  destruct (Z.eqb_spec tr sr), (Z.ltb_spec tr sr),
    (Z.leb_spec 65 sr), (Z.leb_spec sr 90),
    (Z.leb_spec 65 tr), (Z.leb_spec tr 90);
    cbn [andb orb]; try lia;
    repeat match goal with
           | |- context [?a =? ?b] => destruct (Z.eqb_spec a b)
           end;
    cbn [andb orb]; try reflexivity; lia.
Qed.

Section EqualFoldASCII.
Variable unicode : string -> string -> bool.

Lemma EqualFold_ASCII (s : string) :
  forall t, isASCII s = true -> isASCII t = true ->
            EqualFold unicode s t = sameASCIIFold s t.
Proof.
  induction s as [|sc s IH]; intros [|tc t] Hs Ht; try reflexivity.
  cbn [isASCII] in Hs, Ht.
  apply andb_true_iff in Hs as [Hsc Hs]. apply andb_true_iff in Ht as [Htc Ht].
  apply Z.ltb_lt in Hsc, Htc.
  cbn [EqualFold sameASCIIFold]. fold (code sc) (code tc).
  pose proof (code_nonneg sc). pose proof (code_nonneg tc).
  destruct (Z.leb_spec 128 (Z.lor (code sc) (code tc))) as [Hl|Hl].
  { pose proof (lor_below_128 (code sc) (code tc)). lia. }
  rewrite <- fold_step, <- (IH t Hs Ht).
  destruct (code tc =? code sc); [reflexivity|]. cbn [orb].
  destruct (_ && _); reflexivity.
Qed.

Lemma sameASCIIFold_isASCII (s : string) :
  forall s', isASCII s = true -> sameASCIIFold s s' = true ->
             isASCII s' = true.
Proof.
  induction s as [|c s IH]; intros [|c' s'] Hs H; try discriminate;
    [reflexivity|].
  cbn [isASCII sameASCIIFold] in *.
  apply andb_true_iff in Hs as [Hc Hs]. apply andb_true_iff in H as [He H].
  apply andb_true_iff. split; [|eauto].
  apply Z.ltb_lt in Hc. apply Z.eqb_eq in He. apply Z.ltb_lt.
  unfold lowerASCII in He.
  destruct ((65 <=? code c) && (code c <=? 90)) eqn:E1;
    destruct ((65 <=? code c') && (code c' <=? 90)) eqn:E2;
    try apply andb_true_iff in E1 as [?%Z.leb_le ?%Z.leb_le];
    try apply andb_true_iff in E2 as [?%Z.leb_le ?%Z.leb_le]; lia.
Qed.

Lemma sameASCIIFold_left (s : string) :
  forall s' t, sameASCIIFold s s' = true ->
               sameASCIIFold s t = sameASCIIFold s' t.
Proof.
  induction s as [|c s IH]; intros [|c' s'] [|tc t] H; try discriminate;
    try reflexivity.
  cbn [sameASCIIFold] in *. apply andb_true_iff in H as [He H].
  apply Z.eqb_eq in He. rewrite He, (IH s' t H). reflexivity.
Qed.

Lemma EqualFold_case_insensitive (s s' t : string) :
  isASCII s = true -> isASCII t = true -> sameASCIIFold s s' = true ->
  EqualFold unicode s t = EqualFold unicode s' t.
Proof.
  intros Hs Ht H.
  rewrite !EqualFold_ASCII by eauto using sameASCIIFold_isASCII.
  apply sameASCIIFold_left. exact H.
Qed.

End EqualFoldASCII.

Section Routing.
Variable unicode : string -> string -> bool.
Variables WhizyPredictionMarketContract ProtocolSelectorContract : Contract.t.

Local Abbreviation parseLog :=
  (ParseLog unicode WhizyPredictionMarketContract ProtocolSelectorContract).

(** C9 (as amended). For ASCII address strings, [ParseLog] routes a log the
    same way whatever the letter case of its [contractAddress] argument:
    two arguments that differ only in ASCII case give the same entity or
    the same decoder error, or both give the "unknown event signature"
    error, whose text repeats the argument as it was passed. *)
Theorem ParseLog_case_insensitive_routing (log : Log.t) (addr addr' : string)
    (ts : Z) :
  isASCII addr = true ->
  isASCII (Contract.Address WhizyPredictionMarketContract) = true ->
  isASCII (Contract.Address ProtocolSelectorContract) = true ->
  sameASCIIFold addr addr' = true ->
  parseLog log addr ts = parseLog log addr' ts
  \/ exists eventSig,
       parseLog log addr ts = Err (unknownEvent eventSig addr)
       /\ parseLog log addr' ts = Err (unknownEvent eventSig addr').
Proof.
  intros Ha Hw Hs Hf. unfold ParseLog.
  destruct (Log.Topics log) as [|eventSig topics]; [left; reflexivity|].
  cbv zeta.
  rewrite (EqualFold_case_insensitive unicode addr addr' _ Ha Hw Hf).
  rewrite (EqualFold_case_insensitive unicode addr addr' _ Ha Hs Hf).
  repeat match goal with
         | |- context [if ?b then _ else _] => destruct b
         end;
    first [ left; reflexivity
          | right; exists eventSig; split; reflexivity ].
Qed.

End Routing.

(** ** The indexing loop *)

Lemma nextRange_block_numbers (lastBlock batchSize latestBlock : Z) :
  0 <= lastBlock < 2 ^ 63 -> 0 <= batchSize < 2 ^ 63 ->
  nextRange lastBlock batchSize latestBlock
  = if latestBlock <=? lastBlock then None
    else Some (lastBlock + 1, Z.min (lastBlock + batchSize) latestBlock).
Proof.
  intros Hc Hb. unfold nextRange, Uint64.
  rewrite (Z.mod_small lastBlock) by lia.
  rewrite (Z.mod_small (lastBlock + 1)) by lia.
  rewrite (Z.mod_small batchSize) by lia.
  rewrite (Z.mod_small (lastBlock + 1 + batchSize)) by lia.
  rewrite (Z.mod_small (lastBlock + 1 + batchSize - 1)) by lia.
  destruct (latestBlock <=? lastBlock); [reflexivity|].
  destruct (Z.ltb_spec latestBlock (lastBlock + 1 + batchSize - 1)).
  - rewrite Z.min_r by lia. reflexivity.
  - rewrite Z.min_l by lia. do 2 f_equal. lia.
Qed.

Lemma nextRange_clamped (lastBlock batchSize latestBlock f t : Z) :
  nextRange lastBlock batchSize latestBlock = Some (f, t) ->
  Uint64 lastBlock < latestBlock /\ t <= latestBlock
  /\ f = Uint64 (Uint64 lastBlock + 1).
Proof.
  unfold nextRange.
  destruct (Z.leb_spec latestBlock (Uint64 lastBlock)); [discriminate|].
  intros Hr. inversion Hr; subst; clear Hr.
  repeat split; try lia.
  match goal with |- context [if ?a <? ?b then _ else _] =>
    destruct (Z.ltb_spec a b) end; lia.
Qed.

Lemma In_kinds (k : Kind) : In k kinds.
Proof. destruct k; unfold kinds; cbn [In]; tauto. Qed.

Lemma len_pos_nonempty {A} (l : list A) : l <> [] -> (0 <? len l) = true.
Proof.
  destruct l; [congruence|]. intros _. apply Z.ltb_lt.
  unfold len. cbn [length]. lia.
Qed.

Section Loop.
Variable unicode : string -> string -> bool.
Variables WhizyPredictionMarketContract ProtocolSelectorContract : Contract.t.

Local Abbreviation processRange :=
  (processBlockRange unicode WhizyPredictionMarketContract
     ProtocolSelectorContract).
Local Abbreviation decodeBatch :=
  (decodeLogs unicode WhizyPredictionMarketContract ProtocolSelectorContract).
Local Abbreviation oneCycle :=
  (cycle unicode WhizyPredictionMarketContract ProtocolSelectorContract).
Local Abbreviation loop :=
  (indexContract unicode WhizyPredictionMarketContract
     ProtocolSelectorContract).

Lemma insertSlice_sync_states env k batch db :
  sync_states (insertSlice env k batch db).1 = sync_states db.
Proof. unfold insertSlice. destruct (env_insert env k); reflexivity. Qed.

Lemma storeKinds_sync_states env ents ks :
  forall db, sync_states (storeKinds env ks ents db).1 = sync_states db.
Proof.
  induction ks as [|k ks IH]; intros db; cbn [storeKinds]; [reflexivity|].
  destruct (0 <? len (sliceOf k ents)); [|apply IH].
  pose proof (insertSlice_sync_states env k (sliceOf k ents) db) as Hi.
  destruct (insertSlice env k (sliceOf k ents) db) as [db' [err|]];
    cbn [fst] in *; [exact Hi|].
  rewrite IH. exact Hi.
Qed.

Lemma storeKinds_surfaces env ents k msg ks :
  In k ks -> sliceOf k ents <> [] -> env_insert env k = Some msg ->
  forall db, exists err, (storeKinds env ks ents db).2 = Some err.
Proof.
  intros Hin Hne Hfail.
  induction ks as [|k' ks IH]; [destruct Hin|]. intros db.
  cbn [storeKinds].
  destruct (0 <? len (sliceOf k' ents)) eqn:El.
  - unfold insertSlice at 1.
    destruct (env_insert env k') as [err|] eqn:Ei.
    + eexists. reflexivity.
    + destruct Hin as [->|Hin]; [congruence|]. apply IH. exact Hin.
  - destruct Hin as [->|Hin].
    + rewrite len_pos_nonempty in El by exact Hne. discriminate.
    + apply IH. exact Hin.
Qed.

Lemma processBlockRange_sync_states env contract f t db :
  sync_states (processRange env contract f t db).1 = sync_states db.
Proof.
  unfold processBlockRange.
  destruct (env_logs env f t) as [logs|err]; [|reflexivity].
  destruct (len logs =? 0); [reflexivity|].
  destruct (decodeBatch env (Contract.Address contract) 0 ∅ logs [])
    as [ents|m|m]; try reflexivity.
  destruct (len ents =? 0); [reflexivity|].
  pose proof (storeKinds_sync_states env ents kinds db) as Hs.
  unfold storeEntities.
  destruct (storeKinds env kinds ents db) as [db' [err|]]; exact Hs.
Qed.

(** C6. In a cycle that has read the cursor and the latest height: when the
    cursor is at least the latest height nothing is processed and the cycle
    idles; otherwise the range handed to [processBlockRange] is
    [cursor+1, min(cursor+batchSize, latest)], whose upper bound is at most
    the latest height.  Cursor and batch size are non-negative, as block
    numbers and a configured size are. *)
Theorem range_of_a_cycle (cfg : Config.t) (contract : Contract.t)
    (env : CycleEnv) (db : DB) (state : SyncState.t) (latestBlock : Z) :
  let lastBlock := SyncState.LastBlock state in
  let batchSize := Config.BlockBatchSize cfg in
  sync_states db !! Contract.Address contract = Some state ->
  env_first env = None ->
  env_latest env = inl latestBlock ->
  0 <= lastBlock < 2 ^ 63 ->
  0 <= batchSize < 2 ^ 63 ->
  (latestBlock <= lastBlock -> oneCycle cfg contract env db = (db, Idle))
  /\ (lastBlock < latestBlock ->
      let fromBlock := lastBlock + 1 in
      let toBlock := Z.min (lastBlock + batchSize) latestBlock in
      toBlock <= latestBlock
      /\ exists db' out,
           oneCycle cfg contract env db = (db', out)
           /\ outcomeRange out = Some (fromBlock, toBlock)
           /\ tables db'
              = tables (processRange env contract fromBlock toBlock db).1).
Proof.
  intros lastBlock batchSize Hrow Hfirst Hlatest Hc Hb.
  unfold cycle. rewrite Hfirst, Hrow, Hlatest.
  fold lastBlock batchSize.
  rewrite (nextRange_block_numbers lastBlock batchSize latestBlock Hc Hb).
  split; intros Hcmp.
  - destruct (Z.leb_spec latestBlock lastBlock); [reflexivity|lia].
  - destruct (Z.leb_spec latestBlock lastBlock); [lia|].
    cbv zeta. split; [lia|].
    destruct (processRange env contract (lastBlock + 1)
                (Z.min (lastBlock + batchSize) latestBlock) db)
      as [db1 [[]|err|m]]; cbn [fst].
    + destruct (env_save env); eexists _, _; repeat split; reflexivity.
    + eexists _, _; repeat split; reflexivity.
    + eexists _, _; repeat split; reflexivity.
Qed.

Lemma storeEntities_surfaces env ents db k msg :
  sliceOf k ents <> [] -> env_insert env k = Some msg ->
  exists db1 err, storeEntities env ents db = (db1, Some err)
                  /\ sync_states db1 = sync_states db.
Proof.
  intros Hne Hfail. unfold storeEntities.
  destruct (storeKinds_surfaces env ents k msg kinds (In_kinds k) Hne Hfail db)
    as [err Herr].
  pose proof (storeKinds_sync_states env ents kinds db) as Hs.
  destruct (storeKinds env kinds ents db) as [db1 r]. cbn [fst snd] in *.
  subst r. eauto.
Qed.

Lemma cycle_range_outcome cfg contract env db state latestBlock f t :
  env_first env = None ->
  sync_states db !! Contract.Address contract = Some state ->
  env_latest env = inl latestBlock ->
  nextRange (SyncState.LastBlock state) (Config.BlockBatchSize cfg) latestBlock
  = Some (f, t) ->
  exists db' out, oneCycle cfg contract env db = (db', out)
                  /\ outcomeRange out = Some (f, t).
Proof.
  intros Hfirst Hrow Hlatest Hrange. unfold cycle.
  rewrite Hfirst, Hrow, Hlatest, Hrange.
  destruct (processRange env contract f t db) as [db1 [[]|err|m]].
  - destruct (env_save env); eexists _, _; split; reflexivity.
  - eexists _, _; split; reflexivity.
  - eexists _, _; split; reflexivity.
Qed.

(** C1. In a cycle of the loop of one contract the cursor is written only
    after [processBlockRange] has returned success for the range of the
    cycle; every other outcome leaves the [sync_states] table as it was.
    [storeEntities] returns an error as soon as the insert of one kind
    fails, and a cycle in which that happens ends as a failed range with
    the stored cursor unchanged, so that a next cycle that sees the same
    chain height computes the same range again. *)
Theorem cursor_advances_only_after_writes (cfg : Config.t)
    (contract : Contract.t) (env : CycleEnv) (db : DB) :
  (forall db' f t,
      oneCycle cfg contract env db = (db', Advanced f t) ->
      exists db1 state,
        processRange env contract f t db = (db1, Ok tt)
        /\ sync_states db !! Contract.Address contract = Some state
        /\ sync_states db'
           = <[SyncState.ContractAddress state :=
                 SyncState.set_LastBlock (Int64 t) state]> (sync_states db))
  /\ (forall db' out,
      oneCycle cfg contract env db = (db', out) ->
      (forall f t, out <> Advanced f t) ->
      sync_states db' = sync_states db)
  /\ (forall ents db0 k msg,
      sliceOf k ents <> [] ->
      env_insert env k = Some msg ->
      exists db1 err, storeEntities env ents db0 = (db1, Some err)
                      /\ sync_states db1 = sync_states db0)
  /\ (forall state latestBlock f t logs ents k msg,
      env_first env = None ->
      sync_states db !! Contract.Address contract = Some state ->
      env_latest env = inl latestBlock ->
      nextRange (SyncState.LastBlock state) (Config.BlockBatchSize cfg)
        latestBlock = Some (f, t) ->
      env_logs env f t = inl logs ->
      decodeBatch env (Contract.Address contract) 0 ∅ logs [] = Ok ents ->
      sliceOf k ents <> [] ->
      env_insert env k = Some msg ->
      exists db1 err,
        oneCycle cfg contract env db = (db1, RangeFailed f t err)
        /\ sync_states db1 = sync_states db
        /\ cursor contract db1 = cursor contract db
        /\ forall env2,
             env_first env2 = None ->
             env_latest env2 = inl latestBlock ->
             exists db2 out2,
               oneCycle cfg contract env2 db1 = (db2, out2)
               /\ outcomeRange out2 = Some (f, t)).
Proof.
  split; [|split; [|split]].
  - intros db' f t. unfold cycle.
    destruct (env_first env); [discriminate|].
    destruct (sync_states db !! Contract.Address contract) as [state|];
      [|discriminate].
    destruct (env_latest env) as [latestBlock|]; [|discriminate].
    destruct (nextRange _ _ _) as [[f0 t0]|]; [|discriminate].
    pose proof (processBlockRange_sync_states env contract f0 t0 db) as Hs.
    destruct (processRange env contract f0 t0 db) as [db1 [[]|err|m]] eqn:Ep;
      try discriminate.
    destruct (env_save env); [discriminate|].
    intros H. inversion H; subst; clear H. cbn [fst] in Hs.
    exists db1, state. cbn [sync_states]. rewrite Hs. auto.
  - intros db' out. unfold cycle.
    destruct (env_first env); [intros H; inversion H; reflexivity|].
    destruct (sync_states db !! Contract.Address contract) as [state|];
      [|intros H; inversion H; reflexivity].
    destruct (env_latest env) as [latestBlock|];
      [|intros H; inversion H; reflexivity].
    destruct (nextRange _ _ _) as [[f0 t0]|];
      [|intros H; inversion H; reflexivity].
    pose proof (processBlockRange_sync_states env contract f0 t0 db) as Hs.
    destruct (processRange env contract f0 t0 db) as [db1 [[]|err|m]];
      cbn [fst] in Hs.
    + destruct (env_save env); intros H Hno; inversion H; subst;
        [exact Hs|]. exfalso. eapply Hno. reflexivity.
    + intros H _. inversion H; subst. exact Hs.
    + intros H _. inversion H; subst. exact Hs.
  - intros ents db0 k msg. apply storeEntities_surfaces.
  - intros state latestBlock f t logs ents k msg
      Hfirst Hrow Hlatest Hrange Hlogs Hdec Hne Hfail.
    destruct (storeEntities_surfaces env ents db k msg Hne Hfail)
      as (db1 & err & Hstore & Hsync).
    assert (Hproc : processRange env contract f t db = (db1, Err err)).
    { unfold processBlockRange. rewrite Hlogs.
      destruct logs as [|l logs'].
      { cbn in Hdec. inversion Hdec; subst. exfalso. apply Hne. reflexivity. }
      replace (len (l :: logs') =? 0) with false
        by (symmetry; apply Z.eqb_neq; unfold len; cbn [length]; lia).
      rewrite Hdec.
      destruct ents as [|e ents']; [exfalso; apply Hne; reflexivity|].
      replace (len (e :: ents') =? 0) with false
        by (symmetry; apply Z.eqb_neq; unfold len; cbn [length]; lia).
      rewrite Hstore. reflexivity. }
    exists db1, err. repeat split.
    + unfold cycle. rewrite Hfirst, Hrow, Hlatest, Hrange, Hproc. reflexivity.
    + exact Hsync.
    + unfold cursor. rewrite Hsync. reflexivity.
    + intros env2 Hfirst2 Hlatest2.
      apply (cycle_range_outcome cfg contract env2 db1 state latestBlock);
        try assumption.
      rewrite Hsync. exact Hrow.
Qed.

(** *** The cursor as a watermark *)

Lemma cycle_cursor cfg contract env db state db' out :
  sync_states db !! Contract.Address contract = Some state ->
  SyncState.ContractAddress state = Contract.Address contract ->
  - 2 ^ 63 <= SyncState.LastBlock state < 2 ^ 63 ->
  0 <= Config.BlockBatchSize cfg < 2 ^ 63 ->
  (forall latestBlock,
      env_latest env = inl latestBlock -> 0 <= latestBlock < 2 ^ 63) ->
  oneCycle cfg contract env db = (db', out) ->
  exists state',
    sync_states db' !! Contract.Address contract = Some state'
    /\ SyncState.ContractAddress state' = Contract.Address contract
    /\ - 2 ^ 63 <= SyncState.LastBlock state' < 2 ^ 63
    /\ SyncState.LastBlock state <= SyncState.LastBlock state'
    /\ (forall f t, out = Advanced f t -> SyncState.LastBlock state' = t).
Proof.
  intros Hrow Hkey Hc Hb Hl. unfold cycle. rewrite Hrow.
  assert (Hsame : forall d o,
             sync_states d = sync_states db ->
             (forall f t, o <> Advanced f t) ->
             exists state',
               sync_states d !! Contract.Address contract = Some state'
               /\ SyncState.ContractAddress state' = Contract.Address contract
               /\ - 2 ^ 63 <= SyncState.LastBlock state' < 2 ^ 63
               /\ SyncState.LastBlock state <= SyncState.LastBlock state'
               /\ (forall f t, o = Advanced f t ->
                               SyncState.LastBlock state' = t)).
  { intros d o Hd Ho. exists state. rewrite Hd.
    repeat split; try assumption; try lia.
    intros f t ->. exfalso. eapply Ho. reflexivity. }
  destruct (env_first env).
  { intros H; inversion H; subst. apply Hsame; auto; discriminate. }
  destruct (env_latest env) as [latestBlock|] eqn:El.
  2:{ intros H; inversion H; subst. apply Hsame; auto; discriminate. }
  destruct (nextRange _ _ _) as [[f0 t0]|] eqn:Er.
  2:{ intros H; inversion H; subst. apply Hsame; auto; discriminate. }
  pose proof (processBlockRange_sync_states env contract f0 t0 db) as Hs.
  destruct (processRange env contract f0 t0 db) as [db1 [[]|err|m]];
    cbn [fst] in Hs.
  2:{ intros H; inversion H; subst. apply Hsame; auto; discriminate. }
  2:{ intros H; inversion H; subst. apply Hsame; auto; discriminate. }
  destruct (env_save env).
  { intros H; inversion H; subst. apply Hsame; auto; discriminate. }
  intros H; inversion H; subst; clear H.
  specialize (Hl latestBlock eq_refl).
  assert (Ht : SyncState.LastBlock state <= t0 < 2 ^ 63).
  { unfold nextRange, Uint64 in Er.
    destruct (Z.leb_spec latestBlock (SyncState.LastBlock state mod 2 ^ 64))
      as [|Hlt]; [discriminate|].
    assert (Hnn : 0 <= SyncState.LastBlock state).
    { destruct (Z.lt_ge_cases (SyncState.LastBlock state) 0) as [Hneg|];
        [|lia].
      exfalso.
      assert (SyncState.LastBlock state mod 2 ^ 64
              = SyncState.LastBlock state + 2 ^ 64).
      { symmetry. apply Z.mod_unique_pos with (q := -1); lia. }
      lia. }
    rewrite (Z.mod_small (SyncState.LastBlock state)) in Er, Hlt by lia.
    rewrite (Z.mod_small (SyncState.LastBlock state + 1)) in Er by lia.
    rewrite (Z.mod_small (Config.BlockBatchSize cfg)) in Er by lia.
    rewrite (Z.mod_small (_ + 1 + _)) in Er by lia.
    rewrite (Z.mod_small (_ + 1 + _ - 1)) in Er by lia.
    inversion Er; subst; clear Er.
    match goal with |- context [if ?a <? ?b then _ else _] =>
      destruct (Z.ltb_spec a b) end; lia. }
  assert (Hi : Int64 t0 = t0).
  { unfold Int64. rewrite Z.mod_small; lia. }
  exists (SyncState.set_LastBlock (Int64 t0) state).
  cbn [sync_states SyncState.set_LastBlock SyncState.ContractAddress
       SyncState.LastBlock].
  rewrite Hkey, lookup_insert_eq, Hi.
  repeat split; try assumption; try lia.
  intros f t Heq. inversion Heq; subst. reflexivity.
Qed.

Lemma sorted_lookup_le (l : list Z) :
  StronglySorted Z.le l ->
  forall i j a b, (j <= i)%nat -> l !! j = Some a -> l !! i = Some b -> a <= b.
Proof.
  induction 1 as [|x l Hs IH Hall]; intros i j a b Hji Hj Hi.
  - rewrite lookup_nil in Hj. discriminate.
  - destruct j as [|j], i as [|i]; cbn in Hj, Hi.
    + inversion Hj; inversion Hi; subst. lia.
    + inversion Hj; subst. rewrite Forall_forall in Hall. apply Hall.
      eapply list_elem_of_lookup_2. exact Hi.
    + lia.
    + eapply IH; [|exact Hj|exact Hi]. lia.
Qed.

Lemma indexContract_cons cfg contract env rest db db' out :
  env_stop env = false ->
  oneCycle cfg contract env db = (db', out) ->
  loop cfg contract (env :: rest) db
  = (out, db') :: match out with
                  | Crashed _ _ _ => []
                  | _ => loop cfg contract rest db'
                  end.
Proof.
  intros Hstop Hc. cbn [indexContract]. rewrite Hstop, Hc.
  destruct out; reflexivity.
Qed.

Lemma loop_cursors cfg contract envs :
  0 <= Config.BlockBatchSize cfg < 2 ^ 63 ->
  forall db state,
    sync_states db !! Contract.Address contract = Some state ->
    SyncState.ContractAddress state = Contract.Address contract ->
    - 2 ^ 63 <= SyncState.LastBlock state < 2 ^ 63 ->
    (forall env latestBlock,
        In env envs -> env_latest env = inl latestBlock ->
        0 <= latestBlock < 2 ^ 63) ->
    exists cs : list Z,
      map (fun x : CycleOutcome * DB => cursor contract x.2)
        (loop cfg contract envs db) = map Some cs
      /\ StronglySorted Z.le (SyncState.LastBlock state :: cs)
      /\ (forall i f t d,
             loop cfg contract envs db !! i = Some (Advanced f t, d) ->
             cs !! i = Some t).
Proof.
  intros Hb. induction envs as [|env rest IH]; intros db state Hrow Hkey Hc Hl.
  - exists []. repeat split.
    + repeat constructor.
    + intros i f t d H. destruct i; discriminate H.
  - destruct (env_stop env) eqn:Hstop.
    + cbn [indexContract]. rewrite Hstop.
      exists [SyncState.LastBlock state]. repeat split.
      * cbn. unfold cursor. rewrite Hrow. reflexivity.
      * repeat constructor. lia.
      * intros [|i] f t d H; cbn in H; [inversion H|].
        destruct i; discriminate H.
    + destruct (oneCycle cfg contract env db) as [db' out] eqn:Hcyc.
      rewrite (indexContract_cons cfg contract env rest db db' out Hstop Hcyc).
      destruct (cycle_cursor cfg contract env db state db' out Hrow Hkey Hc Hb)
        as (state' & Hrow' & Hkey' & Hc' & Hle & Hadv);
        [intros lb; apply Hl; left; reflexivity|exact Hcyc|].
      set (tl := match out with
                 | Crashed _ _ _ => []
                 | _ => loop cfg contract rest db'
                 end).
      assert (Htl : exists cs' : list Z,
                 map (fun x : CycleOutcome * DB => cursor contract x.2) tl
                 = map Some cs'
                 /\ StronglySorted Z.le (SyncState.LastBlock state' :: cs')
                 /\ (forall i f t d,
                        tl !! i = Some (Advanced f t, d) -> cs' !! i = Some t)).
      { assert (Hrec : exists cs' : list Z,
                 map (fun x : CycleOutcome * DB => cursor contract x.2)
                   (loop cfg contract rest db') = map Some cs'
                 /\ StronglySorted Z.le (SyncState.LastBlock state' :: cs')
                 /\ (forall i f t d,
                        loop cfg contract rest db' !! i
                        = Some (Advanced f t, d) -> cs' !! i = Some t)).
        { apply IH; try assumption.
          intros e lb Hin. apply Hl. right. exact Hin. }
        destruct out; try exact Hrec.
        exists []. repeat split.
        - repeat constructor.
        - intros i f t d H. subst tl. destruct i; discriminate H. }
      destruct Htl as (cs' & Hmap & Hsorted & Hlook).
      exists (SyncState.LastBlock state' :: cs'). repeat split.
      * cbn [map snd]. rewrite Hmap. unfold cursor at 1. rewrite Hrow'.
        reflexivity.
      * constructor; [exact Hsorted|].
        apply StronglySorted_inv in Hsorted as [_ Hall].
        constructor; [exact Hle|].
        eapply Forall_impl; [exact Hall|]. cbn. intros; lia.
      * intros [|i] f t d H; cbn in H.
        -- inversion H; subst. cbn. f_equal. eapply Hadv. reflexivity.
        -- cbn. eapply Hlook. exact H.
Qed.

(** C2. Along any run of the loop of one contract the stored cursor never
    decreases, and after every cycle that completes (range written, cursor
    saved) it equals the [toBlock] of that cycle, which is the highest
    [toBlock] completed so far.  The batch size is non-negative and the
    reported chain heights fit [int64], the type of the stored cursor. *)
Theorem cursor_monotone_watermark (cfg : Config.t) (contract : Contract.t)
    (envs : list CycleEnv) (db : DB) (state : SyncState.t) :
  sync_states db !! Contract.Address contract = Some state ->
  SyncState.ContractAddress state = Contract.Address contract ->
  - 2 ^ 63 <= SyncState.LastBlock state < 2 ^ 63 ->
  0 <= Config.BlockBatchSize cfg < 2 ^ 63 ->
  (forall env latestBlock,
      In env envs -> env_latest env = inl latestBlock ->
      0 <= latestBlock < 2 ^ 63) ->
  let trace := loop cfg contract envs db in
  exists cs : list Z,
    map (fun x : CycleOutcome * DB => cursor contract x.2) trace = map Some cs
    /\ StronglySorted Z.le (SyncState.LastBlock state :: cs)
    /\ (forall i f t d,
           trace !! i = Some (Advanced f t, d) ->
           cursor contract d = Some t)
    /\ (forall i j f t d f' t' d',
           (j <= i)%nat ->
           trace !! i = Some (Advanced f t, d) ->
           trace !! j = Some (Advanced f' t', d') ->
           t' <= t).
Proof.
  intros Hrow Hkey Hc Hb Hl trace.
  destruct (loop_cursors cfg contract envs Hb db state Hrow Hkey Hc Hl)
    as (cs & Hmap & Hsorted & Hlook).
  fold trace in Hmap, Hlook.
  exists cs. repeat split; try assumption.
  - intros i f t d H.
    assert (Hm : map (fun x : CycleOutcome * DB => cursor contract x.2) trace
                 !! i = Some (cursor contract d)).
    { rewrite list_lookup_fmap, H. reflexivity. }
    rewrite Hmap, list_lookup_fmap, (Hlook i f t d H) in Hm.
    cbn in Hm. inversion Hm. reflexivity.
  - intros i j f t d f' t' d' Hji Hi Hj.
    apply StronglySorted_inv in Hsorted as [Hs _].
    eapply (sorted_lookup_le cs Hs i j); eauto.
Qed.

End Loop.

(** * The theorems at concrete inputs *)

Lemma ParseLog_identifier_witness :
  ParseLog noUnicode whizy selector (betPlacedLog (word 1))
    (Contract.Address whizy) 1700000000 = Ok (EBetPlaced betPlacedEntity)
  /\ Entity_ID (EBetPlaced betPlacedEntity)
     = (Hash_Hex (Log.TxHash (betPlacedLog (word 1))) ++ "-"
        ++ decimal (Log.Index (betPlacedLog (word 1))))%string.
Proof.
  split; [vm_compute; reflexivity|].
  apply (ParseLog_identifier noUnicode whizy selector (betPlacedLog (word 1))
           (Contract.Address whizy) 1700000000).
  vm_compute. reflexivity.
Defined.

Lemma BetPlaced_insufficient_topics_witness :
  len (Log.Topics (bareLog BetPlacedSignature)) < 3
  /\ parseBetPlaced (bareLog BetPlacedSignature) "id" (Some 120)
       (Some 1700000000) "0x1234"
     = Err "insufficient topics for BetPlaced"
  /\ ParseLog noUnicode whizy selector (bareLog BetPlacedSignature)
       whizyLower 1700000000
     = Err "insufficient topics for BetPlaced".
Proof.
  assert (H : len (Log.Topics (bareLog BetPlacedSignature)) < 3)
    by (vm_compute; reflexivity).
  split; [exact H|].
  destruct (BetPlaced_insufficient_topics noUnicode whizy selector
              (bareLog BetPlacedSignature) whizyLower 1700000000
              "id" (Some 120) (Some 1700000000) "0x1234" H) as [H1 H2].
  split; [exact H1|].
  apply H2; vm_compute; reflexivity.
Defined.

Lemma Paused_Unpaused_total_witness :
  len (Log.Topics (bareLog PausedSignature)) < 2
  /\ parsePaused (bareLog PausedSignature) "id" (Some 120) (Some 1700000000)
       "0x1234"
     = Ok (Paused.mk "id" "" (Some 120) (Some 1700000000) "0x1234")
  /\ parseOwnershipTransferred (bareLog PausedSignature) "id" (Some 120)
       (Some 1700000000) "0x1234"
     = Err "insufficient topics for OwnershipTransferred".
Proof.
  assert (H : len (Log.Topics (bareLog PausedSignature)) < 2)
    by (vm_compute; reflexivity).
  split; [exact H|].
  destruct (Paused_Unpaused_total (bareLog PausedSignature) "id" (Some 120)
              (Some 1700000000) "0x1234") as ((e & He & Hv) & _ & Hnine).
  split.
  - rewrite He, Hv. reflexivity.
  - apply Hnine. exact H.
Defined.

Lemma unknown_event_tolerated_witness :
  ParseLog noUnicode whizy selector (bareLog (word 0)) whizyLower 1700000000
  = Err (unknownEvent (word 0) whizyLower)
  /\ decodeLogs noUnicode whizy selector envOk whizyLower 0 ∅ batch1 []
     = Ok [EBetPlaced betPlacedEntity].
Proof.
  destruct (unknown_event_tolerated noUnicode whizy selector envOk whizyLower)
    as (Hunknown & _ & Hbatch & _).
  split.
  - apply (Hunknown (bareLog (word 0)) (word 0) []).
    + reflexivity.
    + intros _ Hin. vm_compute in Hin. intuition discriminate.
    + intros Hfold. vm_compute in Hfold. discriminate Hfold.
  - rewrite Hbatch by (vm_compute; reflexivity).
    vm_compute. reflexivity.
Defined.

Lemma BetPlaced_example_decodes_witness :
  len (word 1) = 32 /\ SetBytes (word 1) <> 0
  /\ parseBetPlaced (betPlacedLog (word 1))
       (BetPlaced.ID betPlacedEntity) (Some 120) (Some 1700000000)
       (BetPlaced.TransactionHash betPlacedEntity)
     = Ok betPlacedEntity.
Proof.
  assert (Hl : len (word 1) = 32) by (vm_compute; reflexivity).
  assert (Hn : SetBytes (word 1) <> 0) by (vm_compute; discriminate).
  split; [exact Hl|]. split; [exact Hn|].
  apply (BetPlaced_example_decodes (betPlacedLog (word 1)) BetPlacedSignature
           (word 1)); [reflexivity|reflexivity|exact Hl|exact Hn].
Defined.

Lemma ParseLog_case_insensitive_routing_witness :
  sameASCIIFold (Contract.Address whizy) whizyLower = true
  /\ ParseLog noUnicode whizy selector (betPlacedLog (word 1))
       (Contract.Address whizy) 1700000000
     = ParseLog noUnicode whizy selector (betPlacedLog (word 1))
         whizyLower 1700000000.
Proof.
  assert (Hf : sameASCIIFold (Contract.Address whizy) whizyLower = true)
    by (vm_compute; reflexivity).
  split; [exact Hf|].
  assert (Ha : isASCII (Contract.Address whizy) = true)
    by (vm_compute; reflexivity).
  assert (Hs : isASCII (Contract.Address selector) = true)
    by (vm_compute; reflexivity).
  destruct (ParseLog_case_insensitive_routing noUnicode whizy selector
              (betPlacedLog (word 1)) (Contract.Address whizy) whizyLower
              1700000000 Ha Ha Hs Hf) as [H|(sig & H & _)].
  - exact H.
  - vm_compute in H. discriminate H.
Defined.

Lemma range_of_a_cycle_witness :
  exists db' out,
    cycle noUnicode whizy selector cfg1 whizy envOk db0 = (db', out)
    /\ outcomeRange out = Some (101, 150).
Proof.
  destruct (range_of_a_cycle noUnicode whizy selector cfg1 whizy envOk db0
              state0 150) as [_ H].
  - vm_compute. reflexivity.
  - reflexivity.
  - reflexivity.
  - vm_compute. split; [discriminate|reflexivity].
  - vm_compute. split; [discriminate|reflexivity].
  - destruct H as (_ & db' & out & Hc & Hr & _).
    + vm_compute. reflexivity.
    + exists db', out. split; [exact Hc|exact Hr].
Defined.

Lemma cursor_advances_only_after_writes_witness :
  exists db1 err,
    cycle noUnicode whizy selector cfg1 whizy envInsertFails db0
    = (db1, RangeFailed 101 150 err)
    /\ cursor whizy db1 = Some 100.
Proof.
  destruct (cursor_advances_only_after_writes noUnicode whizy selector cfg1
              whizy envInsertFails db0) as (_ & _ & _ & H).
  destruct (H state0 150 101 150 batch1 [EBetPlaced betPlacedEntity]
              KBetPlaced "connection reset")
    as (db1 & err & Hc & _ & Hcur & _);
    try (vm_compute; reflexivity).
  - vm_compute. discriminate.
  - exists db1, err. split; [exact Hc|].
    rewrite Hcur. vm_compute. reflexivity.
Defined.

Lemma cursor_monotone_watermark_witness :
  exists cs : list Z,
    map (fun x : CycleOutcome * DB => cursor whizy x.2)
      (indexContract noUnicode whizy selector cfg1 whizy
         [envInsertFails; envOk; envLater] db0) = map Some cs
    /\ StronglySorted Z.le (100 :: cs).
Proof.
  destruct (cursor_monotone_watermark noUnicode whizy selector cfg1 whizy
              [envInsertFails; envOk; envLater] db0 state0)
    as (cs & Hm & Hs & _).
  - vm_compute. reflexivity.
  - reflexivity.
  - vm_compute. split; [discriminate|reflexivity].
  - vm_compute. split; [discriminate|reflexivity].
  - intros env lb [<-|[<-|[<-|[]]]] H; cbn in H; inversion H; subst;
      vm_compute; split; (discriminate || reflexivity).
  - exists cs. split; [exact Hm|exact Hs].
Defined.

(** * Where the code departs from the specification's wording *)

(** The User of the decoded BetPlaced example is not the lower-case string
    "0xaa..aa": [common.Address.Hex] applies the EIP-55 checksum. *)
Lemma BetPlaced_example_user_is_checksummed :
  ~ exists e,
      parseBetPlaced (betPlacedLog (word 1))
        (BetPlaced.ID betPlacedEntity) (Some 120) (Some 1700000000)
        (BetPlaced.TransactionHash betPlacedEntity) = Ok e
      /\ BetPlaced.MarketID e = Some 7
      /\ BetPlaced.User e = lowercaseAA
      /\ BetPlaced.Position e = true
      /\ BetPlaced.Amount e = Some 100
      /\ BetPlaced.Shares e = Some 50.
Proof.
  intros (e & He & _ & Hu & _).
  vm_compute in He. inversion He; subst e. vm_compute in Hu.
  discriminate Hu.
Qed.

(** Two spellings of one address that differ only in ASCII case give two
    different results for a log with an unknown topic0: the error text
    repeats the spelling. *)
Lemma ParseLog_error_repeats_address :
  sameASCIIFold (Contract.Address whizy) whizyLower = true
  /\ ParseLog noUnicode whizy selector (bareLog (word 0))
       (Contract.Address whizy) 1700000000
     <> ParseLog noUnicode whizy selector (bareLog (word 0))
          whizyLower 1700000000.
Proof.
  split; [vm_compute; reflexivity|].
  intros H. vm_compute in H. discriminate H.
Qed.

(** * Further properties of the decoder *)

Lemma Hash_eqb_true (h h' : Hash) : Hash_eqb h h' = true -> h = h'.
Proof. unfold Hash_eqb. apply bool_decide_eq_true. Qed.

Lemma rmap_is_Panic {A B} (f : A -> B) (r : result A) (m : string) :
  rmap f r = Panic m -> r = Panic m.
Proof.
  unfold rmap. destruct r as [a|m'|m']; cbn [bind]; intros H;
    [discriminate | discriminate | inversion H; reflexivity].
Qed.

(** What a decoder returns is of its kind and carries the four columns it
    was given. *)
Lemma decodeAs_columns (k : Kind) (log : Log.t) (id : string) (bn ts : BigInt)
    (tx : string) (e : Entity) :
  decodeAs k log id bn ts tx = Ok e ->
  kindOf e = k /\ Entity_ID e = id /\ Entity_BlockNumber e = bn
  /\ Entity_BlockTimestamp e = ts /\ Entity_TransactionHash e = tx.
Proof.
  destruct k; cbn [decodeAs]; intros H;
    apply rmap_Ok in H; destruct H as (x & Hx & ->);
    match type of Hx with ?f _ _ _ _ _ = _ => unfold f in Hx end;
    decoder_cases Hx; inversion Hx; subst; repeat split.
Qed.

Ltac dispatch_to k :=
  left; eexists _, _, k; cbn [isMarketKind signatureOf decodeAs];
  repeat split;
  first [ eassumption
        | apply Hash_eqb_true; assumption
        | reflexivity ].

Section Catalog.
Variable unicode : string -> string -> bool.
Variables WhizyPredictionMarketContract ProtocolSelectorContract : Contract.t.

Local Abbreviation parseLog :=
  (ParseLog unicode WhizyPredictionMarketContract ProtocolSelectorContract).

(** The contract whose [switch] holds the case of a kind. *)
Local Abbreviation contractOf k :=
  (if isMarketKind k then WhizyPredictionMarketContract
   else ProtocolSelectorContract).

(** Any result of [ParseLog] other than its two own errors is the result of
    the decoder of one kind, reached through the matching contract and
    signature. *)
Lemma ParseLog_dispatch (log : Log.t) (addr : string) (ts : Z) :
  (exists eventSig topics k,
      Log.Topics log = eventSig :: topics
      /\ eventSig = signatureOf k
      /\ EqualFold unicode addr (Contract.Address (contractOf k)) = true
      /\ parseLog log addr ts
         = decodeAs k log
             (Hash_Hex (Log.TxHash log) ++ "-" ++ decimal (Log.Index log))
             (Some (Log.BlockNumber log)) (Some ts)
             (Hash_Hex (Log.TxHash log)))
  \/ (exists m, parseLog log addr ts = Err m).
Proof.
  unfold ParseLog.
  destruct (Log.Topics log) as [|eventSig topics]; [right; eauto|].
  cbv zeta.
  destruct (EqualFold unicode addr
              (Contract.Address WhizyPredictionMarketContract)) eqn:EW.
  - destruct (Hash_eqb eventSig BetPlacedSignature) eqn:E1;
      [dispatch_to KBetPlaced|].
    destruct (Hash_eqb eventSig MarketCreatedSignature) eqn:E2;
      [dispatch_to KMarketCreated|].
    destruct (Hash_eqb eventSig MarketResolvedSignature) eqn:E3;
      [dispatch_to KMarketResolved|].
    destruct (Hash_eqb eventSig WinningsClaimedSignature) eqn:E4;
      [dispatch_to KWinningsClaimed|].
    destruct (EqualFold unicode addr
                (Contract.Address ProtocolSelectorContract)) eqn:ES;
      [|right; eauto].
    destruct (Hash_eqb eventSig AutoDepositExecutedSignature) eqn:E5;
      [dispatch_to KAutoDepositExecuted|].
    destruct (Hash_eqb eventSig AutoWithdrawExecutedSignature) eqn:E6;
      [dispatch_to KAutoWithdrawExecuted|].
    destruct (Hash_eqb eventSig OwnershipTransferredSignature) eqn:E7;
      [dispatch_to KOwnershipTransferred|].
    destruct (Hash_eqb eventSig PausedSignature) eqn:E8;
      [dispatch_to KPaused|].
    destruct (Hash_eqb eventSig ProtocolRegisteredSignature) eqn:E9;
      [dispatch_to KProtocolRegistered|].
    destruct (Hash_eqb eventSig ProtocolUpdatedSignature) eqn:E10;
      [dispatch_to KProtocolUpdated|].
    destruct (Hash_eqb eventSig UnpausedSignature) eqn:E11;
      [dispatch_to KUnpaused|].
    right; eauto.
  - destruct (EqualFold unicode addr
                (Contract.Address ProtocolSelectorContract)) eqn:ES;
      [|right; eauto].
    destruct (Hash_eqb eventSig AutoDepositExecutedSignature) eqn:E5;
      [dispatch_to KAutoDepositExecuted|].
    destruct (Hash_eqb eventSig AutoWithdrawExecutedSignature) eqn:E6;
      [dispatch_to KAutoWithdrawExecuted|].
    destruct (Hash_eqb eventSig OwnershipTransferredSignature) eqn:E7;
      [dispatch_to KOwnershipTransferred|].
    destruct (Hash_eqb eventSig PausedSignature) eqn:E8;
      [dispatch_to KPaused|].
    destruct (Hash_eqb eventSig ProtocolRegisteredSignature) eqn:E9;
      [dispatch_to KProtocolRegistered|].
    destruct (Hash_eqb eventSig ProtocolUpdatedSignature) eqn:E10;
      [dispatch_to KProtocolUpdated|].
    destruct (Hash_eqb eventSig UnpausedSignature) eqn:E11;
      [dispatch_to KUnpaused|].
    right; eauto.
Qed.

(** X1. The kind of the entity [ParseLog] returns is decided by the log:
    topic0 is the signature of that kind, and the address argument folds to
    the contract whose events that kind belongs to.  No market event is ever
    produced for an address matching only the selector contract, and none of
    the selector's for an address matching only the market. *)
Theorem ParseLog_kind_sound (log : Log.t) (addr : string) (ts : Z)
    (e : Entity) :
  parseLog log addr ts = Ok e ->
  nth_error (Log.Topics log) 0 = Some (signatureOf (kindOf e))
  /\ EqualFold unicode addr (Contract.Address (contractOf (kindOf e))) = true.
Proof.
  intros H.
  destruct (ParseLog_dispatch log addr ts)
    as [(eventSig & topics & k & Ht & Hs & Hf & Hp)|[m Hm]];
    [|congruence].
  rewrite Hp in H. apply decodeAs_columns in H as (Hk & _).
  rewrite Hk, Ht. subst eventSig. split; [reflexivity|exact Hf].
Qed.

(** X2. Every entity [ParseLog] returns carries the block number of its log,
    the timestamp it was called with, and the transaction hash in
    hexadecimal. *)
Theorem ParseLog_block_columns (log : Log.t) (addr : string) (ts : Z)
    (e : Entity) :
  parseLog log addr ts = Ok e ->
  Entity_BlockNumber e = Some (Log.BlockNumber log)
  /\ Entity_BlockTimestamp e = Some ts
  /\ Entity_TransactionHash e = Hash_Hex (Log.TxHash log).
Proof.
  intros H.
  destruct (ParseLog_dispatch log addr ts)
    as [(eventSig & topics & k & Ht & Hs & Hf & Hp)|[m Hm]];
    [|congruence].
  rewrite Hp in H. apply decodeAs_columns in H as (_ & _ & Hb & Hts & Htx).
  auto.
Qed.

End Catalog.

(** * [LoadNetworks] *)

Lemma loadContract_Contracts g item :
  Globals.Contracts (loadContract g item)
  = Globals.Contracts g ++ [contractOfEntry item].
Proof.
  unfold loadContract. cbv zeta.
  repeat match goal with
         | |- context [if ?b then _ else _] => destruct b
         end; reflexivity.
Qed.

Lemma loadContract_named g item name :
  Globals.named name (loadContract g item)
  = if String.eqb name item.1
    then match Globals.named name g with
         | Some _ => Some (contractOfEntry item)
         | None => None
         end
    else Globals.named name g.
Proof.
  unfold loadContract, Globals.named. cbv zeta.
  destruct (String.eqb_spec name item.1) as [E|Hne].
  - rewrite <- E.
    repeat match goal with
           | |- context [String.eqb ?a ?b] => destruct (String.eqb a b)
           end; reflexivity.
  - repeat match goal with
           | |- context [String.eqb ?a ?b] => destruct (String.eqb_spec a b)
           end; try reflexivity; congruence.
Qed.

Lemma fold_loadContract_Contracts items :
  forall g,
    Globals.Contracts (fold_left loadContract items g)
    = Globals.Contracts g ++ map contractOfEntry items.
Proof.
  induction items as [|item items IH]; intros g; cbn [fold_left map].
  - rewrite app_nil_r. reflexivity.
  - rewrite IH, loadContract_Contracts, <- app_assoc. reflexivity.
Qed.

Lemma fold_loadContract_absent items name :
  ~ In name (map fst items) ->
  forall g, Globals.named name (fold_left loadContract items g)
            = Globals.named name g.
Proof.
  induction items as [|item items IH]; intros Hn g; [reflexivity|].
  cbn [fold_left map In] in *. rewrite IH by tauto.
  rewrite loadContract_named.
  destruct (String.eqb_spec name item.1) as [->|]; [tauto|reflexivity].
Qed.

Lemma fold_loadContract_present items name entry :
  NoDup (map fst items) -> In (name, entry) items ->
  forall g current,
    Globals.named name g = Some current ->
    Globals.named name (fold_left loadContract items g)
    = Some (contractOfEntry (name, entry)).
Proof.
  induction items as [|item items IH]; intros Hnd Hin g current Hc;
    [destruct Hin|].
  cbn [fold_left map] in *. apply NoDup_cons in Hnd as [Hnotin Hnd].
  rewrite list_elem_of_In in Hnotin.
  destruct Hin as [->|Hin].
  - rewrite fold_loadContract_absent by exact Hnotin.
    rewrite loadContract_named. cbn [fst]. rewrite String.eqb_refl, Hc.
    reflexivity.
  - assert (Hne : name <> item.1).
    { intros ->. apply Hnotin. apply (in_map fst) in Hin. exact Hin. }
    eapply IH; eauto. rewrite loadContract_named.
    rewrite (proj2 (String.eqb_neq _ _)) by exact Hne. exact Hc.
Qed.

(** X20. For a parsed file that lists the network, [LoadNetworks] rebuilds
    [Contracts] as exactly the contracts of that network, in the order
    visited, and succeeds unless there are none.  Each of the three named
    package variables becomes the contract listed under its name, and keeps
    its previous value when the network does not list that name. *)
Theorem LoadNetworks_loads_the_network
    (networks : gmap string (list (string * NetworkEntry.t)))
    (network : string) (items : list (string * NetworkEntry.t))
    (g g' : Globals.t) (r : option string) :
  networks !! network = Some items ->
  NoDup (map fst items) ->
  LoadNetworks (Parsed networks) network g = (g', r) ->
  Globals.Contracts g' = map contractOfEntry items
  /\ (r = None <-> items <> [])
  /\ (forall name entry current,
         In (name, entry) items ->
         Globals.named name g = Some current ->
         Globals.named name g'
         = Some (Contract.mk name (NetworkEntry.Address entry)
                   (NetworkEntry.StartBlock entry)))
  /\ (forall name, ~ In name (map fst items) ->
                   Globals.named name g' = Globals.named name g).
Proof.
  intros Hnet Hnd. unfold LoadNetworks. rewrite Hnet. cbv zeta.
  set (g0 := Globals.mk _ _ _ []).
  assert (Hc : Globals.Contracts (fold_left loadContract items g0)
               = map contractOfEntry items)
    by (rewrite fold_loadContract_Contracts; reflexivity).
  assert (Hnamed : forall name, Globals.named name g0 = Globals.named name g)
    by reflexivity.
  intros H.
  assert (Hg : g' = fold_left loadContract items g0).
  { destruct (len _ =? 0); inversion H; reflexivity. }
  assert (Hr : r = None <-> items <> []).
  { rewrite Hc in H. destruct items as [|it items'].
    - cbn in H. inversion H. split; [discriminate|congruence].
    - replace (len (map contractOfEntry (it :: items')) =? 0) with false in H
        by (symmetry; apply Z.eqb_neq; unfold len; cbn [map length]; lia).
      inversion H. split; [discriminate|reflexivity]. }
  subst g'. repeat split; try apply Hr; try exact Hc.
  - intros name entry current Hin Hcur.
    rewrite <- Hnamed in Hcur.
    apply (fold_loadContract_present items name entry Hnd Hin g0 current Hcur).
  - intros name Hn. rewrite fold_loadContract_absent by exact Hn. apply Hnamed.
Qed.

(** X21. [LoadNetworks] fails in exactly four ways.  When the file cannot
    be read or parsed, or does not list the network, the package variables
    are left as they were; when the network is listed but empty,
    [Contracts] has already been emptied. *)
Theorem LoadNetworks_failures (file : NetworksFile) (network : string)
    (g g' : Globals.t) (err : string) :
  LoadNetworks file network g = (g', Some err) ->
  (exists e, file = Unreadable e /\ g' = g
             /\ err = ("failed to read networks file: " ++ e)%string)
  \/ (exists e, file = Unparsable e /\ g' = g
                /\ err = ("failed to parse networks file: " ++ e)%string)
  \/ (exists networks,
         file = Parsed networks /\ networks !! network = None /\ g' = g
         /\ err = ("network " ++ network ++ " not found in networks file")%string)
  \/ (exists networks,
         file = Parsed networks /\ networks !! network = Some []
         /\ Globals.Contracts g' = []
         /\ (forall name, Globals.named name g' = Globals.named name g)
         /\ err = ("no contracts found for network " ++ network)%string).
Proof.
  unfold LoadNetworks. destruct file as [e|e|networks].
  - intros H. inversion H. left. eauto.
  - intros H. inversion H. right. left. eauto.
  - destruct (networks !! network) as [items|] eqn:E.
    + cbv zeta. rewrite fold_loadContract_Contracts. cbn [Globals.Contracts app].
      destruct items as [|it items'].
      * cbn. intros H. change (len (@nil Contract.t) =? 0) with true in H.
        inversion H. right. right. right.
        exists networks. repeat split; first [reflexivity | exact E].
      * replace (len (map contractOfEntry (it :: items')) =? 0) with false
          by (symmetry; apply Z.eqb_neq; unfold len; cbn [map length]; lia).
        discriminate.
    + intros H. inversion H. right. right. left.
      exists networks. repeat split; first [reflexivity | exact E].
Qed.

(** ** The fixed-layout decoders never panic *)

Ltac topics_in_range log :=
  repeat match goal with
         | |- context [index (Log.Topics log) ?i] =>
             let t := fresh "t" in
             let Ht := fresh "Ht" in
             destruct (index_in_range (Log.Topics log) i) as (t & Ht & _);
             [cbn; lia|rewrite Ht; cbn [bind]]
         end.

Lemma decodeAs_fixed_total (k : Kind) (log : Log.t) (id : string)
    (bn ts : BigInt) (tx : string) :
  isDynamicKind k = false ->
  minTopics k <= len (Log.Topics log) ->
  exists e, decodeAs k log id bn ts tx = Ok e.
Proof.
  intros Hd Hm.
  destruct k; try discriminate Hd; cbn [decodeAs minTopics] in *;
    match goal with
    | |- context [rmap _ (?f _ _ _ _ _)] => unfold f
    end;
    repeat match goal with
           | |- context [len (Log.Topics log) <? ?n] =>
               destruct (Z.ltb_spec (len (Log.Topics log)) n); [lia|]
           end;
    topics_in_range log;
    repeat match goal with
           | |- context [?n <=? len (Log.Data log)] =>
               destruct (Z.leb_spec n (len (Log.Data log)))
           end;
    rewrite ?slice_in_range by lia; cbn [bind rmap];
    eexists; reflexivity.
Qed.

Lemma decodeAs_insufficient (k : Kind) (log : Log.t) (id : string)
    (bn ts : BigInt) (tx : string) :
  len (Log.Topics log) < minTopics k ->
  decodeAs k log id bn ts tx
  = Err ("insufficient topics for " ++ kindName k).
Proof.
  intros Hm.
  assert (0 <= len (Log.Topics log)) by (unfold len; lia).
  destruct k; cbn [decodeAs minTopics kindName] in *; try lia;
    match goal with
    | |- context [rmap _ (?f _ _ _ _ _)] => unfold f
    end;
    match goal with
    | |- context [len (Log.Topics log) <? ?n] =>
        destruct (Z.ltb_spec (len (Log.Topics log)) n); [reflexivity|lia]
    end.
Qed.

(** X3. For the nine kinds without a dynamic string, decoding succeeds
    exactly when the log has the topics the kind requires, whatever the data:
    with fewer topics the result is the "insufficient topics" error of that
    kind, with enough topics it is an entity, and it is never a panic. *)
Theorem fixed_decoders_succeed_iff_topics (k : Kind) (log : Log.t)
    (id : string) (bn ts : BigInt) (tx : string) :
  isDynamicKind k = false ->
  (minTopics k <= len (Log.Topics log) ->
   exists e, decodeAs k log id bn ts tx = Ok e)
  /\ (len (Log.Topics log) < minTopics k ->
      decodeAs k log id bn ts tx
      = Err ("insufficient topics for " ++ kindName k))
  /\ (forall m, decodeAs k log id bn ts tx <> Panic m).
Proof.
  intros Hd. split; [|split].
  - apply decodeAs_fixed_total. exact Hd.
  - apply decodeAs_insufficient.
  - intros m Hp.
    destruct (Z.lt_ge_cases (len (Log.Topics log)) (minTopics k)) as [Hlt|Hge].
    + rewrite decodeAs_insufficient in Hp by exact Hlt. discriminate.
    + destruct (decodeAs_fixed_total k log id bn ts tx Hd) as [e He];
        [lia|congruence].
Qed.

Ltac eval_signature_tests :=
  repeat match goal with
         | |- context [Hash_eqb ?a ?b] =>
             let v := eval vm_compute in (Hash_eqb a b) in
             change (Hash_eqb a b) with v
         end.

Section Reachability.
Variable unicode : string -> string -> bool.
Variables WhizyPredictionMarketContract ProtocolSelectorContract : Contract.t.

Local Abbreviation parseLog :=
  (ParseLog unicode WhizyPredictionMarketContract ProtocolSelectorContract).
Local Abbreviation contractOf k :=
  (if isMarketKind k then WhizyPredictionMarketContract
   else ProtocolSelectorContract).

(** X4. The eleven signatures are told apart: a log whose topic0 is the
    signature of a kind, passed with an address that folds to the contract
    of that kind, reaches the decoder of that kind and no other, also when
    the address folds to both contracts. *)
Theorem ParseLog_reaches_every_decoder (k : Kind) (log : Log.t)
    (topics : list Hash) (addr : string) (ts : Z) :
  Log.Topics log = signatureOf k :: topics ->
  EqualFold unicode addr (Contract.Address (contractOf k)) = true ->
  parseLog log addr ts
  = decodeAs k log
      (Hash_Hex (Log.TxHash log) ++ "-" ++ decimal (Log.Index log))
      (Some (Log.BlockNumber log)) (Some ts) (Hash_Hex (Log.TxHash log)).
Proof.
  intros Ht Hf. unfold ParseLog. rewrite Ht. cbv zeta.
  destruct k; cbn [isMarketKind signatureOf decodeAs] in *;
    rewrite ?Hf;
    destruct (EqualFold unicode addr
                (Contract.Address WhizyPredictionMarketContract));
    try discriminate Hf; rewrite ?Hf; eval_signature_tests; reflexivity.
Qed.

(** X5. [ParseLog] can only panic in the two decoders that read a dynamic
    string: a panic means topic0 is the MarketCreated or the
    ProtocolRegistered signature. *)
Theorem ParseLog_panics_only_on_dynamic (log : Log.t) (addr : string)
    (ts : Z) (m : string) :
  parseLog log addr ts = Panic m ->
  nth_error (Log.Topics log) 0 = Some MarketCreatedSignature
  \/ nth_error (Log.Topics log) 0 = Some ProtocolRegisteredSignature.
Proof.
  intros H.
  destruct (ParseLog_dispatch unicode WhizyPredictionMarketContract
              ProtocolSelectorContract log addr ts)
    as [(eventSig & topics & k & Ht & Hs & Hf & Hp)|[m' Hm]];
    [|congruence].
  rewrite Hp in H. rewrite Ht. subst eventSig. cbn [nth_error].
  destruct (isDynamicKind k) eqn:Hd.
  - destruct k; try discriminate Hd; cbn [signatureOf]; auto.
  - exfalso.
    destruct (Z.lt_ge_cases (len (Log.Topics log)) (minTopics k)) as [Hlt|Hge].
    + rewrite decodeAs_insufficient in H by exact Hlt. discriminate.
    + destruct (decodeAs_fixed_total k log
                  (Hash_Hex (Log.TxHash log) ++ "-" ++ decimal (Log.Index log))
                  (Some (Log.BlockNumber log)) (Some ts)
                  (Hash_Hex (Log.TxHash log)) Hd) as [e He];
        [lia|congruence].
Qed.

End Reachability.

(** ** Words, quantities and addresses *)

Lemma byte_to_Z_range (b : byte) : 0 <= byte_to_Z b < 256.
Proof. unfold byte_to_Z. pose proof (Byte.to_N_bounded b). lia. Qed.

Lemma byte_to_of_Z (z : Z) : byte_to_Z (byte_of_Z z) = z mod 256.
Proof.
  unfold byte_to_Z, byte_of_Z.
  pose proof (Z.mod_pos_bound z 256 ltac:(lia)) as Hm.
  destruct (Byte.of_N (Z.to_N (z mod 256))) as [b|] eqn:E.
  - apply Byte.to_of_N in E. rewrite E. lia.
  - apply Byte.of_N_None_iff in E. lia.
Qed.

Lemma SetBytes_app (a b : list byte) :
  SetBytes (a ++ b) = SetBytes a * 256 ^ len b + SetBytes b.
Proof.
  unfold SetBytes.
  assert (H : forall l acc,
             fold_left (fun x y => x * 256 + byte_to_Z y) l acc
             = acc * 256 ^ len l
               + fold_left (fun x y => x * 256 + byte_to_Z y) l 0).
  { induction l as [|y l IH]; intros acc.
    - unfold len. cbn [length fold_left]. change (Z.of_nat 0) with 0.
      rewrite Z.pow_0_r. lia.
    - cbn [fold_left]. rewrite IH, (IH (0 * 256 + byte_to_Z y)).
      unfold len. cbn [length]. rewrite Nat2Z.inj_succ, Z.pow_succ_r by lia.
      ring. }
  rewrite fold_left_app. apply H.
Qed.

Lemma SetBytes_bound (b : list byte) : 0 <= SetBytes b < 256 ^ len b.
Proof.
  induction b as [|x b IH] using rev_ind.
  - unfold SetBytes, len. cbn [fold_left length]. change (Z.of_nat 0) with 0.
    rewrite Z.pow_0_r. lia.
  - rewrite SetBytes_app. unfold len in *. rewrite length_app. cbn [length].
    replace (Z.of_nat (length b + 1)) with (Z.succ (Z.of_nat (length b)))
      by lia.
    rewrite Z.pow_succ_r by lia.
    change (SetBytes [x]) with (0 * 256 + byte_to_Z x).
    pose proof (byte_to_Z_range x). cbn [length]. nia.
Qed.

Lemma slice_len (s : list byte) (lo hi : Z) (w : list byte) :
  slice s lo hi = Ok w -> len w = hi - lo.
Proof.
  unfold slice.
  destruct (Z.leb_spec 0 lo), (Z.leb_spec lo hi), (Z.leb_spec hi (len s));
    cbn [andb]; try discriminate.
  intros Hs. inversion Hs; subst. unfold len in *.
  rewrite length_firstn, length_skipn. lia.
Qed.

Lemma word_quantity (s : list byte) (lo hi : Z) (w : list byte) :
  slice s lo hi = Ok w -> hi - lo = 32 -> 0 <= SetBytes w < 2 ^ 256.
Proof.
  intros H Hd. apply slice_len in H. pose proof (SetBytes_bound w) as Hb.
  replace (len w) with 32 in Hb by lia. exact Hb.
Qed.

Section Quantities.
Variable unicode : string -> string -> bool.
Variables WhizyPredictionMarketContract ProtocolSelectorContract : Contract.t.

Local Abbreviation parseLog :=
  (ParseLog unicode WhizyPredictionMarketContract ProtocolSelectorContract).

Lemma decodeAs_quantities (k : Kind) (log : Log.t) (id : string)
    (bn ts : BigInt) (tx : string) (e : Entity) :
  decodeAs k log id bn ts tx = Ok e ->
  Forall (fun q : BigInt => forall v, q = Some v -> 0 <= v < 2 ^ 256)
    (Entity_quantities e).
Proof.
  destruct k; cbn [decodeAs]; intros H;
    apply rmap_Ok in H; destruct H as (x & Hx & ->);
    match type of Hx with ?f _ _ _ _ _ = _ => unfold f in Hx end;
    decoder_cases Hx; inversion Hx; subst; cbn -[Z.pow];
    repeat (apply Forall_cons_2;
            [intros v Hv;
             first [ discriminate Hv
                   | inversion Hv; subst;
                     eapply word_quantity; [eassumption|reflexivity] ]|]);
    apply Forall_nil_2.
Qed.

(** X6. Every quantity that [ParseLog] reads from the data of a log (amounts,
    shares, end time, APY, TVL) is either nil, when the data is too short
    for the event, or an integer in [0, 2^256). *)
Theorem ParseLog_quantities_are_uint256 (log : Log.t) (addr : string)
    (ts : Z) (e : Entity) :
  parseLog log addr ts = Ok e ->
  Forall (fun q : BigInt => forall v, q = Some v -> 0 <= v < 2 ^ 256)
    (Entity_quantities e).
Proof.
  intros H.
  destruct (ParseLog_dispatch unicode WhizyPredictionMarketContract
              ProtocolSelectorContract log addr ts)
    as [(eventSig & topics & k & Ht & Hs & Hf & Hp)|[m Hm]];
    [|congruence].
  rewrite Hp in H. eapply decodeAs_quantities. exact H.
Qed.

End Quantities.

(** ** The shape of an address column *)

Lemma BytesToAddress_length (b : list byte) : len (BytesToAddress b) = 20.
Proof.
  unfold BytesToAddress, len.
  rewrite length_app, repeat_length, length_skipn. lia.
Qed.

Lemma hexdigit_code (v : Z) :
  0 <= v < 16 -> code (hexdigit v) = if v <? 10 then 48 + v else 87 + v.
Proof.
  intros Hv. unfold code, hexdigit.
  rewrite nat_ascii_embedding; destruct (v <? 10); lia.
Qed.

Lemma hexdigit_lower (v : Z) :
  0 <= v < 16 -> isLowerHexDigit (hexdigit v) = true.
Proof.
  intros Hv. unfold isLowerHexDigit. rewrite hexdigit_code by exact Hv.
  destruct (Z.ltb_spec v 10).
  - apply orb_true_iff. left. apply andb_true_iff. split; apply Z.leb_le; lia.
  - apply orb_true_iff. right. apply andb_true_iff.
    split; apply Z.leb_le; lia.
Qed.

Lemma hexenc_lower (bs : list byte) : isLowerHex (hexenc bs) = true.
Proof.
  induction bs as [|b bs IH]; [reflexivity|].
  cbn [hexenc isLowerHex]. pose proof (byte_to_Z_range b) as Hb.
  rewrite !hexdigit_lower, IH; [reflexivity| |].
  - apply Z.mod_pos_bound. lia.
  - split; [apply Z.div_pos; lia|apply Z.div_lt_upper_bound; lia].
Qed.

Lemma hexenc_length (bs : list byte) :
  String.length (hexenc bs) = (2 * length bs)%nat.
Proof.
  induction bs as [|b bs IH]; [reflexivity|].
  cbn [hexenc String.length length]. rewrite IH. lia.
Qed.

Lemma checksum_shape (digits : string) :
  forall (i : nat) (hash : list byte),
    isLowerHex digits = true ->
    String.length (checksum i hash digits) = String.length digits
    /\ sameASCIIFold (checksum i hash digits) digits = true.
Proof.
  induction digits as [|c rest IH]; intros i hash Hd; [split; reflexivity|].
  cbn [isLowerHex] in Hd. apply andb_true_iff in Hd as [Hc Hrest].
  destruct (IH (S i) hash Hrest) as [Hl Hf].
  cbn [checksum String.length sameASCIIFold]. cbv zeta.
  rewrite Hl, Hf. split; [reflexivity|].
  rewrite andb_true_r. apply Z.eqb_eq.
  fold (code c).
  destruct ((57 <? code c) && (7 <? _)) eqn:E; [|reflexivity].
  apply andb_true_iff in E as [E _]. apply Z.ltb_lt in E.
  unfold isLowerHexDigit in Hc.
  apply orb_true_iff in Hc as [Hc|Hc];
    apply andb_true_iff in Hc as [H1 H2];
    apply Z.leb_le in H1, H2; [lia|].
  unfold code at 1. rewrite nat_ascii_embedding by lia.
  unfold lowerASCII.
  destruct (Z.leb_spec 65 (Z.of_nat (Z.to_nat (code c - 32)))),
    (Z.leb_spec (Z.of_nat (Z.to_nat (code c - 32))) 90),
    (Z.leb_spec 65 (code c)), (Z.leb_spec (code c) 90);
    cbn [andb]; lia.
Qed.

Lemma append_0x (s : string) :
  ("0x" ++ s)%string = String "0" (String "x" s).
Proof. reflexivity. Qed.

Lemma Address_Hex_shape (b : list byte) :
  isAddressString (Address_Hex (BytesToAddress b)).
Proof.
  unfold isAddressString, Address_Hex.
  set (a := BytesToAddress b).
  destruct (checksum_shape (hexenc a) 0
              (Keccak.Keccak256 (list_byte_of_string (hexenc a)))
              (hexenc_lower a)) as [Hl Hf].
  assert (Ha : len a = 20) by apply BytesToAddress_length.
  split.
  - rewrite append_0x. cbn [String.length]. rewrite Hl, hexenc_length.
    unfold len in Ha. lia.
  - exists a. split; [exact Ha|].
    rewrite !append_0x. cbn [sameASCIIFold]. rewrite Hf. reflexivity.
Qed.

Section Addresses.
Variable unicode : string -> string -> bool.
Variables WhizyPredictionMarketContract ProtocolSelectorContract : Contract.t.

Local Abbreviation parseLog :=
  (ParseLog unicode WhizyPredictionMarketContract ProtocolSelectorContract).

Lemma decodeAs_addresses (k : Kind) (log : Log.t) (id : string)
    (bn ts : BigInt) (tx : string) (e : Entity) :
  decodeAs k log id bn ts tx = Ok e ->
  Forall (fun s : string => s = "" \/ isAddressString s)
    (Entity_addresses e).
Proof.
  destruct k; cbn [decodeAs]; intros H;
    apply rmap_Ok in H; destruct H as (x & Hx & ->);
    match type of Hx with ?f _ _ _ _ _ = _ => unfold f in Hx end;
    decoder_cases Hx; inversion Hx; subst;
    cbn -[Address_Hex BytesToAddress];
    repeat (apply Forall_cons_2;
            [first [ left; reflexivity
                   | right; apply Address_Hex_shape ]|]);
    apply Forall_nil_2.
Qed.

(** X7. Every address column of an entity [ParseLog] returns is either
    empty (the data was too short to hold it) or a string of 42 characters
    that equals, up to the case of its letters, "0x" followed by the
    lower-case hexadecimal digits of 20 bytes. *)
Theorem ParseLog_addresses_are_rendered (log : Log.t) (addr : string)
    (ts : Z) (e : Entity) :
  parseLog log addr ts = Ok e ->
  Forall (fun s : string => s = "" \/ isAddressString s)
    (Entity_addresses e).
Proof.
  intros H.
  destruct (ParseLog_dispatch unicode WhizyPredictionMarketContract
              ProtocolSelectorContract log addr ts)
    as [(eventSig & topics & k & Ht & Hs & Hf & Hp)|[m Hm]];
    [|congruence].
  rewrite Hp in H. eapply decodeAs_addresses. exact H.
Qed.

End Addresses.

(** ** Decoding what the ABI encoder emits *)

Lemma le_bytes_length (k : nat) : forall z, length (Keccak.le_bytes k z) = k.
Proof. induction k as [|k IH]; intros z; cbn; [reflexivity|]. rewrite IH. reflexivity. Qed.

Lemma word_len (n : Z) : len (word n) = 32.
Proof. unfold word, len. rewrite length_rev, le_bytes_length. reflexivity. Qed.

Lemma SetBytes_rev (l : list byte) : SetBytes (rev l) = Keccak.le_word l.
Proof.
  induction l as [|b l IH]; [reflexivity|].
  cbn [rev Keccak.le_word]. rewrite SetBytes_app, IH.
  change (len [b]) with 1. change (SetBytes [b]) with (0 * 256 + byte_to_Z b).
  lia.
Qed.

Lemma le_word_le_bytes (k : nat) :
  forall z, Keccak.le_word (Keccak.le_bytes k z) = z mod 256 ^ Z.of_nat k.
Proof.
  induction k as [|k IH]; intros z.
  - cbn. rewrite Z.mod_1_r. reflexivity.
  - cbn [Keccak.le_bytes Keccak.le_word]. rewrite IH, byte_to_of_Z.
    rewrite Nat2Z.inj_succ, Z.pow_succ_r by lia.
    rewrite Z.rem_mul_r by lia. reflexivity.
Qed.

Lemma SetBytes_word (n : Z) : 0 <= n < 2 ^ 256 -> SetBytes (word n) = n.
Proof.
  intros Hn. unfold word. rewrite SetBytes_rev, le_word_le_bytes.
  apply Z.mod_small. exact Hn.
Qed.

Lemma BytesToAddress_addressWord (a : Address) :
  len a = 20 -> BytesToAddress (addressWord a) = a.
Proof.
  intros Ha. unfold BytesToAddress, addressWord, len in *.
  rewrite length_app, repeat_length.
  replace (12 + length a - 20)%nat with (length (repeat x00 12))
    by (rewrite repeat_length; lia).
  rewrite drop_app_length.
  replace (20 - length a)%nat with 0%nat by lia. reflexivity.
Qed.

Lemma addressWord_len (a : Address) : len a = 20 -> len (addressWord a) = 32.
Proof.
  intros Ha. unfold addressWord, len in *.
  rewrite length_app, repeat_length. lia.
Qed.

Lemma len_app {A} (a b : list A) : len (a ++ b) = len a + len b.
Proof. unfold len. rewrite length_app. lia. Qed.

Lemma len_nonneg {A} (a : list A) : 0 <= len a.
Proof. unfold len. lia. Qed.

(** The two reads of a dynamic string that sits right after [pre]. *)
Lemma abiString_reads (pre s : list byte) (off : Z) :
  len pre = off -> len s < 2 ^ 32 ->
  let data := pre ++ abiString s in
  off + 32 <= len data
  /\ (s = [] -> len data = off + 32)
  /\ (s <> [] -> off + 32 < len data)
  /\ off + 32 + len s <= len data
  /\ slice data off (off + 32) = Ok (word (len s))
  /\ slice data (off + 32) (off + 32 + len s) = Ok s.
Proof.
  intros Hpre Hs data. subst data. unfold abiString.
  pose proof (len_nonneg s) as H0. pose proof (word_len (len s)) as Hw.
  pose proof (len_nonneg (padding (length s))) as Hp.
  rewrite !len_app, Hpre, Hw.
  repeat split; try lia.
  - intros ->. change (len (@nil byte)) with 0.
    change (len (padding (length (@nil byte)))) with 0. lia.
  - intros Hne. destruct s; [congruence|]. unfold len in *. cbn [length] in *.
    lia.
  - rewrite (slice_app_suffix pre _ off off (off + 32) Hpre) by lia.
    replace (off - off) with 0 by lia.
    replace (off + 32 - off) with 32 by lia.
    apply slice_app_prefix. exact Hw.
  - rewrite (slice_app_suffix pre _ off (off + 32) (off + 32 + len s) Hpre)
      by lia.
    rewrite (slice_app_suffix (word (len s)) _ 32 _ _ Hw) by lia.
    replace (off + 32 - off - 32) with 0 by lia.
    replace (off + 32 + len s - off - 32) with (len s) by lia.
    apply slice_app_prefix. reflexivity.
Qed.

(** X8. Round trip for MarketCreated: from the data the ABI encoder emits
    for a question, an end time and two addresses, the decoder returns
    exactly that question (also the empty one), end time and the two
    addresses rendered, with topic1 as the market id. *)
Theorem parseMarketCreated_decodes_abi (log : Log.t)
    (topic0 topic1 : Hash) (topics : list Hash)
    (question : list byte) (endTime : Z) (token vault : Address)
    (id : string) (bn ts : BigInt) (tx : string) :
  Log.Topics log = topic0 :: topic1 :: topics ->
  Log.Data log = marketCreatedData question endTime token vault ->
  0 <= endTime < 2 ^ 256 ->
  len token = 20 -> len vault = 20 ->
  len question < 2 ^ 32 ->
  parseMarketCreated log id bn ts tx
  = Ok {| MarketCreated.ID := id;
          MarketCreated.MarketID := Some (SetBytes topic1);
          MarketCreated.Question := string_of_list_byte question;
          MarketCreated.EndTime := Some endTime;
          MarketCreated.TokenAddress := Address_Hex token;
          MarketCreated.VaultAddress := Address_Hex vault;
          MarketCreated.BlockNumber := bn;
          MarketCreated.BlockTimestamp := ts;
          MarketCreated.TransactionHash := tx |}.
Proof.
  intros Ht Hd He Htok Hvault Hq.
  unfold parseMarketCreated. rewrite Ht, Hd.
  replace (len (topic0 :: topic1 :: topics) <? 2) with false
    by (symmetry; apply Z.ltb_ge; unfold len; cbn [length]; lia).
  change (index (topic0 :: topic1 :: topics) 1) with (Ok (A := Hash) topic1).
  cbn [bind]. cbv zeta.
  set (pre := word 128 ++ word endTime ++ addressWord token
              ++ addressWord vault).
  assert (Hdata : marketCreatedData question endTime token vault
                  = pre ++ abiString question).
  { unfold marketCreatedData, pre. rewrite <- !app_assoc. reflexivity. }
  rewrite Hdata.
  pose proof (word_len 128) as Hw0. pose proof (word_len endTime) as Hw1.
  pose proof (addressWord_len token Htok) as Hw2.
  pose proof (addressWord_len vault Hvault) as Hw3.
  assert (Hpre : len pre = 128).
  { unfold pre. rewrite !len_app. lia. }
  destruct (abiString_reads pre question 128 Hpre Hq)
    as (Hlen & Hempty & Hnonempty & Hend & Hlw & Hstr).
  assert (Hs0 : slice (pre ++ abiString question) 0 32 = Ok (word 128)).
  { unfold pre. rewrite <- !app_assoc. apply slice_app_prefix. exact Hw0. }
  assert (Hs1 : slice (pre ++ abiString question) 32 64 = Ok (word endTime)).
  { unfold pre. rewrite <- !app_assoc.
    rewrite (slice_app_suffix (word 128) _ 32 32 64 Hw0) by lia.
    apply slice_app_prefix. exact Hw1. }
  assert (Hs2 : slice (pre ++ abiString question) 64 96
                = Ok (addressWord token)).
  { unfold pre. rewrite <- !app_assoc.
    rewrite (slice_app_suffix (word 128) _ 32 64 96 Hw0) by lia.
    rewrite (slice_app_suffix (word endTime) _ 32 _ _ Hw1) by lia.
    apply slice_app_prefix. exact Hw2. }
  assert (Hs3 : slice (pre ++ abiString question) 96 128
                = Ok (addressWord vault)).
  { unfold pre. rewrite <- !app_assoc.
    rewrite (slice_app_suffix (word 128) _ 32 96 128 Hw0) by lia.
    rewrite (slice_app_suffix (word endTime) _ 32 _ _ Hw1) by lia.
    rewrite (slice_app_suffix (addressWord token) _ 32 _ _ Hw2) by lia.
    apply slice_app_prefix. exact Hw3. }
  destruct (Z.leb_spec 128 (len (pre ++ abiString question))); [|lia].
  rewrite Hs0, Hs1, Hs2, Hs3. cbn [bind].
  rewrite (SetBytes_word 128) by (split; [lia|reflexivity]).
  rewrite (SetBytes_word endTime He).
  rewrite !BytesToAddress_addressWord by assumption.
  pose proof (len_nonneg question) as Hq0.
  assert (Hsmall : len (pre ++ abiString question) < 2 ^ 64).
  { unfold abiString in *. rewrite !len_app in *.
    pose proof (word_len (len question)).
    unfold padding, len in *. rewrite repeat_length.
    pose proof (Nat.mod_upper_bound (32 - length question mod 32) 32).
    lia. }
  unfold Uint64.
  rewrite (Z.mod_small 128), (Z.mod_small (128 + 32)),
    (Z.mod_small (len (pre ++ abiString question))) by lia.
  destruct (Z.ltb_spec (128 + 32) (len (pre ++ abiString question)))
    as [Hlt|Hge].
  - rewrite Hlw. cbn [bind].
    rewrite (SetBytes_word (len question)) by lia.
    rewrite (Z.mod_small (len question)),
      (Z.mod_small (128 + 32 + len question)) by lia.
    destruct (Z.leb_spec (128 + 32 + len question)
                (len (pre ++ abiString question))); [|lia].
    rewrite Hstr. reflexivity.
  - destruct question as [|q0 q]; [reflexivity|].
    exfalso. assert (128 + 32 < len (pre ++ abiString (q0 :: q)))
      by (apply Hnonempty; discriminate). lia.
Qed.

(** X9. Round trip for ProtocolRegistered: from the data the ABI encoder
    emits for a name and a risk level (a [uint8]), the decoder returns
    exactly that name and risk level; the protocol type and address come
    from topic1 and topic2. *)
Theorem parseProtocolRegistered_decodes_abi (log : Log.t)
    (topic0 topic1 topic2 : Hash) (topics : list Hash)
    (name : list byte) (riskLevel : Z)
    (id : string) (bn ts : BigInt) (tx : string) :
  Log.Topics log = topic0 :: topic1 :: topic2 :: topics ->
  Log.Data log = protocolRegisteredData name riskLevel ->
  0 <= riskLevel < 256 ->
  len name < 2 ^ 32 ->
  parseProtocolRegistered log id bn ts tx
  = Ok {| ProtocolRegistered.ID := id;
          ProtocolRegistered.ProtocolType := Int64 (SetBytes topic1);
          ProtocolRegistered.ProtocolAddress :=
            Address_Hex (BytesToAddress topic2);
          ProtocolRegistered.Name := string_of_list_byte name;
          ProtocolRegistered.RiskLevel := riskLevel;
          ProtocolRegistered.BlockNumber := bn;
          ProtocolRegistered.BlockTimestamp := ts;
          ProtocolRegistered.TransactionHash := tx |}.
Proof.
  intros Ht Hd Hr Hn.
  unfold parseProtocolRegistered. rewrite Ht, Hd.
  replace (len (topic0 :: topic1 :: topic2 :: topics) <? 3) with false
    by (symmetry; apply Z.ltb_ge; unfold len; cbn [length]; lia).
  change (index (topic0 :: topic1 :: topic2 :: topics) 1)
    with (Ok (A := Hash) topic1).
  change (index (topic0 :: topic1 :: topic2 :: topics) 2)
    with (Ok (A := Hash) topic2).
  cbn [bind]. cbv zeta.
  set (pre := word 64 ++ word riskLevel).
  assert (Hdata : protocolRegisteredData name riskLevel
                  = pre ++ abiString name).
  { unfold protocolRegisteredData, pre. rewrite <- !app_assoc. reflexivity. }
  rewrite Hdata.
  pose proof (word_len 64) as Hw0. pose proof (word_len riskLevel) as Hw1.
  assert (Hpre : len pre = 64).
  { unfold pre. rewrite !len_app. lia. }
  destruct (abiString_reads pre name 64 Hpre Hn)
    as (Hlen & Hempty & Hnonempty & Hend & Hlw & Hstr).
  assert (Hs0 : slice (pre ++ abiString name) 0 32 = Ok (word 64)).
  { unfold pre. rewrite <- !app_assoc. apply slice_app_prefix. exact Hw0. }
  assert (Hs1 : slice (pre ++ abiString name) 32 64 = Ok (word riskLevel)).
  { unfold pre. rewrite <- !app_assoc.
    rewrite (slice_app_suffix (word 64) _ 32 32 64 Hw0) by lia.
    apply slice_app_prefix. exact Hw1. }
  destruct (Z.leb_spec 64 (len (pre ++ abiString name))); [|lia].
  rewrite Hs0, Hs1. cbn [bind].
  rewrite (SetBytes_word 64) by (split; [lia|reflexivity]).
  rewrite (SetBytes_word riskLevel) by lia.
  assert (Hi : Int64 riskLevel = riskLevel).
  { unfold Int64. rewrite Z.mod_small; lia. }
  rewrite Hi.
  pose proof (len_nonneg name) as Hn0.
  assert (Hsmall : len (pre ++ abiString name) < 2 ^ 64).
  { unfold abiString in *. rewrite !len_app in *.
    pose proof (word_len (len name)).
    unfold padding, len in *. rewrite repeat_length.
    pose proof (Nat.mod_upper_bound (32 - length name mod 32) 32).
    lia. }
  unfold Uint64.
  rewrite (Z.mod_small 64), (Z.mod_small (64 + 32)),
    (Z.mod_small (len (pre ++ abiString name))) by lia.
  destruct (Z.ltb_spec (64 + 32) (len (pre ++ abiString name))) as [Hlt|Hge].
  - rewrite Hlw. cbn [bind].
    rewrite (SetBytes_word (len name)) by lia.
    rewrite (Z.mod_small (len name)), (Z.mod_small (64 + 32 + len name))
      by lia.
    destruct (Z.leb_spec (64 + 32 + len name)
                (len (pre ++ abiString name))); [|lia].
    rewrite Hstr. reflexivity.
  - destruct name as [|c0 cs]; [reflexivity|].
    exfalso. assert (64 + 32 < len (pre ++ abiString (c0 :: cs)))
      by (apply Hnonempty; discriminate). lia.
Qed.

(** * Further properties of the writer *)

Lemma createDoNothing_keeps (batch : list Entity) :
  forall (tbl : gmap string Entity) (id : string) (row : Entity),
    tbl !! id = Some row -> createDoNothing tbl batch !! id = Some row.
Proof.
  unfold createDoNothing.
  induction batch as [|e batch IH]; intros tbl id row H; [exact H|].
  cbn [fold_left]. apply IH.
  destruct (tbl !! Entity_ID e) eqn:E; [exact H|].
  rewrite lookup_insert_ne; [exact H|]. intros Heq. congruence.
Qed.

Lemma createDoNothing_dom (batch : list Entity) :
  forall (tbl : gmap string Entity) (id : string),
    is_Some (createDoNothing tbl batch !! id)
    <-> is_Some (tbl !! id) \/ In id (map Entity_ID batch).
Proof.
  unfold createDoNothing.
  induction batch as [|e batch IH]; intros tbl id; cbn [fold_left map In].
  - tauto.
  - rewrite IH. destruct (tbl !! Entity_ID e) eqn:E.
    + split; [tauto|].
      intros [H|[<-|H]]; [auto | left; rewrite E; eauto | auto].
    + destruct (decide (Entity_ID e = id)) as [<-|Hne].
      * rewrite lookup_insert_eq. split; eauto.
      * rewrite lookup_insert_ne by exact Hne. tauto.
Qed.

Lemma createDoNothing_present (batch : list Entity) :
  forall tbl : gmap string Entity,
    (forall e, In e batch -> is_Some (tbl !! Entity_ID e)) ->
    createDoNothing tbl batch = tbl.
Proof.
  unfold createDoNothing.
  induction batch as [|e batch IH]; intros tbl H; [reflexivity|].
  cbn [fold_left].
  destruct (H e (or_introl eq_refl)) as [row Hrow]. rewrite Hrow.
  apply IH. intros e' He'. apply H. right. exact He'.
Qed.

(** An insert under ON CONFLICT DO NOTHING never overwrites: a row
    already stored under an id stays as it is, the ids stored afterwards are
    those stored before and those of the batch, and inserting the same batch
    a second time changes nothing. *)
Lemma insert_first_write_wins (tbl : gmap string Entity)
    (batch : list Entity) :
  (forall id row, tbl !! id = Some row ->
                  createDoNothing tbl batch !! id = Some row)
  /\ (forall id, is_Some (createDoNothing tbl batch !! id)
                 <-> is_Some (tbl !! id) \/ In id (map Entity_ID batch))
  /\ createDoNothing (createDoNothing tbl batch) batch
     = createDoNothing tbl batch.
Proof.
  split; [|split].
  - apply createDoNothing_keeps.
  - apply createDoNothing_dom.
  - apply createDoNothing_present. intros e He.
    apply createDoNothing_dom. right. apply in_map. exact He.
Qed.

Lemma In_sliceOf (k : Kind) (ents : list Entity) (e : Entity) :
  In e (sliceOf k ents) <-> In e ents /\ kindOf e = k.
Proof.
  unfold sliceOf. rewrite filter_In, bool_decide_eq_true. reflexivity.
Qed.

Lemma insertSlice_tables env k batch db db' r k' :
  insertSlice env k batch db = (db', r) ->
  tables db' k'
  = match r with
    | Some _ => tables db k'
    | None => if bool_decide (k' = k) then createDoNothing (tables db k) batch
              else tables db k'
    end.
Proof.
  unfold insertSlice. destruct (env_insert env k); intros H; inversion H;
    reflexivity.
Qed.

Lemma insertSlice_error env k batch db db' r :
  insertSlice env k batch db = (db', r) -> r = env_insert env k.
Proof.
  unfold insertSlice. destruct (env_insert env k); intros H; inversion H;
    reflexivity.
Qed.

Lemma storeKinds_keeps env ents ks :
  forall db db' r k id row,
    storeKinds env ks ents db = (db', r) ->
    tables db k !! id = Some row -> tables db' k !! id = Some row.
Proof.
  induction ks as [|k0 ks IH]; intros db db' r k id row H Hrow.
  - cbn in H. inversion H; subst. exact Hrow.
  - cbn [storeKinds] in H.
    destruct (0 <? len (sliceOf k0 ents)); [|eapply IH; eauto].
    destruct (insertSlice env k0 (sliceOf k0 ents) db) as [db1 r1] eqn:Ei.
    pose proof (insertSlice_tables env k0 _ db db1 r1 k Ei) as Ht.
    destruct r1 as [err|].
    + inversion H; subst. rewrite Ht. exact Hrow.
    + eapply IH; [exact H|]. rewrite Ht.
      destruct (bool_decide (k = k0)) eqn:Ek; [|exact Hrow].
      apply bool_decide_eq_true in Ek. subst k0.
      apply createDoNothing_keeps. exact Hrow.
Qed.

Lemma storeKinds_stored env ents ks :
  forall db db',
    storeKinds env ks ents db = (db', None) ->
    forall e, In e ents -> In (kindOf e) ks ->
              is_Some (tables db' (kindOf e) !! Entity_ID e).
Proof.
  induction ks as [|k0 ks IH]; intros db db' H e He Hk; [destruct Hk|].
  cbn [storeKinds] in H.
  destruct (decide (kindOf e = k0)) as [Heq|Hne].
  - assert (Hin : In e (sliceOf k0 ents)) by (apply In_sliceOf; auto).
    rewrite len_pos_nonempty in H
      by (intros Hnil; rewrite Hnil in Hin; destruct Hin).
    destruct (insertSlice env k0 (sliceOf k0 ents) db) as [db1 r1] eqn:Ei.
    pose proof (insertSlice_tables env k0 _ db db1 r1 k0 Ei) as Ht.
    destruct r1 as [err|]; [discriminate|].
    rewrite bool_decide_eq_true_2 in Ht by reflexivity.
    assert (Hs : is_Some (tables db1 k0 !! Entity_ID e)).
    { rewrite Ht. apply createDoNothing_dom. right. apply in_map. exact Hin. }
    destruct Hs as [row Hrow]. rewrite Heq. exists row.
    eapply storeKinds_keeps; eauto.
  - destruct Hk as [Hk|Hk]; [congruence|].
    destruct (0 <? len (sliceOf k0 ents)); [|eapply IH; eauto].
    destruct (insertSlice env k0 (sliceOf k0 ents) db) as [db1 [err|]];
      [discriminate|]. eapply IH; eauto.
Qed.

(** X10. When [storeEntities] returns without error every entity it was
    given is stored under its id in the table of its kind; and whatever it
    returns, no row that was stored before is changed or removed. *)
Theorem storeEntities_stores_all (env : CycleEnv) (ents : list Entity)
    (db db' : DB) (r : option string) :
  storeEntities env ents db = (db', r) ->
  (r = None ->
   forall e, In e ents -> is_Some (tables db' (kindOf e) !! Entity_ID e))
  /\ (forall k id row, tables db k !! id = Some row ->
                       tables db' k !! id = Some row).
Proof.
  unfold storeEntities. intros H. split.
  - intros -> e He. eapply storeKinds_stored; eauto. apply In_kinds.
  - intros k id row. eapply storeKinds_keeps. exact H.
Qed.

Lemma storeKinds_noop env ents ks :
  (forall k, In k ks -> env_insert env k = None) ->
  forall db,
    (forall e, In e ents -> is_Some (tables db (kindOf e) !! Entity_ID e)) ->
    exists db', storeKinds env ks ents db = (db', None)
                /\ sync_states db' = sync_states db
                /\ forall k, tables db' k = tables db k.
Proof.
  intros Henv. induction ks as [|k0 ks IH]; intros db Hall.
  - exists db. cbn. auto.
  - cbn [storeKinds].
    assert (IH' : forall k, In k ks -> env_insert env k = None)
      by (intros; apply Henv; right; assumption).
    destruct (0 <? len (sliceOf k0 ents)); [|apply IH; assumption].
    unfold insertSlice. rewrite (Henv k0 (or_introl eq_refl)).
    assert (Hsame : createDoNothing (tables db k0) (sliceOf k0 ents)
                    = tables db k0).
    { apply createDoNothing_present. intros e He.
      apply In_sliceOf in He as [He Hk]. rewrite <- Hk. apply Hall. exact He. }
    rewrite Hsame.
    destruct (IH IH' (mkDB (sync_states db)
                        (fun k' => if bool_decide (k' = k0) then tables db k0
                                   else tables db k')))
      as (db' & Hs & Hsync & Ht).
    + intros e He. cbn [tables].
      destruct (bool_decide (kindOf e = k0)) eqn:Ek; [|apply Hall; exact He].
      apply bool_decide_eq_true in Ek. rewrite <- Ek. apply Hall. exact He.
    + exists db'. split; [exact Hs|]. split; [exact Hsync|].
      intros k. rewrite Ht. cbn [tables].
      destruct (bool_decide (k = k0)) eqn:Ek; [|reflexivity].
      apply bool_decide_eq_true in Ek. subst. reflexivity.
Qed.

(** X11. Writing a batch again is harmless: after [storeEntities] has
    succeeded for a batch, a second call for the same batch (in an
    environment whose inserts succeed) succeeds and leaves every table and
    the cursors exactly as the first call left them. *)
Theorem storeEntities_rerun_is_noop (env env' : CycleEnv)
    (ents : list Entity) (db db1 : DB) :
  storeEntities env ents db = (db1, None) ->
  (forall k, env_insert env' k = None) ->
  exists db2, storeEntities env' ents db1 = (db2, None)
              /\ sync_states db2 = sync_states db1
              /\ forall k, tables db2 k = tables db1 k.
Proof.
  intros H Henv. unfold storeEntities in *.
  apply storeKinds_noop; [intros; apply Henv|].
  intros e He. eapply storeKinds_stored; eauto. apply In_kinds.
Qed.

Lemma createDoNothing_nil (tbl : gmap string Entity) :
  createDoNothing tbl [] = tbl.
Proof. reflexivity. Qed.

Lemma storeKinds_tables env ents ks :
  NoDup ks ->
  forall db db' r,
    storeKinds env ks ents db = (db', r) ->
    exists before after,
      ks = before ++ after
      /\ (forall k, In k before ->
            tables db' k = createDoNothing (tables db k) (sliceOf k ents)
            /\ (sliceOf k ents <> [] -> env_insert env k = None))
      /\ (forall k, ~ In k before -> tables db' k = tables db k)
      /\ match r with
         | None => after = []
         | Some err =>
             exists k after' msg,
               after = k :: after'
               /\ sliceOf k ents <> []
               /\ env_insert env k = Some msg
               /\ err = ("failed to insert " ++ kindName k ++ ": " ++ msg)%string
         end.
Proof.
  intros Hnd. induction ks as [|k0 ks IH]; intros db db' r H.
  - cbn in H. inversion H; subst. exists [], []. cbn. tauto.
  - apply NoDup_cons in Hnd as [Hnotin Hnd]. rewrite list_elem_of_In in Hnotin.
    cbn [storeKinds] in H.
    destruct (0 <? len (sliceOf k0 ents)) eqn:El.
    + assert (Hne : sliceOf k0 ents <> []).
      { intros Hnil. rewrite Hnil in El. discriminate. }
      destruct (insertSlice env k0 (sliceOf k0 ents) db) as [db1 r1] eqn:Ei.
      pose proof (insertSlice_error env k0 _ db db1 r1 Ei) as He.
      pose proof (fun k => insertSlice_tables env k0 _ db db1 r1 k Ei) as Ht.
      destruct r1 as [msg|].
      * inversion H; subst. exists [], (k0 :: ks). cbn [app In].
        repeat split; try tauto.
        -- intros k _. apply Ht.
        -- exists k0, ks, msg. auto.
      * destruct (IH Hnd db1 db' r H)
          as (before & after & -> & Hbefore & Hrest & Hr).
        exists (k0 :: before), after. split; [reflexivity|].
        assert (Hk0 : ~ In k0 before).
        { intros Hin. apply Hnotin. apply in_or_app. left. exact Hin. }
        split; [|split].
        -- intros k [<-|Hin].
           ++ rewrite (Hrest k0 Hk0), Ht.
              rewrite bool_decide_eq_true_2 by reflexivity. split; auto.
           ++ destruct (Hbefore k Hin) as [Hk Hok]. rewrite Hk, Ht.
              rewrite bool_decide_eq_false_2 by congruence. split; auto.
        -- intros k Hk. rewrite Hrest by (intros Hin; apply Hk; right; exact Hin).
           rewrite Ht. rewrite bool_decide_eq_false_2; [reflexivity|].
           intros ->. apply Hk. left. reflexivity.
        -- exact Hr.
    + assert (Hnil : sliceOf k0 ents = []).
      { destruct (sliceOf k0 ents); [reflexivity|].
        unfold len in El. cbn [length] in El. apply Z.ltb_ge in El. lia. }
      destruct (IH Hnd db db' r H)
        as (before & after & -> & Hbefore & Hrest & Hr).
      exists (k0 :: before), after. split; [reflexivity|].
      assert (Hk0 : ~ In k0 before).
      { intros Hin. apply Hnotin. apply in_or_app. left. exact Hin. }
      split; [|split].
      * intros k [<-|Hin]; [|apply Hbefore; exact Hin].
        rewrite (Hrest k0 Hk0), Hnil. split; [reflexivity|congruence].
      * intros k Hk. apply Hrest. intros Hin. apply Hk. right. exact Hin.
      * exact Hr.
Qed.

Lemma NoDup_kinds : NoDup kinds.
Proof. apply (bool_decide_unpack _). vm_compute. exact I. Qed.

(** X12. [storeEntities] does not roll back: when it returns an error, the
    error names the first kind (in the order of its eleven blocks) whose
    insert failed; the slices of the kinds before it have been inserted,
    and the tables of that kind and of all kinds after it are untouched. *)
Theorem storeEntities_partial_on_failure (env : CycleEnv)
    (ents : list Entity) (db db' : DB) (err : string) :
  storeEntities env ents db = (db', Some err) ->
  exists before k after msg,
    kinds = before ++ k :: after
    /\ sliceOf k ents <> []
    /\ env_insert env k = Some msg
    /\ err = ("failed to insert " ++ kindName k ++ ": " ++ msg)%string
    /\ (forall k', In k' before ->
          tables db' k' = createDoNothing (tables db k') (sliceOf k' ents)
          /\ (sliceOf k' ents <> [] -> env_insert env k' = None))
    /\ (forall k', ~ In k' before -> tables db' k' = tables db k').
Proof.
  unfold storeEntities. intros H.
  destruct (storeKinds_tables env ents kinds NoDup_kinds db db' _ H)
    as (before & after & Hks & Hbefore & Hrest & k & after' & msg
        & -> & Hne & Hfail & ->).
  exists before, k, after', msg. auto 10.
Qed.

(** X13. When [storeEntities] succeeds, the table of every kind is the old
    table with the entities of that kind inserted, in the order of the
    batch, under ON CONFLICT DO NOTHING; the cursors are not touched. *)
Theorem storeEntities_exact_on_success (env : CycleEnv)
    (ents : list Entity) (db db' : DB) :
  storeEntities env ents db = (db', None) ->
  (forall k, tables db' k = createDoNothing (tables db k) (sliceOf k ents))
  /\ sync_states db' = sync_states db.
Proof.
  unfold storeEntities. intros H. split.
  - destruct (storeKinds_tables env ents kinds NoDup_kinds db db' _ H)
      as (before & after & Hks & Hbefore & Hrest & ->).
    rewrite app_nil_r in Hks. subst before.
    intros k. apply Hbefore. apply In_kinds.
  - pose proof (storeKinds_sync_states env ents kinds db) as Hs.
    rewrite H in Hs. exact Hs.
Qed.

(** * Further properties of the loop *)

Lemma resolveTimestamp_caches env i cache bn :
  (resolveTimestamp env i cache bn).2 !! bn
  = Some (resolveTimestamp env i cache bn).1.
Proof.
  unfold resolveTimestamp. destruct (cache !! bn) eqn:E; cbn [fst snd].
  - exact E.
  - apply lookup_insert_eq.
Qed.

Lemma resolveTimestamp_cached env i cache bn n t :
  cache !! n = Some t ->
  (resolveTimestamp env i cache bn).2 !! n = Some t
  /\ (bn = n -> (resolveTimestamp env i cache bn).1 = t).
Proof.
  intros H. unfold resolveTimestamp.
  destruct (cache !! bn) eqn:E; cbn [fst snd].
  - split; [exact H|]. intros ->. congruence.
  - split.
    + rewrite lookup_insert_ne; [exact H|]. intros ->. congruence.
    + intros ->. congruence.
Qed.

Lemma batchTimestamps_cached env logs :
  forall i cache n t j log,
    cache !! n = Some t ->
    logs !! j = Some log -> Log.BlockNumber log = n ->
    batchTimestamps env i cache logs !! j = Some t.
Proof.
  induction logs as [|l logs IH]; intros i cache n t j log Hc Hj Hn.
  - destruct j; discriminate Hj.
  - cbn [batchTimestamps].
    destruct (resolveTimestamp_cached env i cache (Log.BlockNumber l) n t Hc)
      as [Hc' Hfst].
    destruct (resolveTimestamp env i cache (Log.BlockNumber l)) as [t0 c'].
    cbn [fst snd] in *.
    destruct j as [|j]; cbn in Hj |- *.
    + inversion Hj; subst. f_equal. apply Hfst. reflexivity.
    + eapply IH; eauto.
Qed.

Lemma batchTimestamps_length env logs :
  forall i cache, length (batchTimestamps env i cache logs) = length logs.
Proof.
  induction logs as [|l logs IH]; intros i cache; [reflexivity|].
  cbn [batchTimestamps].
  destruct (resolveTimestamp env i cache (Log.BlockNumber l)).
  cbn [length]. rewrite IH. reflexivity.
Qed.

(** X14. Within one batch every log gets a timestamp, and two logs of the
    same block get the same one, whatever the node answers (or fails to
    answer) when it is asked again later in the batch. *)
Theorem batch_timestamps_consistent (env : CycleEnv) (logs : list Log.t)
    (i : nat) (cache : gmap Z Z) :
  length (batchTimestamps env i cache logs) = length logs
  /\ forall a b la lb,
       logs !! a = Some la -> logs !! b = Some lb ->
       Log.BlockNumber la = Log.BlockNumber lb ->
       batchTimestamps env i cache logs !! a
       = batchTimestamps env i cache logs !! b.
Proof.
  split; [apply batchTimestamps_length|].
  assert (Hlt : forall logs i cache a b la lb,
             (a < b)%nat ->
             logs !! a = Some la -> logs !! b = Some lb ->
             Log.BlockNumber la = Log.BlockNumber lb ->
             batchTimestamps env i cache logs !! a
             = batchTimestamps env i cache logs !! b).
  { clear. intros logs.
    induction logs as [|l logs IH]; intros i cache a b la lb Hab Ha Hb Hn.
    - destruct a; discriminate Ha.
    - cbn [batchTimestamps].
      pose proof (resolveTimestamp_caches env i cache (Log.BlockNumber l))
        as Hc.
      destruct (resolveTimestamp env i cache (Log.BlockNumber l)) as [t0 c'].
      cbn [fst snd] in Hc.
      destruct b as [|b]; [lia|]. destruct a as [|a]; cbn in Ha, Hb |- *.
      + inversion Ha; subst. symmetry.
        eapply batchTimestamps_cached; eauto.
      + eapply IH; eauto. lia. }
  intros a b la lb Ha Hb Hn.
  destruct (Nat.lt_trichotomy a b) as [Hab|[->|Hab]].
  - eapply Hlt; eauto.
  - reflexivity.
  - symmetry. eapply Hlt; eauto.
Qed.

Section LoopProgress.
Variable unicode : string -> string -> bool.
Variables WhizyPredictionMarketContract ProtocolSelectorContract : Contract.t.

Local Abbreviation processRange :=
  (processBlockRange unicode WhizyPredictionMarketContract
     ProtocolSelectorContract).
Local Abbreviation oneCycle :=
  (cycle unicode WhizyPredictionMarketContract ProtocolSelectorContract).
Local Abbreviation loop :=
  (indexContract unicode WhizyPredictionMarketContract
     ProtocolSelectorContract).

Lemma cycle_range_inv cfg contract env db db' out f t :
  oneCycle cfg contract env db = (db', out) ->
  outcomeRange out = Some (f, t) ->
  exists state latestBlock,
    env_first env = None
    /\ sync_states db !! Contract.Address contract = Some state
    /\ env_latest env = inl latestBlock
    /\ nextRange (SyncState.LastBlock state) (Config.BlockBatchSize cfg)
         latestBlock = Some (f, t).
Proof.
  unfold cycle.
  destruct (env_first env); [intros H; inversion H; subst; discriminate|].
  destruct (sync_states db !! Contract.Address contract) as [state|];
    [|intros H; inversion H; subst; discriminate].
  destruct (env_latest env) as [latestBlock|];
    [|intros H; inversion H; subst; discriminate].
  destruct (nextRange _ _ _) as [[f0 t0]|] eqn:Er;
    [|intros H; inversion H; subst; discriminate].
  intros H Hr. exists state, latestBlock. repeat split.
  destruct (processRange env contract f0 t0 db) as [db1 [[]|err|m]];
    [destruct (env_save env)| |];
    inversion H; subst; cbn in Hr; inversion Hr; subst;
    first [reflexivity | exact Er].
Qed.

Lemma cycle_not_advanced cfg contract env db db' out :
  oneCycle cfg contract env db = (db', out) ->
  (forall f t, out <> Advanced f t) ->
  sync_states db' = sync_states db.
Proof.
  unfold cycle.
  destruct (env_first env); [intros H; inversion H; reflexivity|].
  destruct (sync_states db !! Contract.Address contract) as [state|];
    [|intros H; inversion H; reflexivity].
  destruct (env_latest env) as [latestBlock|];
    [|intros H; inversion H; reflexivity].
  destruct (nextRange _ _ _) as [[f0 t0]|];
    [|intros H; inversion H; reflexivity].
  pose proof (processBlockRange_sync_states unicode
                WhizyPredictionMarketContract ProtocolSelectorContract
                env contract f0 t0 db) as Hs.
  destruct (processRange env contract f0 t0 db) as [db1 [[]|err|m]];
    cbn [fst] in Hs.
  - destruct (env_save env); intros H Hno; inversion H; subst;
      [exact Hs|]. exfalso. eapply Hno. reflexivity.
  - intros H _. inversion H; subst. exact Hs.
  - intros H _. inversion H; subst. exact Hs.
Qed.

(** X15. Ranges leave no gap and skip nothing: of two consecutive cycles
    that both reach a range, the second starts at [toBlock + 1] of the first
    when the first completed, and at the same [fromBlock] again when the
    first failed (fetch, write or cursor save).  Batch size non-negative,
    heights within [int64]. *)
Theorem ranges_are_contiguous (cfg : Config.t) (contract : Contract.t)
    (env1 env2 : CycleEnv) (db db1 db2 : DB) (state : SyncState.t)
    (out1 out2 : CycleOutcome) (f1 t1 f2 t2 : Z) :
  sync_states db !! Contract.Address contract = Some state ->
  SyncState.ContractAddress state = Contract.Address contract ->
  - 2 ^ 63 <= SyncState.LastBlock state < 2 ^ 63 ->
  0 <= Config.BlockBatchSize cfg < 2 ^ 63 ->
  (forall latestBlock,
      env_latest env1 = inl latestBlock -> 0 <= latestBlock < 2 ^ 63) ->
  (forall latestBlock,
      env_latest env2 = inl latestBlock -> 0 <= latestBlock < 2 ^ 63) ->
  oneCycle cfg contract env1 db = (db1, out1) ->
  oneCycle cfg contract env2 db1 = (db2, out2) ->
  outcomeRange out1 = Some (f1, t1) ->
  outcomeRange out2 = Some (f2, t2) ->
  (out1 = Advanced f1 t1 -> f2 = t1 + 1)
  /\ ((forall f t, out1 <> Advanced f t) -> f2 = f1).
Proof.
  intros Hrow Hkey Hc Hb Hl1 Hl2 Hc1 Hc2 Hr1 Hr2.
  destruct (cycle_range_inv _ _ _ _ _ _ _ _ Hc1 Hr1)
    as (s1 & lb1 & _ & Hrow1 & _ & Hn1).
  destruct (cycle_range_inv _ _ _ _ _ _ _ _ Hc2 Hr2)
    as (s2 & lb2 & _ & Hrow2 & Hlat2 & Hn2).
  rewrite Hrow in Hrow1. inversion Hrow1; subst s1.
  apply nextRange_clamped in Hn1 as (_ & _ & Hf1).
  apply nextRange_clamped in Hn2 as (Hlt2 & _ & Hf2).
  split.
  - intros Hadv.
    destruct (cycle_cursor unicode WhizyPredictionMarketContract
                ProtocolSelectorContract cfg contract env1 db state db1 out1
                Hrow Hkey Hc Hb Hl1 Hc1)
      as (s' & Hrow' & _ & Hrange & _ & Ht).
    rewrite Hrow2 in Hrow'. inversion Hrow'; subst s'.
    specialize (Ht f1 t1 Hadv). rewrite Ht in *.
    specialize (Hl2 lb2 Hlat2).
    unfold Uint64 in *.
    destruct (Z.lt_ge_cases t1 0) as [Hneg|Hpos].
    + exfalso.
      assert (t1 mod 2 ^ 64 = t1 + 2 ^ 64)
        by (symmetry; apply Z.mod_unique_pos with (q := -1); lia).
      lia.
    + rewrite (Z.mod_small t1) in Hf2 by lia.
      rewrite Z.mod_small in Hf2 by lia. exact Hf2.
  - intros Hno.
    pose proof (cycle_not_advanced _ _ _ _ _ _ Hc1 Hno) as Hs.
    rewrite Hs, Hrow in Hrow2. inversion Hrow2; subst s2.
    congruence.
Qed.

Lemma loop_cons_advanced cfg contract env rest db db' f t :
  env_stop env = false ->
  oneCycle cfg contract env db = (db', Advanced f t) ->
  loop cfg contract (env :: rest) db
  = (Advanced f t, db') :: loop cfg contract rest db'.
Proof.
  intros Hstop Hc. cbn [indexContract]. rewrite Hstop, Hc. reflexivity.
Qed.

Lemma loop_cons_idle cfg contract env rest db :
  env_stop env = false ->
  oneCycle cfg contract env db = (db, Idle) ->
  loop cfg contract (env :: rest) db = (Idle, db) :: loop cfg contract rest db.
Proof.
  intros Hstop Hc. cbn [indexContract]. rewrite Hstop, Hc. reflexivity.
Qed.

(** X16. Catching up: while the chain stands at height [L] and every cycle
    succeeds (no stop signal, cursor read and saved, every range processed
    without error), the cursor after the n-th cycle is
    [min(c + n * batchSize, L)], where [c <= L] is the cursor at the start:
    the loop advances by whole batches until it reaches [L] and then idles
    there. *)
Theorem loop_catches_up (cfg : Config.t) (contract : Contract.t)
    (envs : list CycleEnv) (L : Z) :
  0 <= Config.BlockBatchSize cfg < 2 ^ 63 ->
  0 <= L < 2 ^ 63 ->
  (forall env, In env envs ->
     env_stop env = false /\ env_first env = None
     /\ env_latest env = inl L /\ env_save env = None
     /\ forall f t db, exists db',
          processRange env contract f t db = (db', Ok tt)) ->
  forall (db : DB) (state : SyncState.t),
    sync_states db !! Contract.Address contract = Some state ->
    SyncState.ContractAddress state = Contract.Address contract ->
    0 <= SyncState.LastBlock state <= L ->
    length (loop cfg contract envs db) = length envs
    /\ forall i out d,
         loop cfg contract envs db !! i = Some (out, d) ->
         cursor contract d
         = Some (Z.min (SyncState.LastBlock state
                        + (Z.of_nat i + 1) * Config.BlockBatchSize cfg) L).
Proof.
  intros Hb HL. induction envs as [|env rest IH]; intros Henv db state Hrow Hkey Hc.
  - split; [reflexivity|]. intros i out d H. destruct i; discriminate H.
  - destruct (Henv env (or_introl eq_refl))
      as (Hstop & Hfirst & Hlatest & Hsave & Hproc).
    assert (Henv' : forall e, In e rest ->
              env_stop e = false /\ env_first e = None
              /\ env_latest e = inl L /\ env_save e = None
              /\ forall f t db, exists db',
                   processRange e contract f t db = (db', Ok tt))
      by (intros e He; apply Henv; right; exact He).
    set (c := SyncState.LastBlock state) in *.
    set (b := Config.BlockBatchSize cfg) in *.
    destruct (Z.eq_dec c L) as [Heq|Hne].
    + (* at the head: the cycle idles *)
      assert (Hcyc : oneCycle cfg contract env db = (db, Idle)).
      { unfold cycle. rewrite Hfirst, Hrow, Hlatest.
        fold c b. rewrite (nextRange_block_numbers c b L) by lia.
        destruct (Z.leb_spec L c); [reflexivity|lia]. }
      rewrite (loop_cons_idle _ _ _ _ _ Hstop Hcyc).
      destruct (IH Henv' db state Hrow Hkey Hc) as [Hlen Hcur].
      split; [cbn [length]; rewrite Hlen; reflexivity|].
      intros [|i] out d H; cbn in H.
      * inversion H; subst. unfold cursor. rewrite Hrow. cbn. fold c b.
        f_equal. lia.
      * rewrite (Hcur i out d H). fold c b. f_equal. nia.
    + (* behind the head: the cycle advances *)
      set (t := Z.min (c + b) L).
      destruct (Hproc (c + 1) t db) as [db1 Hp].
      pose proof (processBlockRange_sync_states unicode
                    WhizyPredictionMarketContract ProtocolSelectorContract
                    env contract (c + 1) t db) as Hs.
      rewrite Hp in Hs. cbn [fst] in Hs.
      assert (Hi : Int64 t = t).
      { unfold Int64. rewrite Z.mod_small; unfold t; lia. }
      set (state' := SyncState.set_LastBlock t state).
      set (db' := mkDB (<[Contract.Address contract := state']>
                          (sync_states db1)) (tables db1)).
      assert (Hcyc : oneCycle cfg contract env db = (db', Advanced (c + 1) t)).
      { unfold cycle. rewrite Hfirst, Hrow, Hlatest.
        fold c b. rewrite (nextRange_block_numbers c b L) by lia.
        destruct (Z.leb_spec L c); [lia|].
        fold t. rewrite Hp, Hsave, Hi.
        cbn [SyncState.set_LastBlock SyncState.ContractAddress].
        rewrite Hkey. reflexivity. }
      rewrite (loop_cons_advanced _ _ _ _ _ _ _ _ Hstop Hcyc).
      assert (Hrow' : sync_states db' !! Contract.Address contract
                      = Some state')
        by (cbn [sync_states]; apply lookup_insert_eq).
      destruct (IH Henv' db' state' Hrow' Hkey) as [Hlen Hcur].
      { cbn [state' SyncState.set_LastBlock SyncState.LastBlock].
        unfold t. lia. }
      split; [cbn [length]; rewrite Hlen; reflexivity|].
      intros [|i] out d H; cbn in H.
      * inversion H; subst. unfold cursor. rewrite Hrow'. cbn.
        f_equal. unfold t. lia.
      * rewrite (Hcur i out d H).
        cbn [state' SyncState.set_LastBlock SyncState.LastBlock].
        f_equal. unfold t. nia.
Qed.

End LoopProgress.

(** * [config/db.go] *)

Lemma seedContract_keeps env i contract db :
  (forall addr state, sync_states db !! addr = Some state ->
     sync_states (seedContract env i contract db) !! addr = Some state)
  /\ tables (seedContract env i contract db) = tables db
  /\ (keyedByAddress db -> keyedByAddress (seedContract env i contract db)).
Proof.
  unfold seedContract.
  destruct (seed_first env i); [tauto|].
  destruct (sync_states db !! Contract.Address contract) eqn:E; [tauto|].
  destruct (seed_create env i); [tauto|].
  cbn [sync_states tables SyncState.ContractAddress]. repeat split.
  - intros addr state H. rewrite lookup_insert_ne; [exact H|]. congruence.
  - unfold keyedByAddress. intros Hk addr state. cbn [sync_states].
    destruct (decide (Contract.Address contract = addr)) as [<-|Hne].
    + rewrite lookup_insert_eq. intros H. inversion H. reflexivity.
    + rewrite lookup_insert_ne by exact Hne. apply Hk.
Qed.

Lemma seedContracts_keeps env contracts :
  forall i db,
    (forall addr state, sync_states db !! addr = Some state ->
       sync_states (seedContracts env i contracts db) !! addr = Some state)
    /\ tables (seedContracts env i contracts db) = tables db
    /\ (keyedByAddress db -> keyedByAddress (seedContracts env i contracts db)).
Proof.
  induction contracts as [|c rest IH]; intros i db; cbn [seedContracts].
  - tauto.
  - destruct (seedContract_keeps env i c db) as (H1 & H2 & H3).
    destruct (IH (S i) (seedContract env i c db)) as (H1' & H2' & H3').
    repeat split; [|congruence|tauto].
    intros addr state H. apply H1', H1, H.
Qed.

(** X17. Seeding never resets progress: whatever the database answers,
    [EnsureInitialSyncStateData] leaves every cursor row that already exists
    exactly as it is, touches no entity table, and keeps every row stored
    under its own contract address. *)
Theorem seeding_keeps_existing_cursors (env : SeedEnv)
    (Contracts : list Contract.t) (db : DB) :
  let db' := EnsureInitialSyncStateData env Contracts db in
  (forall addr state, sync_states db !! addr = Some state ->
                      sync_states db' !! addr = Some state)
  /\ tables db' = tables db
  /\ (keyedByAddress db -> keyedByAddress db').
Proof.
  unfold EnsureInitialSyncStateData.
  destruct (len Contracts =? 0); [tauto|]. apply seedContracts_keeps.
Qed.

Lemma seedContracts_seeds env contracts :
  (forall i, seed_first env i = None /\ seed_create env i = None) ->
  forall i db contract,
    In contract contracts ->
    exists state,
      sync_states (seedContracts env i contracts db)
        !! Contract.Address contract = Some state
      /\ (sync_states db !! Contract.Address contract = None ->
          exists before first after,
            contracts = before ++ first :: after
            /\ (forall c', In c' before ->
                  Contract.Address c' <> Contract.Address contract)
            /\ Contract.Address first = Contract.Address contract
            /\ state = SyncState.mk (Contract.Address first)
                         (Contract.Name first) (Contract.StartBlock first) "").
Proof.
  intros Henv.
  induction contracts as [|c rest IH]; intros i db contract Hin;
    [destruct Hin|].
  cbn [seedContracts].
  destruct (seedContracts_keeps env rest (S i) (seedContract env i c db))
    as (Hkeep & _ & _).
  assert (Hc : sync_states db !! Contract.Address c = None ->
               sync_states (seedContract env i c db) !! Contract.Address c
               = Some (SyncState.mk (Contract.Address c) (Contract.Name c)
                         (Contract.StartBlock c) "")).
  { intros Hnone. unfold seedContract. destruct (Henv i) as [Hf Hcr].
    rewrite Hf, Hnone, Hcr. cbn [sync_states SyncState.ContractAddress].
    apply lookup_insert_eq. }
  destruct (sync_states db !! Contract.Address contract) as [st|] eqn:Erow.
  - (* the row exists already *)
    exists st. split; [|discriminate].
    apply Hkeep. apply seedContract_keeps. exact Erow.
  - destruct (decide (Contract.Address c = Contract.Address contract))
      as [Heq|Hne].
    + (* [c] is the first contract with this address *)
      rewrite <- Heq in Erow |- *.
      eexists. split; [apply Hkeep, (Hc Erow)|].
      intros _. exists [], c, rest. split; [reflexivity|].
      split; [intros c' []|]. split; reflexivity.
    + destruct Hin as [->|Hin]; [congruence|].
      assert (Erow' : sync_states (seedContract env i c db)
                        !! Contract.Address contract = None).
      { unfold seedContract.
        destruct (seed_first env i); [exact Erow|].
        destruct (sync_states db !! Contract.Address c); [exact Erow|].
        destruct (seed_create env i); [exact Erow|].
        cbn [sync_states SyncState.ContractAddress].
        rewrite lookup_insert_ne by exact Hne. exact Erow. }
      destruct (IH (S i) (seedContract env i c db) contract Hin)
        as (state & Hstate & Hnew).
      exists state. split; [exact Hstate|].
      intros _.
      destruct (Hnew Erow') as (before & first & after & Hl & Hb & Ha & Hs).
      exists (c :: before), first, after. split; [rewrite Hl; reflexivity|].
      split; [|split; [exact Ha|exact Hs]].
      intros c' [<-|Hc']; [exact Hne|exact (Hb c' Hc')].
Qed.

(** X18. When the database answers without error,
    [EnsureInitialSyncStateData] leaves every configured contract with a
    cursor row: the row it already had, or else a new row holding the
    address, name and start block of the first contract of the list with
    that address, and an empty block hash. *)
Theorem seeding_gives_every_contract_a_cursor (env : SeedEnv)
    (Contracts : list Contract.t) (db : DB) (contract : Contract.t) :
  (forall i, seed_first env i = None /\ seed_create env i = None) ->
  In contract Contracts ->
  let db' := EnsureInitialSyncStateData env Contracts db in
  exists state,
    sync_states db' !! Contract.Address contract = Some state
    /\ (forall old, sync_states db !! Contract.Address contract = Some old ->
                    state = old)
    /\ (sync_states db !! Contract.Address contract = None ->
        exists before first after,
          Contracts = before ++ first :: after
          /\ (forall c', In c' before ->
                Contract.Address c' <> Contract.Address contract)
          /\ Contract.Address first = Contract.Address contract
          /\ state = SyncState.mk (Contract.Address first)
                       (Contract.Name first) (Contract.StartBlock first) "").
Proof.
  intros Henv Hin db'. subst db'. unfold EnsureInitialSyncStateData.
  destruct Contracts as [|c0 rest]; [destruct Hin|].
  replace (len (c0 :: rest) =? 0) with false
    by (symmetry; apply Z.eqb_neq; unfold len; cbn [length]; lia).
  destruct (seedContracts_seeds env (c0 :: rest) Henv 0 db contract Hin)
    as (state & Hstate & Hnew).
  exists state. split; [exact Hstate|]. split; [|exact Hnew].
  intros old Hold.
  destruct (seedContracts_keeps env (c0 :: rest) 0 db) as (Hkeep & _ & _).
  rewrite (Hkeep _ _ Hold) in Hstate. congruence.
Qed.

(** ** [BigInt] through the driver *)

Lemma scanDigits_digit (c : ascii) (r : string) (acc k : Z) :
  code c = 48 + k -> 0 <= k < 10 ->
  scanDigits (String c r) acc = scanDigits r (acc * 10 + k).
Proof.
  intros Hc Hk. cbn [scanDigits]. cbv zeta. rewrite Hc.
  replace (48 + k - 48) with k by lia.
  destruct (Z.leb_spec 0 k), (Z.ltb_spec k 10); try lia. reflexivity.
Qed.

Ltac scan_digit :=
  match goal with
  | |- scanDigits (String ?c _) _ = _ =>
      let k := eval vm_compute in (code c - 48) in
      rewrite (scanDigits_digit c _ _ k)
        by first [ vm_compute; reflexivity | lia ]
  end.

Lemma scanDigits_acc (d : Decimal.uint) :
  forall acc : positive,
    scanDigits (NilEmpty.string_of_uint d) (Z.pos acc)
    = Some (Z.pos (Pos.of_uint_acc d acc)).
Proof.
  induction d; intros acc; cbn [NilEmpty.string_of_uint Pos.of_uint_acc];
    [reflexivity|..];
    scan_digit;
    match goal with
    | |- scanDigits _ ?a = Some (Z.pos (Pos.of_uint_acc _ ?b)) =>
        replace a with (Z.pos b) by lia
    end;
    apply IHd.
Qed.

Lemma scanDigits_uint (d : Decimal.uint) :
  scanDigits (NilEmpty.string_of_uint d) 0 = Some (Z.of_N (Pos.of_uint d)).
Proof.
  induction d; cbn [NilEmpty.string_of_uint Pos.of_uint];
    [reflexivity|scan_digit; exact IHd|..];
    scan_digit; cbn [Z.of_N];
    match goal with
    | |- scanDigits _ ?a = Some (Z.pos (Pos.of_uint_acc _ ?b)) =>
        replace a with (Z.pos b) by lia
    end;
    apply scanDigits_acc.
Qed.

Lemma SetString10_decimal (z : Z) : SetString10 (decimal z) = Some z.
Proof.
  unfold decimal. destruct z as [|p|p]; cbn [Z.to_int NilZero.string_of_int].
  - reflexivity.
  - pose proof (DecimalPos.Unsigned.to_uint_nonnil p) as Hnn.
    pose proof (DecimalPos.Unsigned.of_to p) as Hof.
    pose proof (scanDigits_uint (Pos.to_uint p)) as Hs.
    unfold NilZero.string_of_uint.
    destruct (Pos.to_uint p) as [|d|d|d|d|d|d|d|d|d|d]; [congruence|..];
      cbn [NilEmpty.string_of_uint] in Hs |- *;
      unfold SetString10; cbn [Ascii.eqb Bool.eqb andb];
      rewrite Hs, Hof; reflexivity.
  - pose proof (DecimalPos.Unsigned.to_uint_nonnil p) as Hnn.
    pose proof (DecimalPos.Unsigned.of_to p) as Hof.
    pose proof (scanDigits_uint (Pos.to_uint p)) as Hs.
    unfold NilZero.string_of_uint.
    destruct (Pos.to_uint p) as [|d|d|d|d|d|d|d|d|d|d]; [congruence|..];
      cbn [NilEmpty.string_of_uint] in Hs |- *;
      unfold SetString10; cbn [Ascii.eqb Bool.eqb andb];
      rewrite Hs, Hof; reflexivity.
Qed.

(** X19. Round trip through the database driver: what [BigInt.Value]
    writes, [BigInt.Scan] reads back as the same integer, whether the driver
    returns it as a string or as bytes; a nil [BigInt] is written as "0" and
    comes back as zero.  No error is returned and the previous value of the
    receiver does not matter. *)
Theorem BigInt_Scan_Value (b receiver : BigInt) (s : string) :
  BigInt_Value b = VString s ->
  BigInt_Scan (VString s) receiver = (Some (default 0 b), None)
  /\ BigInt_Scan (VBytes (list_byte_of_string s)) receiver
     = (Some (default 0 b), None).
Proof.
  intros Hv.
  assert (Hs : SetString10 s = Some (default 0 b)).
  { destruct b as [n|]; cbn in Hv; inversion Hv; subst.
    - apply SetString10_decimal.
    - reflexivity. }
  unfold BigInt_Scan. rewrite string_of_list_byte_of_string, Hs.
  split; reflexivity.
Qed.

(** * The further theorems at concrete inputs *)

Lemma ParseLog_kind_sound_witness :
  nth_error (Log.Topics (betPlacedLog (word 1))) 0 = Some BetPlacedSignature
  /\ EqualFold noUnicode whizyLower (Contract.Address whizy) = true.
Proof.
  apply (ParseLog_kind_sound noUnicode whizy selector (betPlacedLog (word 1))
           whizyLower 1700000000 (EBetPlaced betPlacedEntity)).
  vm_compute. reflexivity.
Defined.

Lemma ParseLog_block_columns_witness :
  Entity_BlockNumber (EBetPlaced betPlacedEntity)
  = Some (Log.BlockNumber (betPlacedLog (word 1)))
  /\ Entity_BlockTimestamp (EBetPlaced betPlacedEntity) = Some 1700000000
  /\ Entity_TransactionHash (EBetPlaced betPlacedEntity)
     = Hash_Hex (Log.TxHash (betPlacedLog (word 1))).
Proof.
  apply (ParseLog_block_columns noUnicode whizy selector
           (betPlacedLog (word 1)) whizyLower 1700000000
           (EBetPlaced betPlacedEntity)).
  vm_compute. reflexivity.
Defined.

Lemma fixed_decoders_succeed_iff_topics_witness :
  (exists e, decodeAs KBetPlaced (betPlacedLog (word 1)) "id" (Some 120)
               (Some 1700000000) "0x1234" = Ok e)
  /\ decodeAs KBetPlaced (bareLog BetPlacedSignature) "id" (Some 120)
       (Some 1700000000) "0x1234"
     = Err "insufficient topics for BetPlaced".
Proof.
  split.
  - destruct (fixed_decoders_succeed_iff_topics KBetPlaced
                (betPlacedLog (word 1)) "id" (Some 120) (Some 1700000000)
                "0x1234" eq_refl) as (H & _ & _).
    apply H. vm_compute. discriminate.
  - destruct (fixed_decoders_succeed_iff_topics KBetPlaced
                (bareLog BetPlacedSignature) "id" (Some 120)
                (Some 1700000000) "0x1234" eq_refl) as (_ & H & _).
    apply H. vm_compute. reflexivity.
Defined.

Lemma ParseLog_reaches_every_decoder_witness :
  ParseLog noUnicode whizy selector (betPlacedLog (word 1)) whizyLower
    1700000000
  = decodeAs KBetPlaced (betPlacedLog (word 1))
      (Hash_Hex (Log.TxHash (betPlacedLog (word 1))) ++ "-"
       ++ decimal (Log.Index (betPlacedLog (word 1))))
      (Some (Log.BlockNumber (betPlacedLog (word 1)))) (Some 1700000000)
      (Hash_Hex (Log.TxHash (betPlacedLog (word 1)))).
Proof.
  apply (ParseLog_reaches_every_decoder noUnicode whizy selector KBetPlaced
           (betPlacedLog (word 1)) [word 7; topicAA] whizyLower 1700000000).
  - reflexivity.
  - vm_compute. reflexivity.
Defined.

Lemma ParseLog_panics_only_on_dynamic_witness :
  nth_error (Log.Topics wrappingOffsetLog) 0 = Some MarketCreatedSignature
  \/ nth_error (Log.Topics wrappingOffsetLog) 0
     = Some ProtocolRegisteredSignature.
Proof.
  apply (ParseLog_panics_only_on_dynamic noUnicode whizy selector
           wrappingOffsetLog (Contract.Address whizy) 1700000000
           "slice bounds out of range").
  vm_compute. reflexivity.
Defined.

Lemma ParseLog_quantities_are_uint256_witness :
  Forall (fun q : BigInt => forall v, q = Some v -> 0 <= v < 2 ^ 256)
    (Entity_quantities (EBetPlaced betPlacedEntity)).
Proof.
  apply (ParseLog_quantities_are_uint256 noUnicode whizy selector
           (betPlacedLog (word 1)) whizyLower 1700000000
           (EBetPlaced betPlacedEntity)).
  vm_compute. reflexivity.
Defined.

Lemma ParseLog_addresses_are_rendered_witness :
  Forall (fun s : string => s = "" \/ isAddressString s)
    (Entity_addresses (EBetPlaced betPlacedEntity)).
Proof.
  apply (ParseLog_addresses_are_rendered noUnicode whizy selector
           (betPlacedLog (word 1)) whizyLower 1700000000
           (EBetPlaced betPlacedEntity)).
  vm_compute. reflexivity.
Defined.

Lemma parseMarketCreated_decodes_abi_witness :
  exists e,
    parseMarketCreated marketCreatedLog "id" (Some 120) (Some 1700000000)
      "0x1234" = Ok e
    /\ MarketCreated.MarketID e = Some 9
    /\ MarketCreated.Question e = "Will it rain?"
    /\ MarketCreated.EndTime e = Some 1700000000.
Proof.
  eexists. split.
  - apply (parseMarketCreated_decodes_abi marketCreatedLog
             MarketCreatedSignature (word 9) []
             (list_byte_of_string "Will it rain?") 1700000000
             (repeat xaa 20) (repeat xbb 20)).
    + reflexivity.
    + reflexivity.
    + vm_compute. split; [discriminate|reflexivity].
    + reflexivity.
    + reflexivity.
    + vm_compute. reflexivity.
  - split; [vm_compute; reflexivity|]. split; reflexivity.
Defined.

Lemma parseProtocolRegistered_decodes_abi_witness :
  exists e,
    parseProtocolRegistered protocolRegisteredLog "id" (Some 120)
      (Some 1700000000) "0x1234" = Ok e
    /\ ProtocolRegistered.ProtocolType e = 1
    /\ ProtocolRegistered.Name e = "Aave"
    /\ ProtocolRegistered.RiskLevel e = 3.
Proof.
  eexists. split.
  - apply (parseProtocolRegistered_decodes_abi protocolRegisteredLog
             ProtocolRegisteredSignature (word 1) topicAA []
             (list_byte_of_string "Aave") 3).
    + reflexivity.
    + reflexivity.
    + lia.
    + vm_compute. reflexivity.
  - split; [vm_compute; reflexivity|]. split; reflexivity.
Defined.

Lemma storeEntities_stores_all_witness :
  exists db',
    storeEntities envOk [EBetPlaced betPlacedEntity] db0 = (db', None)
    /\ is_Some (tables db' KBetPlaced !! BetPlaced.ID betPlacedEntity).
Proof.
  assert (Hr : (storeEntities envOk [EBetPlaced betPlacedEntity] db0).2
               = None) by (vm_compute; reflexivity).
  destruct (storeEntities envOk [EBetPlaced betPlacedEntity] db0)
    as [db' r] eqn:E.
  cbn [snd] in Hr. subst r. exists db'. split; [reflexivity|].
  destruct (storeEntities_stores_all envOk [EBetPlaced betPlacedEntity] db0
              db' None E) as [H _].
  apply (H eq_refl (EBetPlaced betPlacedEntity)). left. reflexivity.
Defined.

Lemma storeEntities_rerun_is_noop_witness :
  exists db1 db2,
    storeEntities envOk [EBetPlaced betPlacedEntity] db0 = (db1, None)
    /\ storeEntities envLater [EBetPlaced betPlacedEntity] db1 = (db2, None)
    /\ sync_states db2 = sync_states db1
    /\ forall k, tables db2 k = tables db1 k.
Proof.
  assert (Hr : (storeEntities envOk [EBetPlaced betPlacedEntity] db0).2
               = None) by (vm_compute; reflexivity).
  destruct (storeEntities envOk [EBetPlaced betPlacedEntity] db0)
    as [db1 r] eqn:E.
  cbn [snd] in Hr. subst r.
  destruct (storeEntities_rerun_is_noop envOk envLater
              [EBetPlaced betPlacedEntity] db0 db1 E) as (db2 & H2 & Hs & Ht).
  - intros k. reflexivity.
  - exists db1, db2. split; [reflexivity|]. split; [exact H2|].
    split; [exact Hs|exact Ht].
Defined.

Lemma storeEntities_partial_on_failure_witness :
  exists db' k msg,
    storeEntities envInsertFails [EBetPlaced betPlacedEntity] db0
    = (db', Some ("failed to insert " ++ kindName k ++ ": " ++ msg)%string)
    /\ env_insert envInsertFails k = Some msg
    /\ tables db' k = tables db0 k.
Proof.
  assert (Hr : (storeEntities envInsertFails [EBetPlaced betPlacedEntity]
                  db0).2
               = Some "failed to insert BetPlaced: connection reset")
    by (vm_compute; reflexivity).
  destruct (storeEntities envInsertFails [EBetPlaced betPlacedEntity] db0)
    as [db' r] eqn:E.
  cbn [snd] in Hr. subst r.
  destruct (storeEntities_partial_on_failure envInsertFails
              [EBetPlaced betPlacedEntity] db0 db' _ E)
    as (before & k & after & msg & Hk & _ & Hi & He & _ & Hlater).
  exists db', k, msg. split; [rewrite He; reflexivity|].
  split; [exact Hi|].
  apply Hlater. intros Hin.
  assert (Hnd : NoDup kinds) by (apply (bool_decide_unpack _); vm_compute; exact I).
  rewrite Hk in Hnd. apply NoDup_app in Hnd as (_ & Hdisj & _).
  apply (Hdisj k); [apply list_elem_of_In; exact Hin|left].
Defined.

Lemma storeEntities_exact_on_success_witness :
  exists db',
    storeEntities envOk [EBetPlaced betPlacedEntity] db0 = (db', None)
    /\ tables db' KBetPlaced
       = createDoNothing (tables db0 KBetPlaced) [EBetPlaced betPlacedEntity]
    /\ sync_states db' = sync_states db0.
Proof.
  assert (Hr : (storeEntities envOk [EBetPlaced betPlacedEntity] db0).2
               = None) by (vm_compute; reflexivity).
  destruct (storeEntities envOk [EBetPlaced betPlacedEntity] db0)
    as [db' r] eqn:E.
  cbn [snd] in Hr. subst r. exists db'. split; [reflexivity|].
  destruct (storeEntities_exact_on_success envOk [EBetPlaced betPlacedEntity]
              db0 db' E) as [Ht Hs].
  split; [exact (Ht KBetPlaced)|exact Hs].
Defined.

Lemma ranges_are_contiguous_witness :
  exists db2 t2,
    cycle noUnicode whizy selector cfg1 whizy envLater db0
    = (dbAfterLater, Advanced 101 1100)
    /\ cycle noUnicode whizy selector cfg1 whizy envLater dbAfterLater
       = (db2, Advanced (1100 + 1) t2).
Proof.
  assert (E1 : cycle noUnicode whizy selector cfg1 whizy envLater db0
               = (dbAfterLater, Advanced 101 1100))
    by (vm_compute; reflexivity).
  assert (Ho : (cycle noUnicode whizy selector cfg1 whizy envLater
                  dbAfterLater).2 = Advanced 1101 2000)
    by (vm_compute; reflexivity).
  destruct (cycle noUnicode whizy selector cfg1 whizy envLater dbAfterLater)
    as [db2 out2] eqn:E2.
  cbn [snd] in Ho. subst out2. exists db2, 2000.
  split; [exact E1|].
  destruct (ranges_are_contiguous noUnicode whizy selector cfg1 whizy
              envLater envLater db0 dbAfterLater db2 state0
              (Advanced 101 1100) (Advanced 1101 2000) 101 1100 1101 2000)
    as [H _].
  - vm_compute. reflexivity.
  - reflexivity.
  - vm_compute. split; [discriminate|reflexivity].
  - vm_compute. split; [discriminate|reflexivity].
  - intros lb H. inversion H; subst lb. vm_compute.
    split; [discriminate|reflexivity].
  - intros lb H. inversion H; subst lb. vm_compute.
    split; [discriminate|reflexivity].
  - exact E1.
  - exact E2.
  - reflexivity.
  - reflexivity.
  - rewrite <- (H eq_refl). reflexivity.
Defined.

Lemma loop_catches_up_witness :
  exists out d,
    indexContract noUnicode whizy selector cfg1 whizy [envLater; envLater]
      db0 !! 1%nat = Some (out, d)
    /\ cursor whizy d = Some 2000.
Proof.
  destruct (loop_catches_up noUnicode whizy selector cfg1 whizy
              [envLater; envLater] 2000) with (db := db0) (state := state0)
    as [Hlen H].
  - vm_compute. split; [discriminate|reflexivity].
  - vm_compute. split; [discriminate|reflexivity].
  - intros env [<-|[<-|[]]]; repeat split; intros f t db; eexists;
      reflexivity.
  - vm_compute. reflexivity.
  - reflexivity.
  - vm_compute. split; discriminate.
  - destruct (indexContract noUnicode whizy selector cfg1 whizy
                [envLater; envLater] db0 !! 1%nat) as [[out d]|] eqn:E.
    + exists out, d. split; [reflexivity|].
      rewrite (H 1%nat out d E). vm_compute. reflexivity.
    + apply lookup_ge_None in E. rewrite Hlen in E. cbn [length] in E. lia.
Defined.

Lemma seeding_gives_every_contract_a_cursor_witness :
  sync_states (EnsureInitialSyncStateData seedOk [whizy; selector] db0)
    !! Contract.Address whizy = Some state0
  /\ exists state,
       sync_states (EnsureInitialSyncStateData seedOk [whizy; selector] db0)
         !! Contract.Address selector = Some state.
Proof.
  split.
  - destruct (seeding_gives_every_contract_a_cursor seedOk [whizy; selector]
                db0 whizy) as (state & Hs & Hold & _).
    + intros i. split; reflexivity.
    + left. reflexivity.
    + rewrite Hs. f_equal. apply Hold. vm_compute. reflexivity.
  - destruct (seeding_gives_every_contract_a_cursor seedOk [whizy; selector]
                db0 selector) as (state & Hs & _).
    + intros i. split; reflexivity.
    + right. left. reflexivity.
    + exists state. exact Hs.
Defined.

Lemma BigInt_Scan_Value_witness :
  BigInt_Scan (VString "1700000000") None = (Some 1700000000, None)
  /\ BigInt_Scan (VBytes (list_byte_of_string "1700000000")) None
     = (Some 1700000000, None).
Proof.
  apply (BigInt_Scan_Value (Some 1700000000) None "1700000000").
  vm_compute. reflexivity.
Defined.

Lemma LoadNetworks_loads_the_network_witness :
  exists g',
    LoadNetworks (Parsed networks1) "testnet" globals0 = (g', None)
    /\ Globals.Contracts g' = [whizy; selector]
    /\ Globals.named "WhizyPredictionMarket" g' = Some whizy
    /\ Globals.named "RebalancerDelegation" g'
       = Globals.named "RebalancerDelegation" globals0.
Proof.
  destruct (LoadNetworks (Parsed networks1) "testnet" globals0)
    as [g' r] eqn:E.
  destruct (LoadNetworks_loads_the_network networks1 "testnet" items1
              globals0 g' r) as (Hc & Hr & Hin & Hout).
  - vm_compute. reflexivity.
  - apply (bool_decide_unpack _). vm_compute. exact I.
  - exact E.
  - exists g'. split; [f_equal; apply Hr; discriminate|].
    split; [exact Hc|]. split.
    + apply (Hin "WhizyPredictionMarket"
               (NetworkEntry.mk (Contract.Address whizy)
                  (Contract.StartBlock whizy))
               (Contract.mk "" "" 0)).
      * left. reflexivity.
      * reflexivity.
    + apply Hout. vm_compute. intuition discriminate.
Defined.

Lemma LoadNetworks_failures_witness :
  exists networks,
    Parsed networks1 = Parsed networks /\ networks !! "mainnet" = None.
Proof.
  destruct (LoadNetworks_failures (Parsed networks1) "mainnet" globals0
              globals0 "network mainnet not found in networks file")
    as [(e & H & _)|[(e & H & _)|[(n & H1 & H2 & _)|(n & H1 & H2 & _)]]];
    try discriminate.
  - vm_compute. reflexivity.
  - exists n. split; [exact H1|exact H2].
  - inversion H1; subst n. vm_compute in H2. discriminate H2.
Defined.
